(** * HOGFeatures: feature pyramid, HOG extractor and strided convolution

    A shallow embedding of [src/HOGFeatures.cpp].  The C++ class is a template
    over the working floating-point type [T] ([float] or [double]); the
    embedding is generic over a class [Real T] of the arithmetic the code
    uses, and is instantiated twice: at IEEE binary64 (the
    [HOGFeatures<double>] instance, executable) and at the real numbers
    (exact arithmetic, for the bounds that hold of every image).

    Pointers into a [cv::Mat] buffer are indices (in [Z]) into the list of
    its elements; a read or write outside the buffer is the error
    [OutOfBounds].  [int] values are modelled in [Z]: signed overflow is
    undefined in C++, so the model covers the sizes where none occurs. *)

From Stdlib Require Import ZArith List Bool Lia Floats Reals Lra.
Import ListNotations.
Local Open Scope Z_scope.

(** ** Errors and the error monad *)

Inductive error : Type :=
| UnsupportedFormat        (* CV_Error(CV_StsUnsupportedFormat, ...) in pyramid *)
| AssertDepth              (* assert(feature.depth() == filter.depth()) *)
| AssertStride             (* assert(feature.cols % stride == 0 && filter.cols % stride == 0) *)
| OutOfBounds (i : Z)      (* a dereference at element index i outside the buffer *)
| BadSize                  (* a negative size given to Mat::create or vector::resize *)
| DivideByZero             (* an integer [%] by zero *)
| Unbounded.               (* a loop whose counter moves away from its bound *)

Inductive result (A : Type) : Type :=
| Ok (a : A)
| Err (e : error).
Arguments Ok {A} a.
Arguments Err {A} e.

Definition bind {A B} (r : result A) (k : A -> result B) : result B :=
  match r with
  | Ok a => k a
  | Err e => Err e
  end.

Notation "x <- e ;; k" := (bind e (fun x => k))
  (at level 61, e at next level, right associativity).
Notation "' p <- e ;; k" := (bind e (fun x => let p := x in k))
  (at level 61, p pattern, e at next level, right associativity).

(** ** The working arithmetic [T] *)

Class Real (T : Type) : Type := {
  zero : T;
  one : T;
  add : T -> T -> T;
  sub : T -> T -> T;
  mul : T -> T -> T;
  div : T -> T -> T;
  opp : T -> T;
  sqrt : T -> T;
  ltb : T -> T -> bool;      (* a < b *)
  floor : T -> Z;            (* (int)floor(a) *)
  of_int : Z -> T            (* (T)n *)
}.

(** A decimal literal [n / 10^k], e.g. [0.9397] is [dec 9397 4]. *)
Definition dec {T} `{Real T} (n k : Z) : T := div (of_int n) (of_int (10 ^ k)).

(** [std::min(a, b)]: [b] when [b < a], else [a]. *)
Definition tmin {T} `{Real T} (a b : T) : T := if ltb b a then b else a.

(** IEEE binary64, the arithmetic of [HOGFeatures<double>]. *)
Definition float_of_int (z : Z) : float :=
  if z <? 0 then PrimFloat.opp (PrimFloat.of_uint63 (Uint63.of_Z (- z)))
  else PrimFloat.of_uint63 (Uint63.of_Z z).

Definition float_floor (f : float) : Z :=
  match Prim2SF f with
  | S754_finite s m e =>
      if 0 <=? e then (if s then - (Z.shiftl (Zpos m) e) else Z.shiftl (Zpos m) e)
      else if s then - (Z.shiftr (Zpos m + 2 ^ (- e) - 1) (- e))
           else Z.shiftr (Zpos m) (- e)
  | _ => 0
  end.

#[export] Instance RealDouble : Real float := {|
  zero := 0%float;
  one := 1%float;
  add := PrimFloat.add;
  sub := PrimFloat.sub;
  mul := PrimFloat.mul;
  div := PrimFloat.div;
  opp := PrimFloat.opp;
  sqrt := PrimFloat.sqrt;
  ltb := PrimFloat.ltb;
  floor := float_floor;
  of_int := float_of_int
|}.

(** Exact real arithmetic. *)
Definition Rltb (a b : R) : bool := if Rlt_dec a b then true else false.

#[export] Instance RealExact : Real R := {|
  zero := 0%R;
  one := 1%R;
  add := Rplus;
  sub := Rminus;
  mul := Rmult;
  div := Rdiv;
  opp := Ropp;
  sqrt := R_sqrt.sqrt;
  ltb := Rltb;
  floor := Zfloor;
  of_int := IZR
|}.

(** ** Matrices *)

(** [cv::Mat::depth()]. *)
Inductive Depth : Type :=
| CV_8U | CV_8S | CV_16U | CV_16S | CV_32S | CV_32F | CV_64F | CV_USRTYPE1.

Definition depth_eqb (a b : Depth) : bool :=
  match a, b with
  | CV_8U, CV_8U | CV_8S, CV_8S | CV_16U, CV_16U | CV_16S, CV_16S
  | CV_32S, CV_32S | CV_32F, CV_32F | CV_64F, CV_64F
  | CV_USRTYPE1, CV_USRTYPE1 => true
  | _, _ => false
  end.

(** A continuous [cv::Mat]: its header and its buffer seen through
    [ptr<A>(0)], row after row. *)
Record Mat (A : Type) : Type := mkMat {
  rows : Z;
  cols : Z;
  channels : Z;
  depth : Depth;
  data : list A
}.
Arguments mkMat {A}.
Arguments rows {A}.
Arguments cols {A}.
Arguments channels {A}.
Arguments depth {A}.
Arguments data {A}.

(** [Mat()]. *)
Definition emptyMat {A} : Mat A := mkMat 0 0 1 CV_8U [].

(** [Mat::zeros(Size(width, height), type)] with one channel. *)
Definition zeros {A} (z : A) (width height : Z) (d : Depth) : Mat A :=
  mkMat height width 1 d (repeat z (Z.to_nat (width * height))).

(** The element of row [r], column [c] ([dflt] outside the buffer). *)
Definition at_ {A} (dflt : A) (m : Mat A) (r c : Z) : A :=
  nth (Z.to_nat (r * cols m + c)) (data m) dflt.

(** ** Buffers and loops *)

(** [*(buf + i)] as an rvalue. *)
Definition load {A} (buf : list A) (i : Z) : result A :=
  if i <? 0 then Err (OutOfBounds i)
  else match nth_error buf (Z.to_nat i) with
       | Some v => Ok v
       | None => Err (OutOfBounds i)
       end.

Fixpoint upd {A} (l : list A) (n : nat) (v : A) : list A :=
  match l, n with
  | [], _ => []
  | _ :: t, O => v :: t
  | h :: t, S n' => h :: upd t n' v
  end.

(** [*(buf + i) = v]. *)
Definition store {A} (buf : list A) (i : Z) (v : A) : result (list A) :=
  if (0 <=? i) && (i <? Z.of_nat (length buf)) then Ok (upd buf (Z.to_nat i) v)
  else Err (OutOfBounds i).

(** The values of [k] in [for (int k = lo; k < hi; ++k)]. *)
Definition range (lo hi : Z) : list Z :=
  map (fun k => lo + Z.of_nat k) (seq 0 (Z.to_nat (hi - lo))).

(** The values of [k] in [for (int k = lo; k < hi; k += step)]. *)
Definition strided (lo hi step : Z) : result (list Z) :=
  if hi <=? lo then Ok []
  else if step <=? 0 then Err Unbounded
  else Ok (map (fun k => lo + Z.of_nat k * step)
               (seq 0 (Z.to_nat ((hi - lo + step - 1) / step)))).

(** A loop over the listed counter values, threading the loop's state. *)
Fixpoint for_each {S} (l : list Z) (body : Z -> S -> result S) (s : S) : result S :=
  match l with
  | [] => Ok s
  | k :: l' =>
      match body k s with
      | Ok s' => for_each l' body s'
      | Err e => Err e
      end
  end.

(** ** The response engine: [HOGFeatures<T>::convolve] *)

Section Convolve.
Context {T : Type} `{Real T}.

(** [pdf.create(Size(width, height), type)]: a fresh buffer whose cells are
    not initialised ([None] until written). *)
Definition create (width height : Z) (cn : Z) (d : Depth) : result (Mat (option T)) :=
  if (width <? 0) || (height <? 0) then Err BadSize
  else Ok (mkMat height width cn d (repeat None (Z.to_nat (width * height * cn)))).

(** [k] turns of [while (filt_ptr < ...) accum += *(filt_ptr++) * *(feat_ptr++);]
    on the state (accum, filt_ptr, feat_ptr). *)
Fixpoint mac (feat filt : list T) (k : nat) (st : T * Z * Z) : result (T * Z * Z) :=
  match k with
  | O => Ok st
  | S k' =>
      let '(accum, filt_ptr, feat_ptr) := st in
      a <- load filt filt_ptr ;;
      b <- load feat feat_ptr ;;
      mac feat filt k' (add accum (mul a b), filt_ptr + 1, feat_ptr + 1)
  end.

(** The body of the [h] loop: the [while] runs until [filt_ptr] reaches
    [filt_start + h*W], then [feat_ptr] is set to the start of row [m+h]. *)
Definition convolve_row (feature filter : Mat T) (m n h : Z) (st : T * Z * Z)
  : result (T * Z * Z) :=
  let W := cols filter in
  let '(_, filt_ptr, _) := st in
  ' (accum, filt_ptr', _) <- mac (data feature) (data filter) (Z.to_nat (h * W - filt_ptr)) st ;;
  Ok (accum, filt_ptr', (m + h) * cols feature + n).

(** One response value: the body of the [n] loop up to the write
    (lines 312-320). *)
Definition convolve_at (feature filter : Mat T) (m n : Z) : result T :=
  let H := rows filter in
  ' (accum, _, _) <- for_each (range 0 H) (convolve_row feature filter m n)
                        (zero, 0, m * cols feature + n) ;;
  Ok accum.

(** [HOGFeatures<T>::convolve] (lines 293-324). *)
Definition convolve (feature filter : Mat T) (stride : Z) : result (Mat (option T)) :=
  if negb (depth_eqb (depth feature) (depth filter)) then Err AssertDepth
  else if stride =? 0 then Err DivideByZero
  else if negb ((Z.rem (cols feature) stride =? 0) && (Z.rem (cols filter) stride =? 0))
  then Err AssertStride
  else
    let M := rows feature - rows filter + 1 in
    let N := cols feature - cols filter + stride in
    pdf <- create M N (channels feature) (depth feature) ;;
    ' (buf, _) <-
      for_each (range 0 M)
        (fun m st =>
           ns <- strided 0 N stride ;;
           for_each ns
             (fun n '(buf, pdf_ptr) =>
                accum <- convolve_at feature filter m n ;;
                buf' <- store buf pdf_ptr (Some accum) ;;
                Ok (buf', pdf_ptr + 1))
             st)
        (data pdf, 0) ;;
    Ok (mkMat (rows pdf) (cols pdf) (channels pdf) (depth pdf) buf).

(** [HOGFeatures<T>::pdf] (lines 337-356): every feature map against every
    filter, the filter index varying fastest; [responses[i]] for
    [i = m*N + n]. *)
Definition pdf (flen_ : Z) (features filters : list (Mat T))
  : result (list (Mat (option T))) :=
  let M := Z.of_nat (length features) in
  let N := Z.of_nat (length filters) in
  for_each (range 0 (M * N))
    (fun i responses =>
       let n := Z.rem i N in
       let m := Z.quot i N in
       response <- convolve (nth (Z.to_nat m) features emptyMat)
                            (nth (Z.to_nat n) filters emptyMat) flen_ ;;
       Ok (upd responses (Z.to_nat i) response))
    (repeat emptyMat (Z.to_nat (M * N))).

End Convolve.

(** ** The feature extractor: [HOGFeatures<T>::features<IT>] *)

(** Modelled from the spec: the members [norient_] and [flen_], declared in
    [HOGFeatures.hpp], which is not among the sources.  The spec fixes
    [norient = 18] and [flen = 32]; the code agrees by its literals: [uu] and
    [vv] have [9 = norient_/2] entries and a cell receives [18 + 9 + 4 + 1]
    values. *)
Definition norient_ : Z := 18.
Definition flen_ : Z := 32.

(** [round((float)n / (float)binsize_)] for [n >= 0] and [binsize_ > 0]:
    the nearest integer, halves away from zero.  (The quotient is rounded to
    binary32 first, which does not change the result while [n < 2^23].) *)
Definition round_div (n binsize : Z) : Z := (2 * n + binsize) / (2 * binsize).

Section Extractor.
Context {T : Type} `{Real T}.

(** The element type [IT] of the source image; [sdiff a b] is [a - b]
    evaluated as C++ does for two [IT] values and then converted to [T]. *)
Variable IT : Type.
Variable sdiff : IT -> IT -> T.

Variable binsize_ : Z.

Definition uu : list T :=
  [dec 1000 3; dec 9397 4; dec 7660 4; dec 5000 4; dec 1736 4;
   dec (-1736) 4; dec (-5000) 4; dec (-7660) 4; dec (-9397) 4].
Definition vv : list T :=
  [dec 0 3; dec 3420 4; dec 6428 4; dec 8660 4; dec 9848 4;
   dec 9848 4; dec 8660 4; dec 6428 4; dec 3420 4].

(** The geometry computed at the head of [features] (lines 134-142). *)
Record Geometry : Type := mkGeometry {
  im_width : Z;  im_height : Z;          (* imsize *)
  blocks_width : Z;  blocks_height : Z;  (* blocks *)
  out_width : Z;  out_height : Z;        (* outsize *)
  vis_width : Z;  vis_height : Z         (* visible *)
}.

Definition geometry (im : Mat IT) : Geometry :=
  let bh := round_div (rows im) binsize_ in
  let bw := round_div (cols im) binsize_ in
  mkGeometry (cols im) (rows im) bw bh
             (Z.max (bw - 2) 0) (Z.max (bh - 2) 0)
             (bw * binsize_) (bh * binsize_).

(** The address [s] of the sample the gradient at [(x, y)] is centred on. *)
Definition sample_addr (im : Mat IT) (x y : Z) : Z :=
  Z.min x (cols im - 2) + Z.min y (rows im - 2) * cols im.

(** The centred differences of one channel at [s]: [(dx, dy, v)]
    (lines 166-168). *)
Definition gradient (im : Mat IT) (s : Z) : result (T * T * T) :=
  let w := cols im in
  a <- load (data im) (s + w) ;;
  b <- load (data im) (s - w) ;;
  c <- load (data im) (s + 1) ;;
  d <- load (data im) (s - 1) ;;
  let dy := sdiff a b in
  let dx := sdiff c d in
  Ok (dx, dy, add (mul dx dx) (mul dy dy)).

(** The gradient of the pixel: the first channel, or for a colour image the
    channel with the strongest gradient. *)
Definition pixel_gradient (im : Mat IT) (x y : Z) : result (T * T * T) :=
  let plane := cols im * rows im in
  let s := sample_addr im x y in
  ' (dx, dy, v) <- gradient im s ;;
  if channels im =? 3 then
    ' (dxg, dyg, vg) <- gradient im (s + plane) ;;
    ' (dxr, dyr, vr) <- gradient im (s + plane + plane) ;;
    let '(dx, dy, v) := if ltb v vg then (dxg, dyg, vg) else (dx, dy, v) in
    let '(dx, dy, v) := if ltb v vr then (dxr, dyr, vr) else (dx, dy, v) in
    Ok (dx, dy, v)
  else Ok (dx, dy, v).

(** Snap to one of 18 orientations: the final [best_o] (lines 189-195). *)
Definition snap (dx dy : T) : Z :=
  snd (fold_left
         (fun '(best_dot, best_o) o =>
            let dot := add (mul (nth (Z.to_nat o) uu zero) dx)
                           (mul (nth (Z.to_nat o) vv zero) dy) in
            if ltb best_dot dot then (dot, o)
            else if ltb best_dot (opp dot) then (opp dot, o + 9)
            else (best_dot, best_o))
         (range 0 (norient_ / 2)) (zero, 0)).

(** The (up to four) guarded writes of the pixel [(x, y)]: the histogram
    index and the value stored there, in program order (lines 198-211). *)
Definition contributions (g : Geometry) (x y : Z) (dx dy v : T) : list (Z * T) :=
  let best_o := snap dx dy in
  let yp := sub (div (add (of_int y) (dec 5 1)) (of_int binsize_)) (dec 5 1) in
  let xp := sub (div (add (of_int x) (dec 5 1)) (of_int binsize_)) (dec 5 1) in
  let iyp := floor yp in
  let ixp := floor xp in
  let vy0 := sub yp (of_int iyp) in
  let vx0 := sub xp (of_int ixp) in
  let vy1 := sub one vy0 in
  let vx1 := sub one vx0 in
  let v := sqrt v in
  let bw := blocks_width g in
  let bh := blocks_height g in
  (if (0 <=? iyp) && (0 <=? ixp)
   then [((iyp * bw + ixp) * norient_ + best_o, mul (mul vy1 vx1) v)] else [])
  ++ (if (0 <=? iyp) && (ixp + 1 <? bw)
      then [((iyp * bw + ixp + 1) * norient_ + best_o, mul (mul vx1 vy0) v)] else [])
  ++ (if (iyp + 1 <? bh) && (0 <=? ixp)
      then [(((iyp + 1) * bw + ixp) * norient_ + best_o, mul (mul vy1 vx0) v)] else [])
  ++ (if (iyp + 1 <? bh) && (ixp + 1 <? bw)
      then [(((iyp + 1) * bw + ixp + 1) * norient_ + best_o, mul (mul vy0 vx0) v)] else []).

(** [*(hist + i) = v;] for each write of the list. *)
Fixpoint assign_all (hist : list T) (ws : list (Z * T)) : result (list T) :=
  match ws with
  | [] => Ok hist
  | (i, v) :: ws' => hist' <- store hist i v ;; assign_all hist' ws'
  end.

(** The first pass of [features]: the block histograms (lines 161-213). *)
Definition histogram_pass (im : Mat IT) (g : Geometry) (hist : list T) : result (list T) :=
  for_each (range 1 (vis_height g - 1))
    (fun y hist =>
       for_each (range 1 (vis_width g - 1))
         (fun x hist =>
            ' (dx, dy, v) <- pixel_gradient im x y ;;
            assign_all hist (contributions g x y dx dy v))
         hist)
    hist.

(** The second pass: the energy of each block (lines 216-218). *)
Definition energy_pass (g : Geometry) (hist norm : list T) : result (list T) :=
  for_each (range 0 (blocks_height g * blocks_width g))
    (fun i norm =>
       for_each (range 0 9)
         (fun o norm =>
            n <- load norm i ;;
            a <- load hist (i * norient_ + o) ;;
            b <- load hist (i * norient_ + norient_ / 2 + o) ;;
            store norm i (add n (mul (add a b) (add a b))))
         norm)
    norm.

(** [1.0f / sqrt(S + eps)], [S] the sum of the four energies at [p], [p+1], [p+outsize.width], [p+outsize.width+1]. *)
Definition normalizer (g : Geometry) (norm : list T) (p : Z) : result T :=
  a <- load norm p ;;
  b <- load norm (p + 1) ;;
  c <- load norm (p + out_width g) ;;
  d <- load norm (p + out_width g + 1) ;;
  Ok (div one (sqrt (add (add (add (add a b) c) d) (dec 1 4)))).

(** The four scalars [n1 .. n4] of the output cell [(y, x)] (lines 226-233). *)
Definition normalizers (g : Geometry) (norm : list T) (y x : Z) : result (T * T * T * T) :=
  n1 <- normalizer g norm ((y + 1) * out_width g + (x + 1)) ;;
  n2 <- normalizer g norm (y * out_width g + (x + 1)) ;;
  n3 <- normalizer g norm ((y + 1) * out_width g + x) ;;
  n4 <- normalizer g norm (y * out_width g + x) ;;
  Ok (n1, n2, n3, n4).

(** [0.5 * (h1 + h2 + h3 + h4)] with [hK = min(s * nK, 0.2)]; also the [hK]. *)
Definition truncated (s n1 n2 n3 n4 : T) : T * (T * T * T * T) :=
  let h1 := tmin (mul s n1) (dec 2 1) in
  let h2 := tmin (mul s n2) (dec 2 1) in
  let h3 := tmin (mul s n3) (dec 2 1) in
  let h4 := tmin (mul s n4) (dec 2 1) in
  (mul (dec 5 1) (add (add (add h1 h2) h3) h4), (h1, h2, h3, h4)).

(** The state of the cell's writes: the feature buffer, [dst], [src] and
    the running sums [t1 .. t4]. *)
Definition cell_state : Type := (list T * Z * Z * (T * T * T * T))%type.

Definition sensitive_step (hist : list T) (n : T * T * T * T) (st : cell_state)
  : result cell_state :=
  let '(feat, dst, src, (t1, t2, t3, t4)) := st in
  let '(n1, n2, n3, n4) := n in
  s <- load hist src ;;
  let '(f, (h1, h2, h3, h4)) := truncated s n1 n2 n3 n4 in
  feat' <- store feat dst f ;;
  Ok (feat', dst + 1, src + 1, (add t1 h1, add t2 h2, add t3 h3, add t4 h4)).

Definition insensitive_step (hist : list T) (n : T * T * T * T) (st : cell_state)
  : result cell_state :=
  let '(feat, dst, src, t) := st in
  let '(n1, n2, n3, n4) := n in
  a <- load hist src ;;
  b <- load hist (src + norient_ / 2) ;;
  let '(f, _) := truncated (add a b) n1 n2 n3 n4 in
  feat' <- store feat dst f ;;
  Ok (feat', dst + 1, src + 1, t).

(** The body of the third pass for the output cell [(y, x)] (lines 223-271). *)
Definition cell (g : Geometry) (hist norm : list T) (y x : Z) (feat : list T)
  : result (list T) :=
  let dst := (y * out_width g + x) * flen_ in
  n <- normalizers g norm y x ;;
  let src := ((y + 1) * blocks_width g + (x + 1)) * norient_ in
  st <- for_each (range 0 norient_) (fun _ => sensitive_step hist n)
          (feat, dst, src, (zero, zero, zero, zero)) ;;
  let '(feat, dst, _, t) := st in
  st <- for_each (range 0 (norient_ / 2)) (fun _ => insensitive_step hist n)
          (feat, dst, src, t) ;;
  let '(feat, dst, _, (t1, t2, t3, t4)) := st in
  feat <- store feat dst (mul (dec 2357 4) t1) ;;
  feat <- store feat (dst + 1) (mul (dec 2357 4) t2) ;;
  feat <- store feat (dst + 2) (mul (dec 2357 4) t3) ;;
  feat <- store feat (dst + 3) (mul (dec 2357 4) t4) ;;
  store feat (dst + 4) zero.

(** The third pass: the features of every output cell (lines 221-273). *)
Definition feature_pass (g : Geometry) (hist norm feat : list T) : result (list T) :=
  for_each (range 0 (out_height g))
    (fun y feat =>
       for_each (range 0 (out_width g)) (fun x feat => cell g hist norm y x feat) feat)
    feat.

(** [DataType<T>::type]; the feature map is a one-channel matrix of [T]. *)
Variable T_depth : Depth.

(** [HOGFeatures<T>::features<IT>] (lines 131-274). *)
Definition features (im : Mat IT) : result (Mat T) :=
  let g := geometry im in
  let histm := zeros zero (blocks_width g * norient_) (blocks_height g) T_depth in
  let normm := zeros zero (blocks_width g) (blocks_height g) T_depth in
  let featm := zeros zero (out_width g * flen_) (out_height g) T_depth in
  hist <- histogram_pass im g (data histm) ;;
  norm <- energy_pass g hist (data normm) ;;
  feat <- feature_pass g hist norm (data featm) ;;
  Ok (mkMat (rows featm) (cols featm) (channels featm) (depth featm) feat).

End Extractor.

(** Source images of integer samples ([uint8_t], [uint16_t]): the difference
    of two samples is taken in [int] and converted to [T]. *)
Definition int_diff {T} `{Real T} (a b : Z) : T := of_int (a - b).

(** ** The pyramid builder: [HOGFeatures<T>::pyramid] *)

(** [cv::copyMakeBorder(src, dst, top, bottom, left, right, BORDER_CONSTANT,
    value)], OpenCV's constant-border padder: [dst] is [src] surrounded by
    [top], [bottom] rows and [left], [right] columns of [value]. *)
Definition copyMakeBorder {A} (src : Mat A) (top bottom left right : Z) (value : A) : Mat A :=
  let R := rows src + top + bottom in
  let C := cols src + left + right in
  mkMat R C (channels src) (depth src)
    (map (fun k =>
            let i := k / C in
            let j := k mod C in
            if (top <=? i) && (i <? top + rows src) && (left <=? j) && (j <? left + cols src)
            then at_ value src (i - top) (j - left)
            else value)
         (range 0 (R * C))).

Section Pyramid.
Context {T : Type} `{Real T}.
Variable IT : Type.
Variable sdiff : IT -> IT -> T.
Variable T_depth : Depth.

(** The Image Resampler (OpenCV).  [resize im i interval] stands for
    [resize(im, scaled, imsize * (1.0f/pow(sc,i)))] with
    [sc = pow(2.0, 1.0/interval)]: the image resampled by [2^(-i/interval)];
    [pyrDown] is the smoothed 2x downsample. *)
Variable resize : Mat IT -> Z -> Z -> Mat IT.
Variable pyrDown : Mat IT -> Mat IT.

Variable binsize_ : Z.
Variable nscales_ : Z.

(** [ceil((float)nscales_ / 3.0)] for [nscales_ >= 0]. *)
Definition interval : Z := (nscales_ + 2) / 3.

(** The first loop: the image of every level (lines 85-95). *)
Definition pyramid_images (im : Mat IT) : result (list (Mat IT)) :=
  for_each (range 0 interval)
    (fun i pyraimages =>
       let scaled := resize im i interval in
       let pyraimages := upd pyraimages (Z.to_nat i) scaled in
       js <- strided (i + interval) nscales_ interval ;;
       for_each js
         (fun j pyraimages => Ok (upd pyraimages (Z.to_nat j) (pyrDown scaled)))
         pyraimages)
    (repeat emptyMat (Z.to_nat nscales_)).

(** The [switch (im.depth())] of the second loop (lines 104-110).  Each supported case calls
    [features<IT>] at the element type of that depth; the buffer is given
    here as that instance reads it, so one [features] stands for the four. *)
Definition extract (im level : Mat IT) : result (Mat T) :=
  match depth im with
  | CV_32F | CV_64F | CV_8U | CV_16U => features IT sdiff binsize_ T_depth level
  | _ => Err UnsupportedFormat
  end.

(** [HOGFeatures<T>::pyramid] (lines 66-114): the new [pyrafeatures] and the
    member [scales_]. *)
Definition pyramid (im : Mat IT) : result (list (Mat T) * list T) :=
  if nscales_ <? 0 then Err BadSize
  else
    let scales := repeat zero (Z.to_nat nscales_) in
    pyraimages <- pyramid_images im ;;
    pyrafeatures <-
      for_each (range 0 nscales_)
        (fun n pyrafeatures =>
           feature <- extract im (nth (Z.to_nat n) pyraimages emptyMat) ;;
           let padded := copyMakeBorder feature 1 1 flen_ flen_ one in
           Ok (upd pyrafeatures (Z.to_nat n) padded))
        (repeat emptyMat (Z.to_nat nscales_)) ;;
    Ok (pyrafeatures, scales).

End Pyramid.

(** ** The properties of the specification, in its own words *)

(** The supported element types of a source image. *)
Definition supported (d : Depth) : bool :=
  match d with
  | CV_8U | CV_16U | CV_32F | CV_64F => true
  | _ => false
  end.

Section Specification.
Context {T : Type} `{Real T}.

(** The inner product of the first [k] filter rows against the window of the
    feature map whose top-left element is row [m], column [n]: filter row
    [h] against feature row [m + h] from column [n], for [h] in [0, k). *)
Definition leading_rows_product (feature filter : Mat T) (m n k : Z) : T :=
  fold_left
    (fun acc h =>
       fold_left
         (fun acc w =>
            add acc (mul (at_ zero filter h w) (at_ zero feature (m + h) (n + w))))
         (range 0 (cols filter)) acc)
    (range 0 k) zero.

(** The full inner product: every filter row [h] in [0, filterRows). *)
Definition inner_product (feature filter : Mat T) (m n : Z) : T :=
  leading_rows_product feature filter m n (rows filter).

(** [*(hist + i) += v;] for each write of the list. *)
Fixpoint accumulate_all (hist : list T) (ws : list (Z * T)) : result (list T) :=
  match ws with
  | [] => Ok hist
  | (i, v) :: ws' =>
      old <- load hist i ;;
      hist' <- store hist i (add old v) ;;
      accumulate_all hist' ws'
  end.

(** The histogram in which every weighted contribution is added to its cell. *)
Definition histogram_accumulated (IT : Type) (sdiff : IT -> IT -> T) (binsize_ : Z)
    (im : Mat IT) (g : Geometry) (hist : list T) : result (list T) :=
  for_each (range 1 (vis_height g - 1))
    (fun y hist =>
       for_each (range 1 (vis_width g - 1))
         (fun x hist =>
            ' (dx, dy, v) <- pixel_gradient IT sdiff im x y ;;
            accumulate_all hist (contributions binsize_ g x y dx dy v))
         hist)
    hist.

(** [1/sqrt(S + eps)] for the 2x2 neighbourhood of the block-energy grid whose
    top-left block is [(r, c)]; the grid has [blocks_width] blocks per row. *)
Definition neighbourhood_normalizer (g : Geometry) (norm : list T) (r c : Z) : result T :=
  let bw := blocks_width g in
  a <- load norm (r * bw + c) ;;
  b <- load norm (r * bw + c + 1) ;;
  c' <- load norm ((r + 1) * bw + c) ;;
  d <- load norm ((r + 1) * bw + c + 1) ;;
  Ok (div one (sqrt (add (add (add (add a b) c') d) (dec 1 4)))).

(** A sequence is strictly decreasing. *)
Fixpoint strictly_decreasing (l : list T) : bool :=
  match l with
  | a :: (b :: _) as l' => ltb b a && strictly_decreasing l'
  | _ => true
  end.

End Specification.

(** ** Closed forms of what the loops compute *)

Section ClosedForms.
Context {T : Type} `{Real T}.

(** The responses in the order the loops produce them: row [m] outermost,
    column offset [n = j * stride] innermost. *)
Definition responses_in_order (feature filter : Mat T) (stride : Z) : list T :=
  flat_map
    (fun m =>
       map (fun j => leading_rows_product feature filter m (j * stride) (rows filter - 1))
           (range 0 ((cols feature - cols filter) / stride + 1)))
    (range 0 (rows feature - rows filter + 1)).

(** The energy of block [i]: the squared sums of the 9 pairs of opposite
    orientations of its histogram, added in loop order to [start]. *)
Definition block_energy (hist : list T) (i : Z) (start : T) : T :=
  fold_left
    (fun acc o =>
       let a := nth (Z.to_nat (i * norient_ + o)) hist zero in
       let b := nth (Z.to_nat (i * norient_ + norient_ / 2 + o)) hist zero in
       add acc (mul (add a b) (add a b)))
    (range 0 9) start.

(** The running sums [t1 .. t4] of a cell after one more
    contrast-sensitive value [s]. *)
Definition add_truncated (n t : T * T * T * T) (s : T) : T * T * T * T :=
  let '(n1, n2, n3, n4) := n in
  let '(t1, t2, t3, t4) := t in
  let '(_, (h1, h2, h3, h4)) := truncated s n1 n2 n3 n4 in
  (add t1 h1, add t2 h2, add t3 h3, add t4 h4).

(** [t1 .. t4] after the first [k] contrast-sensitive values of the block
    whose histogram starts at [src]. *)
Definition cell_sums (hist : list T) (n : T * T * T * T) (src k : Z) : T * T * T * T :=
  fold_left (fun t o => add_truncated n t (nth (Z.to_nat (src + o)) hist zero))
            (range 0 k) (zero, zero, zero, zero).

(** The [flen_] values of one output cell: 18 contrast-sensitive features,
    9 contrast-insensitive features, 4 texture features and the truncation
    feature. *)
Definition cell_values (hist : list T) (n : T * T * T * T) (src : Z) : list T :=
  let '(n1, n2, n3, n4) := n in
  let '(t1, t2, t3, t4) := cell_sums hist n src norient_ in
  map (fun o => fst (truncated (nth (Z.to_nat (src + o)) hist zero) n1 n2 n3 n4))
      (range 0 norient_)
  ++ map (fun o => fst (truncated (add (nth (Z.to_nat (src + o)) hist zero)
                                       (nth (Z.to_nat (src + norient_ / 2 + o)) hist zero))
                                  n1 n2 n3 n4))
         (range 0 (norient_ / 2))
  ++ [mul (dec 2357 4) t1; mul (dec 2357 4) t2; mul (dec 2357 4) t3; mul (dec 2357 4) t4; zero].

End ClosedForms.

(** The image of pyramid level [n]: the resampled image in the first
    [interval] levels, the smoothed downsample of the resampled image of
    level [n mod interval] in every later one. *)
Definition level_image {IT} (resize : Mat IT -> Z -> Z -> Mat IT) (pyrDown : Mat IT -> Mat IT)
    (nscales_ : Z) (im : Mat IT) (n : Z) : Mat IT :=
  if n <? interval nscales_ then resize im n (interval nscales_)
  else pyrDown (resize im (n mod interval nscales_) (interval nscales_)).

(** ** Concrete inputs *)

(** An 8-bit grey image given by its pixel function. *)
Definition image8 (w h : Z) (px : Z -> Z -> Z) : Mat Z :=
  mkMat h w 1 CV_8U (flat_map (fun y => map (fun x => px x y) (range 0 w)) (range 0 h)).

(** A black image with one white pixel at [(16, 16)]. *)
Definition spot : Mat Z := image8 24 24 (fun x y => if (x =? 16) && (y =? 16) then 255 else 0).

(** A uniform grey image. *)
Definition flat (w h : Z) : Mat Z := image8 w h (fun _ _ => 128).

(** A 2x2 image, and a 1x1 image of signed 8-bit samples. *)
Definition tiny : Mat Z := image8 2 2 (fun _ _ => 0).
Definition signed8 : Mat Z := mkMat 1 1 1 CV_8S [0].

(** The block histogram and the block energies before the passes, all zero. *)
Definition hist0 (g : Geometry) : list float :=
  repeat 0%float (Z.to_nat (blocks_width g * norient_ * blocks_height g)).
Definition norm0 (g : Geometry) : list float :=
  repeat 0%float (Z.to_nat (blocks_width g * blocks_height g)).

(** A 4x4 image whose rows are [0 1 2 3]. *)
Definition ramp : Mat Z := image8 4 4 (fun x _ => x).

(** The resampler where the factor is [2^0 = 1] (the first level), and a
    downsampler for pyramids that request none ([nscales_ <= 1]). *)
Definition resize_same {A} (im : Mat A) (i interval : Z) : Mat A := im.
Definition pyrDown_none {A} (im : Mat A) : Mat A := emptyMat.

(** The extractor and the pyramid of [HOGFeatures<double>] on integer samples. *)
Definition features_double (binsize_ : Z) (im : Mat Z) : result (Mat float) :=
  features Z int_diff binsize_ CV_64F im.

Definition pyramid_double (binsize_ nscales_ : Z) (im : Mat Z)
  : result (list (Mat float) * list float) :=
  pyramid Z int_diff CV_64F resize_same pyrDown_none binsize_ nscales_ im.

Definition matrix_double (r c : Z) (l : list float) : Mat float := mkMat r c 1 CV_64F l.

(** Inputs of the response engine: a feature map of [r] rows of all-one
    cells, and filters whose rows are constant. *)
Definition ones_map (r c : Z) : Mat float :=
  matrix_double r c (repeat 1%float (Z.to_nat (r * c))).
Definition filter_1_2 : Mat float :=
  matrix_double 2 32 (repeat 1%float 32 ++ repeat 2%float 32).

(** The cells of a response map that were written. *)
Definition written {A} (m : Mat (option A)) : list A :=
  flat_map (fun c => match c with Some v => [v] | None => [] end) (data m).

(** ** Predicates of the proofs *)

(** The errors of a memory access or of loop control; never an assertion or
    an unsupported format. *)
Definition fault (e : error) : Prop :=
  match e with
  | OutOfBounds _ | Unbounded | BadSize | DivideByZero => True
  | UnsupportedFormat | AssertDepth | AssertStride => False
  end.

(** A well-formed image on which the centred differences can be taken. *)
Definition gradient_ready {IT} (im : Mat IT) : Prop :=
  3 <= rows im /\ 3 <= cols im /\ 1 <= channels im /\
  Z.of_nat (length (data im)) = rows im * cols im * channels im.

(** The bounds shared by the accesses of the output cell [(y, x)]. *)
Record cell_ready (g : Geometry) (hist norm feat : list R) (y x : Z) : Prop := {
  ready_width : blocks_width g = out_width g + 2;
  ready_height : blocks_height g = out_height g + 2;
  ready_y : 0 <= y < out_height g;
  ready_x : 0 <= x < out_width g;
  ready_hist : Z.of_nat (length hist) = blocks_width g * norient_ * blocks_height g;
  ready_norm : Z.of_nat (length norm) = blocks_width g * blocks_height g;
  ready_feat : Z.of_nat (length feat) = out_width g * flen_ * out_height g
}.

(** Every slot of the feature buffer that holds a contrast-sensitive or a
    contrast-insensitive value (the first 27 of each cell's [flen_]) lies in
    [[0, 0.4]]. *)
Definition slots_in_range (feat : list R) : Prop :=
  forall i : Z, 0 <= i -> i mod flen_ < 27 -> (0 <= nth (Z.to_nat i) feat 0 <= 4 / 10)%R.

(** The buffer [f] is [feat] with the [K] values [val 0 .. val (K - 1)]
    written from index [dst] on. *)
Definition written_from {T} `{Real T} (val : Z -> T) (feat : list T) (dst K : Z) (f : list T)
  : Prop :=
  length f = length feat /\
  (0 < K -> 0 <= dst) /\
  (forall e, 0 <= e < K -> nth (Z.to_nat (dst + e)) f zero = val e) /\
  (forall j, 0 <= j -> ~ (dst <= j < dst + K) ->
     nth (Z.to_nat j) f zero = nth (Z.to_nat j) feat zero).

(** The output cell [(y, x)] of the feature buffer [f] holds the values of
    its block, scaled by the normalizers the third pass reads for it. *)
Definition cell_holds {T} `{Real T} (g : Geometry) (hist norm f : list T) (y x : Z) : Prop :=
  exists n,
    normalizers g norm y x = Ok n /\
    forall e, 0 <= e < flen_ ->
      nth (Z.to_nat ((y * out_width g + x) * flen_ + e)) f zero
      = nth (Z.to_nat e)
          (cell_values hist n (((y + 1) * blocks_width g + (x + 1)) * norient_)) zero.

(** Unfold the operations of [T] at the real numbers, and nothing else. *)
Ltac exact_ops :=
  cbn [zero one add sub mul div opp sqrt ltb floor of_int RealExact] in *.

(** ** Reasoning about loops and errors *)

Lemma bind_ok {A B} (r : result A) (k : A -> result B) (b : B) :
  bind r k = Ok b -> exists a, r = Ok a /\ k a = Ok b.
Proof. destruct r; simpl; intros E; [eauto | discriminate]. Qed.

Lemma bind_err {A B} (r : result A) (k : A -> result B) (e : error) :
  bind r k = Err e -> r = Err e \/ exists a, r = Ok a /\ k a = Err e.
Proof. destruct r; simpl; intros E; [right; eauto | left; congruence]. Qed.

Lemma for_each_err {S} (l : list Z) (body : Z -> S -> result S) (s : S) (e : error) :
  for_each l body s = Err e -> exists k s', In k l /\ body k s' = Err e.
Proof.
  revert s; induction l as [|k l IH]; simpl; intros s E; [discriminate|].
  destruct (body k s) as [s'|e'] eqn:B.
  - destruct (IH _ E) as (k' & s'' & I & B'). exists k', s''. auto.
  - injection E as ->. exists k, s. auto.
Qed.

Lemma for_each_inv {S} (P : S -> Prop) (l : list Z) (body : Z -> S -> result S) :
  (forall k s s', In k l -> P s -> body k s = Ok s' -> P s') ->
  forall s s', P s -> for_each l body s = Ok s' -> P s'.
Proof.
  induction l as [|k l IH]; simpl; intros Hb s s' Hs E.
  - injection E as <-. exact Hs.
  - destruct (body k s) as [s1|] eqn:B; [|discriminate].
    apply (IH (fun k' a b I => Hb k' a b (or_intror I)) s1 s'); [|exact E].
    apply (Hb k s s1); auto.
Qed.

Lemma for_each_total {S} (P : S -> Prop) (l : list Z) (body : Z -> S -> result S) :
  (forall k s, In k l -> P s -> exists s', body k s = Ok s' /\ P s') ->
  forall s, P s -> exists s', for_each l body s = Ok s' /\ P s'.
Proof.
  induction l as [|k l IH]; simpl; intros Hb s Hs.
  - eauto.
  - destruct (Hb k s (or_introl eq_refl) Hs) as (s1 & -> & H1).
    apply IH; [|exact H1]. intros k' a I. apply Hb. auto.
Qed.

Lemma in_range (lo hi k : Z) : In k (range lo hi) <-> lo <= k < hi.
Proof.
  unfold range. rewrite in_map_iff. split.
  - intros (n & <- & I). apply in_seq in I. lia.
  - intros Hk. exists (Z.to_nat (k - lo)). split; [lia|]. apply in_seq. lia.
Qed.

Lemma load_err {A} (buf : list A) (i : Z) (e : error) : load buf i = Err e -> fault e.
Proof.
  unfold load. destruct (i <? 0); [intros [= <-]; exact I|].
  destruct (nth_error buf (Z.to_nat i)); [discriminate | intros [= <-]; exact I].
Qed.

Lemma store_err {A} (buf : list A) (i : Z) (v : A) (e : error) :
  store buf i v = Err e -> fault e.
Proof.
  unfold store. destruct (_ && _); [discriminate | intros [= <-]; exact I].
Qed.

Lemma strided_err (lo hi step : Z) (e : error) : strided lo hi step = Err e -> fault e.
Proof.
  unfold strided. destruct (hi <=? lo); [discriminate|].
  destruct (step <=? 0); [intros [= <-]; exact I | discriminate].
Qed.

(** ** Lists as buffers *)

Lemma range_nil (lo hi : Z) : hi <= lo -> range lo hi = [].
Proof. intros L. unfold range. replace (Z.to_nat (hi - lo)) with 0%nat by lia. reflexivity. Qed.

Lemma range_cons (lo hi : Z) : lo < hi -> range lo hi = lo :: range (lo + 1) hi.
Proof.
  intros L. unfold range.
  replace (Z.to_nat (hi - lo)) with (S (Z.to_nat (hi - (lo + 1)))) by lia.
  simpl. f_equal; [lia|].
  rewrite <- seq_shift, map_map. apply map_ext. intros k. lia.
Qed.

Lemma length_range (lo hi : Z) : length (range lo hi) = Z.to_nat (hi - lo).
Proof. unfold range. rewrite length_map, length_seq. reflexivity. Qed.

Lemma nth_map_range {A} (f : Z -> A) (n k : Z) (d : A) :
  0 <= k < n -> nth (Z.to_nat k) (map f (range 0 n)) d = f k.
Proof.
  intros Hk. unfold range. rewrite map_map.
  rewrite (nth_indep _ d (f (0 + Z.of_nat 0))) by (rewrite length_map, length_seq; lia).
  rewrite (map_nth (fun x => f (0 + Z.of_nat x)) (seq 0 (Z.to_nat (n - 0))) 0%nat).
  rewrite seq_nth by lia. f_equal. lia.
Qed.

Lemma length_upd {A} (l : list A) (n : nat) (v : A) : length (upd l n v) = length l.
Proof. revert n; induction l as [|a l IH]; intros [|n]; simpl; auto. Qed.

Lemma nth_upd_same {A} (l : list A) (n : nat) (v d : A) :
  (n < length l)%nat -> nth n (upd l n v) d = v.
Proof.
  revert n; induction l as [|a l IH]; intros [|n]; simpl; intros L; try lia; auto.
  apply IH. lia.
Qed.

Lemma nth_upd_other {A} (l : list A) (n k : nat) (v d : A) :
  n <> k -> nth k (upd l n v) d = nth k l d.
Proof.
  revert n k; induction l as [|a l IH]; intros [|n] [|k]; simpl; intros N; auto; try lia.
Qed.

Lemma store_ok {A} (buf buf' : list A) (i : Z) (v : A) :
  store buf i v = Ok buf' ->
  0 <= i < Z.of_nat (length buf) /\ buf' = upd buf (Z.to_nat i) v.
Proof.
  unfold store. destruct (0 <=? i) eqn:A1; destruct (i <? Z.of_nat (length buf)) eqn:A2;
    simpl; try discriminate.
  intros [= <-]. split; [lia | reflexivity].
Qed.

Lemma store_total {A} (buf : list A) (i : Z) (v : A) :
  0 <= i < Z.of_nat (length buf) -> store buf i v = Ok (upd buf (Z.to_nat i) v).
Proof.
  intros Hi. unfold store.
  replace (0 <=? i) with true by (symmetry; apply Z.leb_le; lia).
  replace (i <? Z.of_nat (length buf)) with true by (symmetry; apply Z.ltb_lt; lia).
  reflexivity.
Qed.

Lemma load_ok {A} (buf : list A) (i : Z) (v d : A) :
  load buf i = Ok v ->
  0 <= i < Z.of_nat (length buf) /\ nth (Z.to_nat i) buf d = v.
Proof.
  unfold load. destruct (i <? 0) eqn:L; [discriminate|].
  destruct (nth_error buf (Z.to_nat i)) as [a|] eqn:N; [|discriminate].
  intros [= <-]. split.
  - assert (Z.to_nat i < length buf)%nat by (apply nth_error_Some; congruence). lia.
  - apply nth_error_nth. exact N.
Qed.

Lemma load_total {A} (buf : list A) (i : Z) (d : A) :
  0 <= i < Z.of_nat (length buf) -> load buf i = Ok (nth (Z.to_nat i) buf d).
Proof.
  intros Hi. unfold load.
  replace (i <? 0) with false by (symmetry; apply Z.ltb_ge; lia).
  destruct (nth_error buf (Z.to_nat i)) as [a|] eqn:N.
  - f_equal. symmetry. apply nth_error_nth. exact N.
  - apply nth_error_None in N. lia.
Qed.

(** A loop that fills slot [k] of a vector at turn [k]. *)
Lemma for_each_fill {A B} (f : Z -> result B) (g : B -> A) (d : A) (hi : Z) :
  forall (lo : Z) (init res : list A),
    0 <= lo ->
    hi <= Z.of_nat (length init) ->
    for_each (range lo hi) (fun k acc => v <- f k ;; Ok (upd acc (Z.to_nat k) (g v))) init
      = Ok res ->
    length res = length init /\
    (forall k, lo <= k < hi -> exists v, f k = Ok v /\ nth (Z.to_nat k) res d = g v) /\
    (forall k, 0 <= k < lo -> nth (Z.to_nat k) res d = nth (Z.to_nat k) init d).
Proof.
  intros lo. remember (Z.to_nat (hi - lo)) as n eqn:En.
  revert lo En. induction n as [|n IH]; intros lo En init res L0 Lh E.
  - rewrite range_nil in E by lia. injection E as <-.
    split; [reflexivity|]. split; [intros; lia | reflexivity].
  - rewrite range_cons in E by lia. simpl in E.
    destruct (f lo) as [v|] eqn:F; [|discriminate]. simpl in E.
    apply IH in E; [|lia|lia|rewrite length_upd; lia].
    destruct E as (E1 & E2 & E3). rewrite length_upd in E1.
    split; [exact E1|]. split.
    + intros k Hk. destruct (Z.eq_dec k lo) as [->|Nk].
      * exists v. split; [exact F|]. rewrite E3 by lia. apply nth_upd_same. lia.
      * apply E2. lia.
    + intros k Hk. rewrite E3 by lia. apply nth_upd_other. lia.
Qed.

(** ** Loops whose invariant follows the counter *)

Lemma for_each_range_inv {S} (P : Z -> S -> Prop) (body : Z -> S -> result S) (hi : Z) :
  forall (lo : Z) (s s' : S),
    lo <= hi ->
    (forall k a b, lo <= k < hi -> P k a -> body k a = Ok b -> P (k + 1) b) ->
    P lo s -> for_each (range lo hi) body s = Ok s' -> P hi s'.
Proof.
  intros lo. remember (Z.to_nat (hi - lo)) as n eqn:En.
  revert lo En. induction n as [|n IH]; intros lo En s s' L Hb Hs E.
  - rewrite range_nil in E by lia. injection E as <-.
    replace hi with lo by lia. exact Hs.
  - rewrite range_cons in E by lia. simpl in E.
    destruct (body lo s) as [s1|] eqn:B; [|discriminate].
    apply (IH (lo + 1)) with (s := s1); [lia | lia | | | exact E].
    + intros k a b Hk. apply Hb. lia.
    + apply (Hb lo s s1); [lia | exact Hs | exact B].
Qed.

Lemma for_each_range_total {S} (P : Z -> S -> Prop) (body : Z -> S -> result S) (hi : Z) :
  forall (lo : Z) (s : S),
    lo <= hi ->
    (forall k a, lo <= k < hi -> P k a -> exists b, body k a = Ok b /\ P (k + 1) b) ->
    P lo s -> exists s', for_each (range lo hi) body s = Ok s' /\ P hi s'.
Proof.
  intros lo. remember (Z.to_nat (hi - lo)) as n eqn:En.
  revert lo En. induction n as [|n IH]; intros lo En s L Hb Hs.
  - rewrite range_nil by lia. exists s. split; [reflexivity|].
    replace hi with lo by lia. exact Hs.
  - rewrite range_cons by lia. simpl.
    destruct (Hb lo s) as (s1 & -> & H1); [lia | exact Hs |].
    apply (IH (lo + 1)); [lia | lia | | exact H1].
    intros k a Hk. apply Hb. lia.
Qed.

(** ** The response engine *)

Section ConvolveFacts.
Context {T : Type} `{Real T}.

Lemma mac_err (feat filt : list T) (k : nat) (st : T * Z * Z) (e : error) :
  mac feat filt k st = Err e -> fault e.
Proof.
  revert st; induction k as [|k IH]; intros [[accum fp] gp]; simpl; [discriminate|].
  intros E. apply bind_err in E as [E | (a & _ & E)]; [exact (load_err _ _ _ E)|].
  apply bind_err in E as [E | (b & _ & E)]; [exact (load_err _ _ _ E)|].
  exact (IH _ E).
Qed.

Lemma convolve_at_err (feature filter : Mat T) (m n : Z) (e : error) :
  convolve_at feature filter m n = Err e -> fault e.
Proof.
  unfold convolve_at. intros E.
  apply bind_err in E as [E | ([[accum fp] gp] & _ & E)]; [|discriminate].
  apply for_each_err in E as (h & [[a fp] gp] & _ & E).
  unfold convolve_row in E.
  apply bind_err in E as [E | ([[a' fp'] gp'] & _ & E)]; [|discriminate].
  exact (mac_err _ _ _ _ _ E).
Qed.

(** Once both assertions hold, whatever stops [convolve] is a fault of
    memory or loop control. *)
Lemma convolve_loops_err (feature filter : Mat T) (stride : Z) (pdf0 : Mat (option T))
    (st : list (option T) * Z) (e : error) :
  for_each (range 0 (rows feature - rows filter + 1))
    (fun m st =>
       ns <- strided 0 (cols feature - cols filter + stride) stride ;;
       for_each ns
         (fun n '(buf, pdf_ptr) =>
            accum <- convolve_at feature filter m n ;;
            buf' <- store buf pdf_ptr (Some accum) ;;
            Ok (buf', pdf_ptr + 1))
         st) st = Err e ->
  fault e.
Proof.
  intros E. apply for_each_err in E as (m & st' & _ & E).
  apply bind_err in E as [E | (ns & _ & E)]; [exact (strided_err _ _ _ _ E)|].
  apply for_each_err in E as (n & [buf ptr] & _ & E).
  apply bind_err in E as [E | (accum & _ & E)]; [exact (convolve_at_err _ _ _ _ _ E)|].
  apply bind_err in E as [E | (buf' & _ & E)]; [exact (store_err _ _ _ _ E) | discriminate].
Qed.

(** A filter of one row: the [h] loop runs once, with an empty [while]. *)
Lemma convolve_at_single_row (feature filter : Mat T) (m n : Z) :
  rows filter = 1 -> convolve_at feature filter m n = Ok zero.
Proof.
  intros E. unfold convolve_at. rewrite E. reflexivity.
Qed.

(** X2: whenever [convolve] produces a response map, the map has
    [featureCols - filterCols + stride] rows and
    [featureRows - filterRows + 1] columns. *)
Theorem convolve_shape (feature filter : Mat T) (stride : Z) (pdf : Mat (option T)) :
  convolve feature filter stride = Ok pdf ->
  rows pdf = cols feature - cols filter + stride /\
  cols pdf = rows feature - rows filter + 1.
Proof.
  unfold convolve.
  destruct (negb _); [discriminate|].
  destruct (stride =? 0); [discriminate|].
  destruct (negb _); [discriminate|].
  intros E. apply bind_ok in E as (pdf0 & C & E).
  apply bind_ok in E as ([buf ptr] & _ & E). injection E as <-. simpl.
  unfold create in C. destruct (_ || _); [discriminate|]. injection C as <-. auto.
Qed.

(** C8: [convolve] stops at the stride assertion whenever the column count
    of the feature map or of the filter is not a multiple of [stride] (at
    the depth assertion before it when the element depths differ too), so
    no response is produced; and when both column counts are multiples of
    [stride] the stride assertion is never what stops it. *)
Theorem convolve_stride_assertion (feature filter : Mat T) (stride : Z) :
  stride <> 0 ->
  (Z.rem (cols feature) stride <> 0 \/ Z.rem (cols filter) stride <> 0 ->
   (depth feature = depth filter -> convolve feature filter stride = Err AssertStride) /\
   (convolve feature filter stride = Err AssertStride \/
    convolve feature filter stride = Err AssertDepth)) /\
  (Z.rem (cols feature) stride = 0 -> Z.rem (cols filter) stride = 0 ->
   convolve feature filter stride <> Err AssertStride).
Proof.
  intros Hs. split.
  - intros Hm.
    assert (A : (Z.rem (cols feature) stride =? 0) && (Z.rem (cols filter) stride =? 0) = false).
    { apply andb_false_iff. destruct Hm as [Hm|Hm]; [left|right]; apply Z.eqb_neq; exact Hm. }
    unfold convolve. apply Z.eqb_neq in Hs. rewrite Hs, A. simpl.
    split.
    + intros ->. destruct (depth filter); reflexivity.
    + destruct (depth_eqb _ _); simpl; auto.
  - intros H1 H2 E. unfold convolve in E.
    destruct (negb _); [discriminate|].
    destruct (stride =? 0); [discriminate|].
    rewrite H1, H2 in E. simpl in E.
    apply bind_err in E as [E | (pdf0 & _ & E)].
    + unfold create in E. destruct (_ || _); discriminate.
    + apply bind_err in E as [E | ([buf ptr] & _ & E)]; [|discriminate].
      exact (convolve_loops_err _ _ _ pdf0 _ _ E).
Qed.

End ConvolveFacts.

Lemma convolve_stride_assertion_witness :
  32 <> 0 /\
  convolve (ones_map 2 40) (ones_map 1 32) 32 = Err AssertStride /\
  convolve (ones_map 2 64) (ones_map 1 32) 32 <> Err AssertStride.
Proof.
  assert (N : 32 <> 0) by lia.
  split; [exact N|]. split.
  - apply (convolve_stride_assertion (ones_map 2 40) (ones_map 1 32) 32 N).
    + left. vm_compute. discriminate.
    + reflexivity.
  - apply (convolve_stride_assertion (ones_map 2 64) (ones_map 1 32) 32 N); reflexivity.
Defined.

Lemma convolve_shape_witness :
  exists pdf,
    convolve (ones_map 3 64) (ones_map 1 32) 32 = Ok pdf /\
    rows pdf = 64 - 32 + 32 /\ cols pdf = 3 - 1 + 1.
Proof.
  assert (E : exists pdf, convolve (ones_map 3 64) (ones_map 1 32) 32 = Ok pdf)
    by (eexists; vm_compute; reflexivity).
  destruct E as (pdf & E). exists pdf. split; [exact E|].
  exact (convolve_shape (ones_map 3 64) (ones_map 1 32) 32 pdf E).
Defined.

(** C5 (the code at the failing input): for a feature map of 3 rows by 2*32
    columns and a filter of 1 row by 32 columns, the response map is created
    with 64 rows and 3 columns, 192 cells of which the loops write 6. *)
Theorem convolve_shape_failing_input :
  exists pdf,
    convolve (ones_map 3 64) (ones_map 1 32) flen_ = Ok pdf /\
    rows pdf = 64 /\ cols pdf = 3 /\
    length (data pdf) = 192%nat /\ length (written pdf) = 6%nat.
Proof.
  eexists. split; [vm_compute; reflexivity|]. repeat split.
Qed.

(** C1 (the code at the failing input): for a feature map of 2 rows of ones
    and a filter whose rows are all 1 and all 2, the one response written is
    32, the product with the first filter row alone; the full inner product
    of the claim is 96. *)
Theorem convolve_drops_last_filter_row :
  exists pdf,
    convolve (ones_map 2 32) filter_1_2 flen_ = Ok pdf /\
    written pdf = [32%float] /\
    inner_product (ones_map 2 32) filter_1_2 0 0 = 96%float.
Proof.
  eexists. split; [vm_compute; reflexivity|]. split; vm_compute; reflexivity.
Qed.

(** ** What [convolve] computes at every position *)

Section ConvolveValue.
Context {T : Type} `{Real T}.

Lemma range_snoc (lo hi : Z) : lo <= hi -> range lo (hi + 1) = range lo hi ++ [hi].
Proof.
  intros L. unfold range.
  replace (Z.to_nat (hi + 1 - lo)) with (Z.to_nat (hi - lo) + 1)%nat by lia.
  rewrite seq_app, map_app. simpl. do 2 f_equal. lia.
Qed.

Lemma range_succ (lo hi : Z) : range (lo + 1) (hi + 1) = map Z.succ (range lo hi).
Proof.
  unfold range. rewrite map_map.
  replace (Z.to_nat (hi + 1 - (lo + 1))) with (Z.to_nat (hi - lo)) by lia.
  apply map_ext. intros a. lia.
Qed.

Lemma fold_left_map_arg {A B C} (f : A -> B -> A) (g : C -> B) (l : list C) (a : A) :
  fold_left f (map g l) a = fold_left (fun a x => f a (g x)) l a.
Proof. revert a. induction l as [|x l IH]; intros a; simpl; auto. Qed.

Lemma fold_left_same {A B} (f g : A -> B -> A) (l : list B) (a : A) :
  (forall a x, f a x = g a x) -> fold_left f l a = fold_left g l a.
Proof.
  intros E. revert a. induction l as [|x l IH]; intros a; simpl; [reflexivity|].
  rewrite E. apply IH.
Qed.

(** [k] turns of the multiply-accumulate add the products of [k] consecutive
    elements. *)
Lemma mac_value (feat filt : list T) (k : nat) :
  forall (accum : T) (fp gp : Z),
    0 <= fp -> fp + Z.of_nat k <= Z.of_nat (length filt) ->
    0 <= gp -> gp + Z.of_nat k <= Z.of_nat (length feat) ->
    mac feat filt k (accum, fp, gp) =
    Ok (fold_left
          (fun acc w =>
             add acc (mul (nth (Z.to_nat (fp + w)) filt zero) (nth (Z.to_nat (gp + w)) feat zero)))
          (range 0 (Z.of_nat k)) accum,
        fp + Z.of_nat k, gp + Z.of_nat k).
Proof.
  induction k as [|k IH]; intros accum fp gp F0 F1 G0 G1.
  - simpl. rewrite !Z.add_0_r. reflexivity.
  - cbn [mac]. rewrite (load_total filt fp zero) by lia.
    rewrite (load_total feat gp zero) by lia. cbn [bind].
    rewrite IH by lia.
    replace (Z.of_nat (S k)) with (Z.of_nat k + 1) by lia.
    rewrite (range_cons 0 (Z.of_nat k + 1)) by lia. cbn [fold_left].
    rewrite range_succ, fold_left_map_arg, !Z.add_0_r.
    f_equal. f_equal; [f_equal | lia]; [|lia].
    apply fold_left_same. intros a w. do 3 f_equal; f_equal; lia.
Qed.

(** X1: for a well-formed feature map and filter and a window inside the
    map, the response at row [m], column [n] is the inner product with the
    first [filterRows - 1] filter rows: the last filter row never enters it. *)
Theorem convolve_at_value (feature filter : Mat T) (m n : Z) :
  1 <= rows filter -> 0 <= cols filter ->
  Z.of_nat (length (data filter)) = rows filter * cols filter ->
  Z.of_nat (length (data feature)) = rows feature * cols feature ->
  0 <= m -> m + rows filter <= rows feature ->
  0 <= n -> n + cols filter <= cols feature ->
  convolve_at feature filter m n
  = Ok (leading_rows_product feature filter m n (rows filter - 1)).
Proof.
  intros HH HW Lf Lg Hm Hm' Hn Hn'. unfold convolve_at.
  set (W := cols filter) in *. set (C := cols feature) in *.
  destruct (for_each_range_total
              (fun k (st : T * Z * Z) =>
                 st = (leading_rows_product feature filter m n (Z.max (k - 1) 0),
                       Z.max (k - 1) 0 * W,
                       (m + Z.max (k - 1) 0) * C + n))
              (convolve_row feature filter m n) (rows filter) 0 (zero, 0, m * C + n))
    as ([[a fp] gp] & -> & E); [lia | | simpl; do 2 f_equal; lia |].
  - intros h st Hh ->. unfold convolve_row. fold W C.
    destruct (Z.eq_dec h 0) as [->|Nh].
    + simpl. eexists. split; [reflexivity|]. simpl. do 2 f_equal.
    + replace (Z.max (h - 1) 0) with (h - 1) by lia.
      replace (Z.max (h + 1 - 1) 0) with h by lia.
      replace (Z.to_nat (h * W - (h - 1) * W)) with (Z.to_nat W) by lia.
      rewrite mac_value by nia. cbn [bind].
      eexists. split; [reflexivity|]. f_equal. f_equal; [|lia].
      symmetry. unfold leading_rows_product at 1.
      replace (range 0 h) with (range 0 (h - 1) ++ [h - 1])
        by (rewrite <- range_snoc by lia; f_equal; lia).
      rewrite fold_left_app. cbn [fold_left]. fold W.
      fold (leading_rows_product feature filter m n (h - 1)).
      rewrite Z2Nat.id by lia.
      apply fold_left_same. intros acc w. unfold at_. fold W C.
      do 3 f_equal; f_equal; lia.
  - cbn [bind]. injection E as -> _ _. do 2 f_equal. lia.
Qed.

End ConvolveValue.

Lemma convolve_at_value_witness :
  1 <= rows filter_1_2 /\ 0 <= cols filter_1_2 /\
  convolve_at (ones_map 2 32) filter_1_2 0 0
  = Ok (leading_rows_product (ones_map 2 32) filter_1_2 0 0 (rows filter_1_2 - 1)).
Proof.
  assert (H1 : 1 <= rows filter_1_2) by (simpl; lia).
  assert (H2 : 0 <= cols filter_1_2) by (simpl; lia).
  split; [exact H1|]. split; [exact H2|].
  apply (convolve_at_value (ones_map 2 32) filter_1_2 0 0 H1 H2);
    try reflexivity; simpl; lia.
Defined.

(** ** The errors of the extractor *)

(** Chase an error of a monadic computation down to the access that
    raised it. *)
Ltac faults E :=
  lazymatch type of E with
  | bind _ _ = Err _ =>
      let a := fresh "a" in
      apply bind_err in E as [E | (a & _ & E)]; [faults E | faults E]
  | for_each _ _ _ = Err _ =>
      let k := fresh "k" in
      let s := fresh "s" in
      apply for_each_err in E as (k & s & _ & E); cbv beta in E; faults E
  | load _ _ = Err _ => exact (load_err _ _ _ E)
  | store _ _ _ = Err _ => exact (store_err _ _ _ _ E)
  | strided _ _ _ = Err _ => exact (strided_err _ _ _ _ E)
  | Ok _ = Err _ => discriminate E
  | context [match ?x with _ => _ end] => destruct x; faults E
  | _ => eauto
  end.

Section ExtractorErrors.
Context {T : Type} `{Real T}.
Variable IT : Type.
Variable sdiff : IT -> IT -> T.
Variable binsize_ : Z.
Variable T_depth : Depth.

Lemma gradient_err (im : Mat IT) (s : Z) (e : error) :
  gradient IT sdiff im s = Err e -> fault e.
Proof. unfold gradient. intros E. faults E. Qed.

Lemma pixel_gradient_err (im : Mat IT) (x y : Z) (e : error) :
  pixel_gradient IT sdiff im x y = Err e -> fault e.
Proof.
  unfold pixel_gradient. intros E.
  apply bind_err in E as [E | ([[dx dy] v] & _ & E)]; [exact (gradient_err _ _ _ E)|].
  destruct (channels im =? 3); [|discriminate].
  apply bind_err in E as [E | ([[dxg dyg] vg] & _ & E)]; [exact (gradient_err _ _ _ E)|].
  apply bind_err in E as [E | ([[dxr dyr] vr] & _ & E)]; [exact (gradient_err _ _ _ E)|].
  destruct (ltb v vg); [destruct (ltb vg vr) | destruct (ltb v vr)]; discriminate.
Qed.

Lemma assign_all_err (ws : list (Z * T)) (hist : list T) (e : error) :
  assign_all hist ws = Err e -> fault e.
Proof.
  revert hist; induction ws as [|[i v] ws IH]; simpl; intros hist E; [discriminate|].
  apply bind_err in E as [E | (h & _ & E)]; [exact (store_err _ _ _ _ E) | eauto].
Qed.

Lemma histogram_pass_err (im : Mat IT) (g : Geometry) (hist : list T) (e : error) :
  histogram_pass IT sdiff binsize_ im g hist = Err e -> fault e.
Proof.
  unfold histogram_pass. intros E.
  apply for_each_err in E as (y & h1 & _ & E).
  apply for_each_err in E as (x & h2 & _ & E).
  apply bind_err in E as [E | ([[dx dy] v] & _ & E)];
    [exact (pixel_gradient_err _ _ _ _ E) | exact (assign_all_err _ _ _ E)].
Qed.

Lemma energy_pass_err (g : Geometry) (hist norm : list T) (e : error) :
  energy_pass g hist norm = Err e -> fault e.
Proof. unfold energy_pass. intros E. faults E. Qed.

Lemma normalizers_err (g : Geometry) (norm : list T) (y x : Z) (e : error) :
  normalizers g norm y x = Err e -> fault e.
Proof. unfold normalizers, normalizer. intros E. faults E. Qed.

Lemma cell_err (g : Geometry) (hist norm feat : list T) (y x : Z) (e : error) :
  cell g hist norm y x feat = Err e -> fault e.
Proof.
  unfold cell. intros E.
  apply bind_err in E as [E | (n & _ & E)]; [exact (normalizers_err _ _ _ _ _ E)|].
  apply bind_err in E as [E | ([[[f1 d1] s1] t] & _ & E)].
  { apply for_each_err in E as (k & [[[f d] s] [[[t1 t2] t3] t4]] & _ & E).
    unfold sensitive_step in E. destruct n as [[[n1 n2] n3] n4]. faults E. }
  apply bind_err in E as [E | ([[[f2 d2] s2] [[[t1 t2] t3] t4]] & _ & E)].
  { apply for_each_err in E as (k & [[[f d] s] t'] & _ & E).
    unfold insensitive_step in E. destruct n as [[[n1 n2] n3] n4]. faults E. }
  faults E.
Qed.

Lemma feature_pass_err (g : Geometry) (hist norm feat : list T) (e : error) :
  feature_pass g hist norm feat = Err e -> fault e.
Proof.
  unfold feature_pass. intros E.
  apply for_each_err in E as (y & f1 & _ & E).
  apply for_each_err in E as (x & f2 & _ & E).
  exact (cell_err _ _ _ _ _ _ _ E).
Qed.

(** Whatever stops [features] is an access outside a buffer. *)
Lemma features_err (im : Mat IT) (e : error) :
  features IT sdiff binsize_ T_depth im = Err e -> fault e.
Proof.
  unfold features. intros E.
  apply bind_err in E as [E | (hist & _ & E)]; [exact (histogram_pass_err _ _ _ _ E)|].
  apply bind_err in E as [E | (norm & _ & E)]; [exact (energy_pass_err _ _ _ _ E)|].
  apply bind_err in E as [E | (feat & _ & E)]; [exact (feature_pass_err _ _ _ _ _ E)|].
  discriminate.
Qed.

(** The header of the feature map. *)
Lemma features_shape (im : Mat IT) (featm : Mat T) :
  features IT sdiff binsize_ T_depth im = Ok featm ->
  rows featm = out_height (geometry IT binsize_ im) /\
  cols featm = out_width (geometry IT binsize_ im) * flen_.
Proof.
  unfold features. intros E.
  apply bind_ok in E as (hist & _ & E).
  apply bind_ok in E as (norm & _ & E).
  apply bind_ok in E as (feat & _ & E).
  injection E as <-. simpl. auto.
Qed.

End ExtractorErrors.

(** ** The size of the extractor's buffers *)

Section ExtractorLength.
Context {T : Type} `{Real T}.

Lemma store_length (buf buf' : list T) (i : Z) (v : T) :
  store buf i v = Ok buf' -> length buf' = length buf.
Proof. intros E. apply store_ok in E as (_ & ->). apply length_upd. Qed.

Lemma sensitive_step_length (hist : list T) (n : T * T * T * T) (st st' : cell_state) :
  sensitive_step hist n st = Ok st' ->
  length (fst (fst (fst st'))) = length (fst (fst (fst st))).
Proof.
  destruct st as [[[f d] s] [[[t1 t2] t3] t4]], n as [[[n1 n2] n3] n4].
  unfold sensitive_step. intros E.
  apply bind_ok in E as (a & _ & E).
  destruct (truncated _ _ _ _ _) as [v [[[h1 h2] h3] h4]].
  apply bind_ok in E as (f' & S & E). injection E as <-. simpl.
  exact (store_length _ _ _ _ S).
Qed.

Lemma insensitive_step_length (hist : list T) (n : T * T * T * T) (st st' : cell_state) :
  insensitive_step hist n st = Ok st' ->
  length (fst (fst (fst st'))) = length (fst (fst (fst st))).
Proof.
  destruct st as [[[f d] s] t], n as [[[n1 n2] n3] n4].
  unfold insensitive_step. intros E.
  apply bind_ok in E as (a & _ & E). apply bind_ok in E as (b & _ & E).
  destruct (truncated _ _ _ _ _) as [v hs].
  apply bind_ok in E as (f' & S & E). injection E as <-. simpl.
  exact (store_length _ _ _ _ S).
Qed.

Lemma cell_length (g : Geometry) (hist norm feat feat' : list T) (y x : Z) :
  cell g hist norm y x feat = Ok feat' -> length feat' = length feat.
Proof.
  unfold cell. intros E.
  apply bind_ok in E as (n & _ & E).
  apply bind_ok in E as ([[[f1 d1] s1] t] & L1 & E).
  apply (for_each_inv (fun st : cell_state => length (fst (fst (fst st))) = length feat)) in L1;
    [|intros k a b _ Ha Hb; rewrite (sensitive_step_length _ _ _ _ Hb); exact Ha|reflexivity].
  apply bind_ok in E as ([[[f2 d2] s2] [[[t1 t2] t3] t4]] & L2 & E).
  apply (for_each_inv (fun st : cell_state => length (fst (fst (fst st))) = length feat)) in L2;
    [|intros k a b _ Ha Hb; rewrite (insensitive_step_length _ _ _ _ Hb); exact Ha|exact L1].
  simpl in L2.
  apply bind_ok in E as (f3 & S3 & E). apply bind_ok in E as (f4 & S4 & E).
  apply bind_ok in E as (f5 & S5 & E). apply bind_ok in E as (f6 & S6 & E).
  apply store_length in E, S3, S4, S5, S6. congruence.
Qed.

Lemma feature_pass_length (g : Geometry) (hist norm feat feat' : list T) :
  feature_pass g hist norm feat = Ok feat' -> length feat' = length feat.
Proof.
  unfold feature_pass.
  apply (for_each_inv (fun f : list T => length f = length feat)); [|reflexivity].
  intros y f f' _ Hf. apply (for_each_inv (fun f : list T => length f = length feat)); [|exact Hf].
  intros x a b _ Ha Hb. rewrite (cell_length _ _ _ _ _ _ _ Hb). exact Ha.
Qed.

(** The feature map holds [rows * cols] values. *)
Lemma features_wf (IT : Type) (sdiff : IT -> IT -> T) (binsize_ : Z) (T_depth : Depth)
    (im : Mat IT) (featm : Mat T) :
  features IT sdiff binsize_ T_depth im = Ok featm ->
  0 <= rows featm /\ 0 <= cols featm /\
  length (data featm) = Z.to_nat (rows featm * cols featm).
Proof.
  unfold features. intros E.
  apply bind_ok in E as (hist & _ & E).
  apply bind_ok in E as (norm & _ & E).
  apply bind_ok in E as (feat & F & E).
  injection E as <-. apply feature_pass_length in F. simpl in *.
  rewrite F, repeat_length. unfold flen_. split; [lia|]. split; [lia|]. f_equal. lia.
Qed.

End ExtractorLength.

(** ** The padder *)

Lemma copyMakeBorder_spec {A} (src : Mat A) (top bottom left right : Z) (value d : A) :
  0 <= rows src -> 0 <= cols src ->
  0 <= top -> 0 <= bottom -> 0 <= left -> 0 <= right ->
  let dst := copyMakeBorder src top bottom left right value in
  rows dst = rows src + top + bottom /\
  cols dst = cols src + left + right /\
  (forall r c, 0 <= r < rows src -> 0 <= c < cols src ->
     at_ d dst (r + top) (c + left) = at_ value src r c) /\
  (forall r c, 0 <= r < rows dst -> 0 <= c < cols dst ->
     r < top \/ top + rows src <= r \/ c < left \/ left + cols src <= c ->
     at_ d dst r c = value).
Proof.
  intros Hr Hc Ht Hb Hl Hg dst.
  set (R := rows src + top + bottom). set (C := cols src + left + right).
  assert (cell : forall r c, 0 <= r < R -> 0 <= c < C ->
            at_ d dst r c =
            if (top <=? r) && (r <? top + rows src) && (left <=? c) && (c <? left + cols src)
            then at_ value src (r - top) (c - left) else value).
  { intros r c Rr Rc. unfold at_ at 1. simpl. fold R C.
    rewrite nth_map_range by nia.
    replace ((r * C + c) / C) with r by (apply (Z.div_unique _ _ r c); lia).
    replace ((r * C + c) mod C) with c by (apply (Z.mod_unique _ _ r c); lia).
    reflexivity. }
  split; [reflexivity|]. split; [reflexivity|]. split.
  - intros r c Rr Rc. rewrite cell by (unfold R, C; lia).
    replace (top <=? r + top) with true by (symmetry; apply Z.leb_le; lia).
    replace (r + top <? top + rows src) with true by (symmetry; apply Z.ltb_lt; lia).
    replace (left <=? c + left) with true by (symmetry; apply Z.leb_le; lia).
    replace (c + left <? left + cols src) with true by (symmetry; apply Z.ltb_lt; lia).
    simpl. f_equal; lia.
  - intros r c Rr Rc Out. rewrite cell by exact Rr || exact Rc.
    destruct (top <=? r) eqn:E1; destruct (r <? top + rows src) eqn:E2;
      destruct (left <=? c) eqn:E3; destruct (c <? left + cols src) eqn:E4;
      simpl; try reflexivity. lia.
Qed.

(** ** The pyramid builder *)

Section PyramidFacts.
Context {T : Type} `{Real T}.
Variable IT : Type.
Variable sdiff : IT -> IT -> T.
Variable T_depth : Depth.
Variable resize : Mat IT -> Z -> Z -> Mat IT.
Variable pyrDown : Mat IT -> Mat IT.
Variable binsize_ : Z.
Variable nscales_ : Z.

Lemma pyramid_images_total (im : Mat IT) :
  0 <= nscales_ -> exists pyraimages, pyramid_images IT resize pyrDown nscales_ im = Ok pyraimages.
Proof.
  intros Hn. unfold pyramid_images.
  destruct (for_each_total (fun _ : list (Mat IT) => True) (range 0 (interval nscales_))
              (fun i pyraimages =>
                 let scaled := resize im i (interval nscales_) in
                 let pyraimages := upd pyraimages (Z.to_nat i) scaled in
                 js <- strided (i + interval nscales_) nscales_ (interval nscales_) ;;
                 for_each js
                   (fun j pyraimages => Ok (upd pyraimages (Z.to_nat j) (pyrDown scaled)))
                   pyraimages)) with (s := repeat (@emptyMat IT) (Z.to_nat nscales_))
    as (imgs & E & _); [|exact I|eauto].
  intros i imgs Hi _. apply in_range in Hi. cbv zeta.
  assert (Hint : 1 <= interval nscales_).
  { unfold interval in *. lia. }
  unfold strided.
  destruct (nscales_ <=? i + interval nscales_).
  - simpl. eauto.
  - replace (interval nscales_ <=? 0) with false by (symmetry; apply Z.leb_gt; lia).
    simpl.
    apply (for_each_total (fun _ => True)); [|exact I]. intros; eauto.
Qed.

Lemma pyramid_images_err (im : Mat IT) (e : error) :
  pyramid_images IT resize pyrDown nscales_ im = Err e -> fault e.
Proof. unfold pyramid_images. intros E. faults E. Qed.

Lemma extract_err (im level : Mat IT) (e : error) :
  supported (depth im) = true -> extract IT sdiff T_depth binsize_ im level = Err e -> fault e.
Proof.
  unfold extract. intros S E.
  destruct (depth im); try discriminate; exact (features_err _ _ _ _ _ _ E).
Qed.

Lemma extract_unsupported (im level : Mat IT) :
  supported (depth im) = false -> extract IT sdiff T_depth binsize_ im level = Err UnsupportedFormat.
Proof.
  unfold extract. intros S. destruct (depth im); try discriminate; reflexivity.
Qed.

(** C9 (amended): when at least one level is requested, [pyramid] raises
    [UnsupportedFormat] for every source image whose element type is outside
    {8-bit unsigned, 16-bit unsigned, 32-bit float, 64-bit float}, and
    never raises it for an image whose element type is in that set. *)
Theorem pyramid_unsupported_format (im : Mat IT) :
  1 <= nscales_ ->
  (supported (depth im) = false -> pyramid IT sdiff T_depth resize pyrDown binsize_ nscales_ im = Err UnsupportedFormat) /\
  (supported (depth im) = true -> pyramid IT sdiff T_depth resize pyrDown binsize_ nscales_ im <> Err UnsupportedFormat).
Proof.
  intros Hn. split; intros S.
  - unfold pyramid.
    replace (nscales_ <? 0) with false by (symmetry; apply Z.ltb_ge; lia).
    destruct (pyramid_images_total im) as (imgs & ->); [lia|]. simpl.
    rewrite range_cons by lia. simpl.
    rewrite extract_unsupported by exact S. reflexivity.
  - intros E. unfold pyramid in E.
    destruct (nscales_ <? 0); [discriminate|].
    apply bind_err in E as [E | (imgs & _ & E)]; [exact (pyramid_images_err _ _ E)|].
    apply bind_err in E as [E | (pf & _ & E)]; [|discriminate].
    apply for_each_err in E as (n & pf & _ & E).
    apply bind_err in E as [E | (f & _ & E)]; [|discriminate].
    exact (extract_err _ _ _ S E).
Qed.

(** X3: whenever [pyramid] returns, every recorded scale is 0: the member
    [scales_] is resized to [nscales_] and never assigned. *)
Theorem pyramid_scales (im : Mat IT) (pf : list (Mat T)) (scales : list T) :
  pyramid IT sdiff T_depth resize pyrDown binsize_ nscales_ im = Ok (pf, scales) -> scales = repeat zero (Z.to_nat nscales_).
Proof.
  unfold pyramid. destruct (nscales_ <? 0); [discriminate|]. intros E.
  apply bind_ok in E as (imgs & _ & E).
  apply bind_ok in E as (pf' & _ & E). congruence.
Qed.

(** C3 (amended): for every pyramid level, the stored feature map is the
    extractor's output for the image of that level, padded with 1 row on top
    and bottom and [flen_] columns on left and right; every element of that
    border is 1, and the interior of the padded map equals the extractor's
    output exactly. *)
Theorem pyramid_level_padded (im : Mat IT) (pf : list (Mat T)) (scales : list T) (n : Z) :
  pyramid IT sdiff T_depth resize pyrDown binsize_ nscales_ im = Ok (pf, scales) ->
  0 <= n < nscales_ ->
  exists pyraimages feature,
    pyramid_images IT resize pyrDown nscales_ im = Ok pyraimages /\
    features IT sdiff binsize_ T_depth (nth (Z.to_nat n) pyraimages emptyMat) = Ok feature /\
    let padded := nth (Z.to_nat n) pf emptyMat in
    padded = copyMakeBorder feature 1 1 flen_ flen_ one /\
    rows padded = rows feature + 2 /\
    cols padded = cols feature + 2 * flen_ /\
    (forall r c, 0 <= r < rows feature -> 0 <= c < cols feature ->
       at_ zero padded (r + 1) (c + flen_) = at_ zero feature r c) /\
    (forall r c, 0 <= r < rows padded -> 0 <= c < cols padded ->
       r = 0 \/ r = rows feature + 1 \/ c < flen_ \/ cols feature + flen_ <= c ->
       at_ zero padded r c = one).
Proof.
  intros E Hn. unfold pyramid in E.
  destruct (nscales_ <? 0); [discriminate|].
  apply bind_ok in E as (imgs & I & E).
  apply bind_ok in E as (pf' & F & E). injection E as -> _.
  apply (for_each_fill
           (fun k => extract IT sdiff T_depth binsize_ im (nth (Z.to_nat k) imgs emptyMat))
           (fun feature => copyMakeBorder feature 1 1 flen_ flen_ one) emptyMat) in F;
    [|lia|rewrite repeat_length; lia].
  destruct F as (_ & F & _). destruct (F n Hn) as (feature & X & Fn).
  assert (Xf : features IT sdiff binsize_ T_depth (nth (Z.to_nat n) imgs emptyMat) = Ok feature).
  { unfold extract in X. destruct (depth im); try discriminate; exact X. }
  exists imgs, feature. split; [exact I|]. split; [exact Xf|].
  destruct (features_wf _ _ _ _ _ _ Xf) as (Hr & Hc & Hl).
  cbv zeta. rewrite Fn.
  destruct (copyMakeBorder_spec feature 1 1 flen_ flen_ one zero) as (S1 & S2 & S3 & S4);
    try (unfold flen_; lia).
  split; [reflexivity|]. split; [lia|]. split; [lia|]. split.
  - intros r c Rr Rc. rewrite S3 by assumption.
    unfold at_. apply nth_indep. nia.
  - intros r c Rr Rc Out. apply S4; lia.
Qed.

End PyramidFacts.

(** ** The pyramid builder on concrete images *)

(** C9 (counterexample): with no level requested, [pyramid] returns an
    empty pyramid for an image of signed 8-bit samples, an element type
    outside the supported set, and raises nothing. *)
Lemma pyramid_unsupported_without_levels :
  supported (depth signed8) = false /\
  pyramid_double 8 0 signed8 = Ok ([], []).
Proof. split; reflexivity. Qed.

Lemma pyramid_unsupported_format_witness :
  1 <= 1 /\
  pyramid_double 8 1 signed8 = Err UnsupportedFormat /\
  pyramid_double 8 1 (flat 24 24) <> Err UnsupportedFormat.
Proof.
  assert (L : 1 <= 1) by lia.
  split; [exact L|]. split.
  - apply (pyramid_unsupported_format Z int_diff CV_64F resize_same pyrDown_none 8 1 signed8 L).
    reflexivity.
  - apply (pyramid_unsupported_format Z int_diff CV_64F resize_same pyrDown_none 8 1
             (flat 24 24) L).
    reflexivity.
Defined.

(** C7 (the code at the failing input): after [pyramid] on a 24x24 image
    with one level, the recorded scales are [0], not [1]. *)
Theorem pyramid_scales_failing_input :
  exists pf scales,
    pyramid_double 8 1 (flat 24 24) = Ok (pf, scales) /\
    scales = [0%float] /\
    PrimFloat.eqb (nth 0 scales 1%float) 1%float = false.
Proof.
  eexists. eexists. split; [vm_compute; reflexivity|]. split; reflexivity.
Qed.

Lemma pyramid_scales_witness :
  exists pf scales,
    pyramid_double 8 1 (flat 24 24) = Ok (pf, scales) /\
    scales = repeat 0%float (Z.to_nat 1).
Proof.
  assert (E : exists r, pyramid_double 8 1 (flat 24 24) = Ok r)
    by (eexists; vm_compute; reflexivity).
  destruct E as ([pf scales] & E). exists pf, scales. split; [exact E|].
  exact (pyramid_scales Z int_diff CV_64F resize_same pyrDown_none 8 1 (flat 24 24) pf scales E).
Defined.

(** With two levels or more the recorded scales are equal, so they do not
    decrease. *)
Lemma zero_scales_not_decreasing (n : nat) :
  strictly_decreasing (repeat 0%float (S (S n))) = false.
Proof. reflexivity. Qed.

(** C3 (counterexample): the border of the stored feature map of a 24x24
    grey image is filled with 1, not with 0. *)
Lemma pyramid_border_is_one :
  exists padded scales,
    pyramid_double 8 1 (flat 24 24) = Ok ([padded], scales) /\
    rows padded = 3 /\ cols padded = 3 * flen_ /\
    at_ 0%float padded 0 0 = 1%float /\
    PrimFloat.eqb (at_ 0%float padded 0 0) 0%float = false.
Proof.
  eexists. eexists. split; [vm_compute; reflexivity|]. repeat split.
Qed.

Lemma pyramid_level_padded_witness :
  exists pf scales,
    pyramid_double 8 1 (flat 24 24) = Ok (pf, scales) /\
    0 <= 0 < 1 /\
    rows (nth 0 pf emptyMat) = 3 /\
    at_ 0%float (nth 0 pf emptyMat) 2 95 = 1%float.
Proof.
  assert (E : exists r, pyramid_double 8 1 (flat 24 24) = Ok r)
    by (eexists; vm_compute; reflexivity).
  destruct E as ([pf scales] & E). exists pf, scales.
  assert (L : 0 <= 0 < 1) by lia.
  split; [exact E|]. split; [exact L|].
  destruct (pyramid_level_padded Z int_diff CV_64F resize_same pyrDown_none 8 1
              (flat 24 24) pf scales 0 E L)
    as (imgs & feature & I & F & P & R & C & _ & B).
  simpl in R, C, B.
  apply features_shape in F as (Fr & Fc).
  assert (I' : imgs = [flat 24 24]) by (vm_compute in I; injection I as <-; reflexivity).
  subst imgs. change (rows feature = 1) in Fr. change (cols feature = 32) in Fc.
  split; [lia|]. apply B; [lia | unfold flen_; lia | lia].
Defined.

(** ** The extractor on concrete images *)

(** C10 (the code at the failing input): on a 2x2 image with [binsize_ = 4]
    the gradient pass visits the pixel (1, 1); the clamped sample address is
    0 and the read one row above it is at element -2, outside the buffer. *)
Theorem gradient_reads_outside_buffer :
  vis_width (geometry Z 4 tiny) = 4 /\ vis_height (geometry Z 4 tiny) = 4 /\
  sample_addr Z tiny 1 1 = 0 /\
  gradient (T:=float) Z int_diff tiny (sample_addr Z tiny 1 1) = Err (OutOfBounds (-2)) /\
  features_double 4 tiny = Err (OutOfBounds (-2)).
Proof. repeat split. Qed.

(** C2 (the code at the failing input): on the 4x4 ramp with [binsize_ = 2]
    the four interior pixels all contribute to bin 0 of cell (0, 0) (element
    0 of the histogram), with weights 9/16, 3/16, 3/16, 1/16 of the
    magnitude 2.  The code leaves the last contribution, 0.125, where the
    sum of the contributions is 2. *)
Theorem histogram_overwrites_contributions :
  exists hist acc,
    histogram_pass Z int_diff 2 ramp (geometry Z 2 ramp) (hist0 (geometry Z 2 ramp)) = Ok hist /\
    histogram_accumulated Z int_diff 2 ramp (geometry Z 2 ramp) (hist0 (geometry Z 2 ramp))
      = Ok acc /\
    map (fun xy => contributions (T:=float) 2 (geometry Z 2 ramp) (fst xy) (snd xy)
                     2%float 0%float 4%float)
        [(1, 1); (2, 1); (1, 2); (2, 2)]
    = [[(0, 1.125%float); (18, 0.375%float); (36, 0.375%float); (54, 0.125%float)];
       [(0, 0.375%float); (18, 0.125%float); (36, 1.125%float); (54, 0.375%float)];
       [(0, 0.375%float); (18, 1.125%float); (36, 0.125%float); (54, 0.375%float)];
       [(0, 0.125%float); (18, 0.375%float); (36, 0.375%float); (54, 1.125%float)]] /\
    nth 0 hist 0%float = 0.125%float /\
    nth 0 acc 0%float = 2%float.
Proof.
  eexists. eexists. split; [vm_compute; reflexivity|]. split; [vm_compute; reflexivity|].
  repeat split.
Qed.

(** C4 (the code at the failing input): on the 24x24 image with one white
    pixel ([binsize_ = 8], a 3x3 block grid, one output cell), the code's
    [n2], [n3], [n4] are 100, that is [1/sqrt(0 + eps)], while each of the
    four 2x2 neighbourhoods of the block grid holds the energy of the middle
    block and gives a scalar below 0.01. *)
Theorem normalizers_read_wrong_blocks :
  let g := geometry Z 8 spot in
  exists hist norm n1 s00 s01 s10 s11,
    histogram_pass Z int_diff 8 spot g (hist0 g) = Ok hist /\
    energy_pass g hist (norm0 g) = Ok norm /\
    normalizers g norm 0 0 = Ok (n1, 100, 100, 100)%float /\
    neighbourhood_normalizer g norm 0 0 = Ok s00 /\
    neighbourhood_normalizer g norm 0 1 = Ok s01 /\
    neighbourhood_normalizer g norm 1 0 = Ok s10 /\
    neighbourhood_normalizer g norm 1 1 = Ok s11 /\
    forallb (fun s => PrimFloat.ltb s (dec 1 2)) [s00; s01; s10; s11] = true.
Proof.
  cbv zeta. do 7 eexists.
  split; [vm_compute; reflexivity|].
  split; [vm_compute; reflexivity|].
  split; [vm_compute; reflexivity|].
  split; [vm_compute; reflexivity|].
  split; [vm_compute; reflexivity|].
  split; [vm_compute; reflexivity|].
  split; [vm_compute; reflexivity|].
  vm_compute. reflexivity.
Qed.


(** ** The extractor in exact arithmetic: the range of the features *)

Lemma Forall_upd {A} (P : A -> Prop) (l : list A) (n : nat) (v : A) :
  Forall P l -> P v -> Forall P (upd l n v).
Proof.
  intros Hl Hv. revert n. induction Hl as [|a l Ha Hl IH]; intros [|n]; simpl; auto.
Qed.

Lemma load_Forall {A} (P : A -> Prop) (l : list A) (i : Z) (v : A) :
  Forall P l -> load l i = Ok v -> P v.
Proof.
  intros Hl. unfold load. destruct (i <? 0); [discriminate|].
  destruct (nth_error l (Z.to_nat i)) as [a|] eqn:N; [|discriminate].
  intros [= <-]. rewrite Forall_forall in Hl. apply Hl. exact (nth_error_In _ _ N).
Qed.

Lemma store_Forall {A} (P : A -> Prop) (l l' : list A) (i : Z) (v : A) :
  Forall P l -> P v -> store l i v = Ok l' -> Forall P l'.
Proof. intros Hl Hv E. apply store_ok in E as (_ & ->). apply Forall_upd; assumption. Qed.

Section ExactRange.
Variable IT : Type.
Variable sdiff : IT -> IT -> R.
Variable binsize_ : Z.
Variable T_depth : Depth.

Local Abbreviation nonneg := (fun v : R => (0 <= v)%R).

Lemma tmin_range (a : R) : (0 <= a -> 0 <= tmin a (dec 2 1) <= 2 / 10)%R.
Proof.
  intros Ha. unfold tmin, dec. exact_ops. change (10 ^ 1) with 10. unfold Rltb.
  destruct (Rlt_dec _ _) as [L|L]; lra.
Qed.

Lemma truncated_range (s n1 n2 n3 n4 : R) :
  (0 <= s -> 0 <= n1 -> 0 <= n2 -> 0 <= n3 -> 0 <= n4 ->
   0 <= fst (truncated s n1 n2 n3 n4) <= 4 / 10)%R.
Proof.
  intros Hs H1 H2 H3 H4. unfold truncated. cbv zeta. unfold fst.
  pose proof (tmin_range (s * n1)%R (Rmult_le_pos _ _ Hs H1)) as B1.
  pose proof (tmin_range (s * n2)%R (Rmult_le_pos _ _ Hs H2)) as B2.
  pose proof (tmin_range (s * n3)%R (Rmult_le_pos _ _ Hs H3)) as B3.
  pose proof (tmin_range (s * n4)%R (Rmult_le_pos _ _ Hs H4)) as B4.
  exact_ops.
  set (h1 := tmin (s * n1)%R (dec 2 1)) in *. set (h2 := tmin (s * n2)%R (dec 2 1)) in *.
  set (h3 := tmin (s * n3)%R (dec 2 1)) in *. set (h4 := tmin (s * n4)%R (dec 2 1)) in *.
  unfold dec. exact_ops. change (10 ^ 1) with 10. lra.
Qed.

Lemma normalizer_pos (g : Geometry) (norm : list R) (p : Z) (n : R) :
  Forall nonneg norm -> normalizer g norm p = Ok n -> (0 <= n)%R.
Proof.
  intros Hn E. unfold normalizer in E.
  apply bind_ok in E as (a & La & E). apply bind_ok in E as (b & Lb & E).
  apply bind_ok in E as (c & Lc & E). apply bind_ok in E as (d & Ld & E).
  injection E as <-.
  apply (load_Forall _ _ _ _ Hn) in La, Lb, Lc, Ld.
  unfold dec. exact_ops. change (10 ^ 4) with 10000.
  apply Rlt_le, Rdiv_lt_0_compat; [lra|]. apply sqrt_lt_R0. lra.
Qed.

Lemma normalizers_pos (g : Geometry) (norm : list R) (y x : Z) (n1 n2 n3 n4 : R) :
  Forall nonneg norm -> normalizers g norm y x = Ok (n1, n2, n3, n4) ->
  (0 <= n1 /\ 0 <= n2 /\ 0 <= n3 /\ 0 <= n4)%R.
Proof.
  intros Hn E. unfold normalizers in E.
  apply bind_ok in E as (a & La & E). apply bind_ok in E as (b & Lb & E).
  apply bind_ok in E as (c & Lc & E). apply bind_ok in E as (d & Ld & E).
  injection E as <- <- <- <-.
  repeat split; eapply normalizer_pos; eassumption.
Qed.

(** The weights and the magnitude of a pixel are not negative. *)
Lemma contributions_nonneg (g : Geometry) (x y : Z) (dx dy v : R) :
  Forall (fun w : Z * R => (0 <= snd w)%R) (contributions binsize_ g x y dx dy v).
Proof.
  unfold contributions. cbv zeta.
  set (yp := sub (div (add (of_int y) (dec 5 1)) (of_int binsize_)) (dec 5 1)).
  set (xp := sub (div (add (of_int x) (dec 5 1)) (of_int binsize_)) (dec 5 1)).
  pose proof (Zfloor_bound yp) as By. pose proof (Zfloor_bound xp) as Bx.
  pose proof (sqrt_pos v) as Bv.
  exact_ops.
  assert (M : forall a b : R, (0 <= a -> 0 <= b -> 0 <= a * b * R_sqrt.sqrt v)%R).
  { intros a b Ha Hb. apply Rmult_le_pos; [apply Rmult_le_pos|]; assumption. }
  repeat (apply Forall_app; split);
    match goal with |- Forall _ (if ?c then _ else _) => destruct c end;
    try (constructor; [unfold snd; apply M; lra | constructor]); constructor.
Qed.

Lemma assign_all_nonneg (ws : list (Z * R)) (hist hist' : list R) :
  Forall (fun w : Z * R => (0 <= snd w)%R) ws ->
  Forall nonneg hist -> assign_all hist ws = Ok hist' -> Forall nonneg hist'.
Proof.
  intros Hw. revert hist. induction Hw as [|[i v] ws Hv Hw IH]; simpl; intros hist Hh E.
  - injection E as <-. exact Hh.
  - apply bind_ok in E as (h1 & S & E). apply (IH h1); [|exact E].
    exact (store_Forall _ _ _ _ _ Hh Hv S).
Qed.

Lemma histogram_pass_nonneg (im : Mat IT) (g : Geometry) (hist hist' : list R) :
  Forall nonneg hist ->
  histogram_pass IT sdiff binsize_ im g hist = Ok hist' -> Forall nonneg hist'.
Proof.
  unfold histogram_pass. apply for_each_inv. intros y h1 h1' _ H1.
  apply for_each_inv; [|exact H1]. intros x h2 h2' _ H2 E.
  apply bind_ok in E as ([[dx dy] v] & _ & E).
  exact (assign_all_nonneg _ _ _ (contributions_nonneg _ _ _ _ _ _) H2 E).
Qed.

Lemma energy_pass_nonneg (g : Geometry) (hist norm norm' : list R) :
  Forall nonneg norm -> energy_pass g hist norm = Ok norm' -> Forall nonneg norm'.
Proof.
  unfold energy_pass. apply for_each_inv. intros i n1 n1' _ H1.
  apply for_each_inv; [|exact H1]. intros o n2 n2' _ H2 E.
  apply bind_ok in E as (n & Ln & E). apply bind_ok in E as (a & _ & E).
  apply bind_ok in E as (b & _ & E).
  apply (store_Forall _ _ _ _ _ H2) in E; [exact E|].
  apply (load_Forall _ _ _ _ H2) in Ln. exact_ops. cbv beta in *.
  generalize (Rle_0_sqr (a + b)). unfold Rsqr. lra.
Qed.

End ExactRange.

Section ExactCells.
Variable IT : Type.
Variable sdiff : IT -> IT -> R.
Variable binsize_ : Z.
Variable T_depth : Depth.

Local Abbreviation nonneg := (fun v : R => (0 <= v)%R).

Lemma slots_store (feat feat' : list R) (i : Z) (v : R) :
  slots_in_range feat -> store feat i v = Ok feat' ->
  (i mod flen_ < 27 -> (0 <= v <= 4 / 10)%R) ->
  slots_in_range feat'.
Proof.
  intros Q E Hv. apply store_ok in E as (Hi & ->). intros j Hj Hm.
  destruct (Z.eq_dec j i) as [->|N].
  - rewrite nth_upd_same by lia. auto.
  - rewrite nth_upd_other by lia. auto.
Qed.

Lemma slots_zero (n : nat) : slots_in_range (repeat 0%R n).
Proof.
  intros i _ _.
  assert (E : nth (Z.to_nat i) (repeat 0%R n) 0%R = 0%R).
  { destruct (Nat.lt_ge_cases (Z.to_nat i) n) as [L|L].
    - apply nth_repeat_lt. exact L.
    - apply nth_overflow. rewrite repeat_length. exact L. }
  rewrite E. lra.
Qed.

Lemma sensitive_step_range (hist : list R) (n1 n2 n3 n4 : R) (st st' : cell_state) :
  Forall nonneg hist ->
  (0 <= n1)%R -> (0 <= n2)%R -> (0 <= n3)%R -> (0 <= n4)%R ->
  slots_in_range (fst (fst (fst st))) ->
  sensitive_step hist (n1, n2, n3, n4) st = Ok st' ->
  slots_in_range (fst (fst (fst st'))) /\ snd (fst (fst st')) = snd (fst (fst st)) + 1.
Proof.
  destruct st as [[[f d] s] [[[t1 t2] t3] t4]]. simpl. intros Hh H1 H2 H3 H4 Q E.
  unfold sensitive_step in E.
  apply bind_ok in E as (a & La & E).
  pose proof (truncated_range a n1 n2 n3 n4 (load_Forall _ _ _ _ Hh La) H1 H2 H3 H4) as B.
  apply bind_ok in E as (f' & S & E). injection E as <-. simpl.
  split; [|reflexivity]. exact (slots_store _ _ _ _ Q S (fun _ => B)).
Qed.

Lemma insensitive_step_range (hist : list R) (n1 n2 n3 n4 : R) (st st' : cell_state) :
  Forall nonneg hist ->
  (0 <= n1)%R -> (0 <= n2)%R -> (0 <= n3)%R -> (0 <= n4)%R ->
  slots_in_range (fst (fst (fst st))) ->
  insensitive_step hist (n1, n2, n3, n4) st = Ok st' ->
  slots_in_range (fst (fst (fst st'))) /\ snd (fst (fst st')) = snd (fst (fst st)) + 1.
Proof.
  destruct st as [[[f d] s] t]. simpl. intros Hh H1 H2 H3 H4 Q E.
  unfold insensitive_step in E.
  apply bind_ok in E as (a & La & E). apply bind_ok in E as (b & Lb & E).
  apply (load_Forall _ _ _ _ Hh) in La, Lb. cbv beta in La, Lb.
  assert (Hab : (0 <= add a b)%R) by (exact_ops; lra).
  pose proof (truncated_range (add a b) n1 n2 n3 n4 Hab H1 H2 H3 H4) as B.
  apply bind_ok in E as (f' & S & E). injection E as <-. simpl.
  split; [|reflexivity]. exact (slots_store _ _ _ _ Q S (fun _ => B)).
Qed.

Lemma cell_range (g : Geometry) (hist norm feat feat' : list R) (y x : Z) :
  Forall nonneg hist -> Forall nonneg norm ->
  0 <= y * out_width g + x ->
  slots_in_range feat ->
  cell g hist norm y x feat = Ok feat' ->
  slots_in_range feat'.
Proof.
  intros Hh Hn Hc Q E. unfold cell in E.
  set (c := y * out_width g + x) in *.
  apply bind_ok in E as ([[[n1 n2] n3] n4] & N & E).
  destruct (normalizers_pos _ _ _ _ _ _ _ _ Hn N) as (P1 & P2 & P3 & P4).
  apply bind_ok in E as (st1 & L1 & E).
  apply (for_each_range_inv
           (fun k (st : cell_state) =>
              slots_in_range (fst (fst (fst st))) /\ snd (fst (fst st)) = c * flen_ + k)) in L1;
    [| unfold norient_; lia | | simpl; split; [exact Q | lia]].
  2:{ intros k a b Hk (Qa & Da) B.
      destruct (sensitive_step_range _ _ _ _ _ _ _ Hh P1 P2 P3 P4 Qa B) as (Qb & Db).
      split; [exact Qb | lia]. }
  destruct st1 as [[[f1 d1] s1] t]. simpl in L1. destruct L1 as (Q1 & D1).
  apply bind_ok in E as (st2 & L2 & E).
  apply (for_each_range_inv
           (fun k (st : cell_state) =>
              slots_in_range (fst (fst (fst st))) /\
              snd (fst (fst st)) = c * flen_ + norient_ + k)) in L2;
    [| unfold norient_; apply Z.div_pos; lia | | simpl; split; [exact Q1 | lia]].
  2:{ intros k a b Hk (Qa & Da) B.
      destruct (insensitive_step_range _ _ _ _ _ _ _ Hh P1 P2 P3 P4 Qa B) as (Qb & Db).
      split; [exact Qb | lia]. }
  destruct st2 as [[[f2 d2] s2] [[[t1 t2] t3] t4]]. simpl in L2. destruct L2 as (Q2 & D2).
  unfold norient_, flen_ in D2.
  assert (Hm : forall j, 27 <= j < 32 -> ~ (d2 + (j - 27)) mod flen_ < 27).
  { intros j Hj. unfold flen_. subst d2. change (18 / 2) with 9.
    replace (c * 32 + 18 + 9 + (j - 27)) with (j + c * 32) by ring.
    rewrite Z_mod_plus_full, Z.mod_small; lia. }
  apply bind_ok in E as (f3 & S3 & E). apply bind_ok in E as (f4 & S4 & E).
  apply bind_ok in E as (f5 & S5 & E). apply bind_ok in E as (f6 & S6 & E).
  replace d2 with (d2 + (27 - 27)) in S3 by lia.
  replace (d2 + 1) with (d2 + (28 - 27)) in S4 by lia.
  replace (d2 + 2) with (d2 + (29 - 27)) in S5 by lia.
  replace (d2 + 3) with (d2 + (30 - 27)) in S6 by lia.
  replace (d2 + 4) with (d2 + (31 - 27)) in E by lia.
  apply (slots_store _ _ _ _ Q2) in S3; [|intros M; destruct (Hm 27); [lia | exact M]].
  apply (slots_store _ _ _ _ S3) in S4; [|intros M; destruct (Hm 28); [lia | exact M]].
  apply (slots_store _ _ _ _ S4) in S5; [|intros M; destruct (Hm 29); [lia | exact M]].
  apply (slots_store _ _ _ _ S5) in S6; [|intros M; destruct (Hm 30); [lia | exact M]].
  apply (slots_store _ _ _ _ S6) in E; [exact E|intros M; destruct (Hm 31); [lia | exact M]].
Qed.

Lemma feature_pass_range (g : Geometry) (hist norm feat feat' : list R) :
  Forall nonneg hist -> Forall nonneg norm ->
  slots_in_range feat ->
  feature_pass g hist norm feat = Ok feat' ->
  slots_in_range feat'.
Proof.
  intros Hh Hn. unfold feature_pass.
  apply for_each_inv. intros y f1 f1' Hy Q1.
  apply for_each_inv; [|exact Q1]. intros x f2 f2' Hx Q2 E.
  apply in_range in Hy, Hx.
  apply (cell_range g hist norm f2 f2' y x Hh Hn); [nia | exact Q2 | exact E].
Qed.

(** In exact arithmetic only (no rounding, no overflow): whenever the
    extractor returns a feature map, every contrast-sensitive value (entries
    0 to 17 of a cell) and every contrast-insensitive value (entries 18 to
    26) lies in [[0, 0.4]]: each is half the sum of four terms truncated at
    0.2.  In binary64 the constant 0.2 is rounded up and an overflowing
    gradient gives NaN, so this interval is not a property of the
    floating-point run. *)
Theorem features_exact_bounded (im : Mat IT) (featm : Mat R) (y x e : Z) :
  features IT sdiff binsize_ T_depth im = Ok featm ->
  0 <= y < rows featm ->
  0 <= x -> x * flen_ < cols featm ->
  0 <= e < 27 ->
  (0 <= at_ 0 featm y (x * flen_ + e) <= 4 / 10)%R.
Proof.
  intros E Hy Hx Hc He.
  destruct (features_shape _ _ _ _ _ _ E) as (Sr & Sc).
  unfold features in E.
  apply bind_ok in E as (hist & Eh & E).
  apply bind_ok in E as (norm & En & E).
  apply bind_ok in E as (feat & Ef & E).
  injection E as <-. simpl in *.
  apply histogram_pass_nonneg in Eh; [|apply Forall_forall; intros v Hv;
    apply repeat_spec in Hv; subst v; apply Rle_refl].
  apply energy_pass_nonneg in En; [|apply Forall_forall; intros v Hv;
    apply repeat_spec in Hv; subst v; apply Rle_refl].
  apply feature_pass_range in Ef; [|exact Eh|exact En|apply slots_zero].
  unfold at_. simpl.
  set (w := out_width (geometry IT binsize_ im)) in *.
  assert (0 <= w) by (unfold w, geometry; simpl; lia).
  apply Ef; unfold flen_ in *; [nia|].
  match goal with
  | |- (y * (?a * 32) + _) mod 32 < 27 =>
      replace (y * (a * 32) + (x * 32 + e)) with (e + (y * a + x) * 32) by ring
  end.
  rewrite Z_mod_plus_full. rewrite Z.mod_small; lia.
Qed.

End ExactCells.

(** ** The extractor in exact arithmetic: every access is inside its buffer *)

Lemma load_exists {A} (buf : list A) (i : Z) :
  0 <= i < Z.of_nat (length buf) -> exists v, load buf i = Ok v.
Proof.
  intros Hi. unfold load.
  replace (i <? 0) with false by (symmetry; apply Z.ltb_ge; lia).
  destruct (nth_error buf (Z.to_nat i)) as [a|] eqn:N; [eauto|].
  apply nth_error_None in N. lia.
Qed.

Lemma round_div_nonneg (n b : Z) : 0 <= n -> 0 < b -> 0 <= round_div n b.
Proof. intros Hn Hb. unfold round_div. apply Z.div_pos; lia. Qed.

(** The cell coordinate [floor((p + 0.5)/binsize - 0.5)] of a visited pixel
    [1 <= p <= n*binsize - 2] lies in [[-1, n)]. *)
Lemma cell_coord_bounds (b p n : Z) :
  0 < b -> 1 <= p <= n * b - 2 ->
  -1 <= Zfloor ((IZR p + 5 / 10) / IZR b - 5 / 10) < n.
Proof.
  intros Hb Hp.
  assert (Rb : (0 < IZR b)%R) by (apply IZR_lt; exact Hb).
  assert (R1 : (1 <= IZR p)%R) by (apply IZR_le; lia).
  assert (R2 : (IZR p <= IZR n * IZR b - 2)%R).
  { rewrite <- mult_IZR, <- minus_IZR. apply IZR_le. lia. }
  set (q := ((IZR p + 5 / 10) / IZR b)%R).
  assert (Q : (q * IZR b = IZR p + 5 / 10)%R) by (unfold q; field; lra).
  assert (Q0 : (0 < q)%R) by (unfold q; apply Rdiv_lt_0_compat; lra).
  assert (Q1 : (q < IZR n)%R) by nra.
  pose proof (Zfloor_bound (q - 5 / 10)) as F.
  split.
  - apply Zfloor_lub. lra.
  - apply lt_IZR. lra.
Qed.

Section ExactAccess.
Variable IT : Type.
Variable sdiff : IT -> IT -> R.
Variable binsize_ : Z.
Variable T_depth : Depth.
Hypothesis binsize_pos : 0 < binsize_.

Lemma gradient_total (im : Mat IT) (s : Z) :
  cols im <= s -> 1 <= cols im -> s + cols im < Z.of_nat (length (data im)) ->
  exists r, gradient IT sdiff im s = Ok r.
Proof.
  intros H1 H2 H3. unfold gradient.
  destruct (load_exists (data im) (s + cols im)) as (a & ->); [lia|].
  destruct (load_exists (data im) (s - cols im)) as (b & ->); [lia|].
  destruct (load_exists (data im) (s + 1)) as (c & ->); [lia|].
  destruct (load_exists (data im) (s - 1)) as (d & ->); [lia|].
  simpl. eauto.
Qed.

Lemma pixel_gradient_total (im : Mat IT) (x y : Z) :
  gradient_ready im -> 1 <= x -> 1 <= y ->
  exists r, pixel_gradient IT sdiff im x y = Ok r.
Proof.
  intros (Hr & Hc & Hn & Hl) Hx Hy. unfold pixel_gradient, sample_addr.
  set (cx := Z.min x (cols im - 2)). set (cy := Z.min y (rows im - 2)).
  assert (Bx : 1 <= cx <= cols im - 2) by (unfold cx; lia).
  assert (By : 1 <= cy <= rows im - 2) by (unfold cy; lia).
  clearbody cx cy.
  set (w := cols im) in *. set (h := rows im) in *. set (n := channels im) in *.
  set (len := Z.of_nat (length (data im))) in *.
  assert (S0 : w <= cx + cy * w) by nia.
  assert (S1 : cx + cy * w + w < w * h) by nia.
  assert (S2 : w * h <= len) by (rewrite Hl; nia).
  destruct (gradient_total im (cx + cy * w)) as ([[dx dy] v] & ->);
    [exact S0 | fold w; lia | fold w len; lia |].
  simpl. destruct (n =? 3) eqn:C3; [|eauto].
  apply Z.eqb_eq in C3. rewrite C3 in Hl.
  destruct (gradient_total im (cx + cy * w + w * h))
    as ([[dxg dyg] vg] & ->); [fold w; nia | fold w; lia | fold w len; nia |].
  destruct (gradient_total im (cx + cy * w + w * h + w * h))
    as ([[dxr dyr] vr] & ->); [fold w; nia | fold w; lia | fold w len; nia |].
  simpl. destruct (Rltb v vg); [destruct (Rltb vg vr) | destruct (Rltb v vr)]; simpl; eauto.
Qed.

(** The orientation bin is one of the 18. *)
Lemma snap_range (dx dy : R) : 0 <= snap dx dy < norient_.
Proof.
  unfold snap.
  assert (G : forall (l : list Z) (acc : R * Z),
             (forall o, In o l -> 0 <= o < 9) -> 0 <= snd acc < 18 ->
             0 <= snd (fold_left
                         (fun '(best_dot, best_o) o =>
                            let dot := add (mul (nth (Z.to_nat o) uu zero) dx)
                                           (mul (nth (Z.to_nat o) vv zero) dy) in
                            if ltb best_dot dot then (dot, o)
                            else if ltb best_dot (opp dot) then (opp dot, o + 9)
                            else (best_dot, best_o)) l acc) < 18).
  { induction l as [|o l IH]; intros [bd bo] Hl Ha; simpl; [exact Ha|].
    apply IH; [intros; apply Hl; right; assumption|].
    pose proof (Hl o (or_introl eq_refl)).
    destruct (Rltb bd _); [simpl; lia|]. destruct (Rltb bd _); simpl; simpl in Ha; lia. }
  unfold norient_. apply G; [|simpl; lia].
  intros o Ho. apply in_range in Ho. change (18 / 2) with 9 in Ho. exact Ho.
Qed.

(** Every write of a visited pixel is inside the histogram. *)
Lemma contributions_in_bounds (im : Mat IT) (x y : Z) (dx dy v : R) :
  let g := geometry IT binsize_ im in
  1 <= x <= vis_width g - 2 -> 1 <= y <= vis_height g - 2 ->
  Forall (fun w : Z * R => 0 <= fst w < blocks_width g * norient_ * blocks_height g)
         (contributions binsize_ g x y dx dy v).
Proof.
  intros g Hx Hy. unfold contributions. cbv zeta.
  pose proof (snap_range dx dy) as Ho. unfold norient_ in *.
  set (o := snap dx dy) in *.
  pose proof (cell_coord_bounds binsize_ y (blocks_height g) binsize_pos Hy) as By.
  pose proof (cell_coord_bounds binsize_ x (blocks_width g) binsize_pos Hx) as Bx.
  unfold dec. exact_ops. change (10 ^ 1) with 10.
  set (iyp := Zfloor ((IZR y + 5 / 10) / IZR binsize_ - 5 / 10)) in *.
  set (ixp := Zfloor ((IZR x + 5 / 10) / IZR binsize_ - 5 / 10)) in *.
  set (bw := blocks_width g) in *. set (bh := blocks_height g) in *.
  repeat (apply Forall_app; split);
    match goal with |- Forall _ (if ?c then _ else _) => destruct c eqn:C end;
    try (constructor; [unfold fst | constructor]); try constructor;
    apply andb_prop in C as (C1 & C2);
    repeat match goal with
           | H : (_ <=? _) = true |- _ => apply Z.leb_le in H
           | H : (_ <? _) = true |- _ => apply Z.ltb_lt in H
           end; nia.
Qed.

Lemma assign_all_total (ws : list (Z * R)) (hist : list R) :
  Forall (fun w : Z * R => 0 <= fst w < Z.of_nat (length hist)) ws ->
  exists hist', assign_all hist ws = Ok hist' /\ length hist' = length hist.
Proof.
  intros Hw. revert hist Hw. induction ws as [|[i v] ws IH]; simpl; intros hist Hw.
  - eauto.
  - inversion Hw as [|w l Hi Hl]; subst. simpl in Hi.
    rewrite store_total by exact Hi. simpl.
    destruct (IH (upd hist (Z.to_nat i) v)) as (h' & -> & L).
    + rewrite length_upd. exact Hl.
    + exists h'. rewrite L, length_upd. auto.
Qed.

Lemma histogram_pass_total (im : Mat IT) (hist : list R) :
  let g := geometry IT binsize_ im in
  gradient_ready im ->
  Z.of_nat (length hist) = blocks_width g * norient_ * blocks_height g ->
  exists hist', histogram_pass IT sdiff binsize_ im g hist = Ok hist' /\
                length hist' = length hist.
Proof.
  intros g Hg Hl. unfold histogram_pass.
  apply (for_each_total (fun h : list R => length h = length hist)); [|reflexivity].
  intros y h1 Hy L1. apply in_range in Hy.
  apply (for_each_total (fun h : list R => length h = length hist)); [|exact L1].
  intros x h2 Hx L2. apply in_range in Hx.
  destruct (pixel_gradient_total im x y Hg) as ([[dx dy] v] & ->); [lia | lia |].
  simpl.
  destruct (assign_all_total (contributions binsize_ g x y dx dy v) h2) as (h' & -> & L).
  - rewrite L2, Hl. subst g. apply contributions_in_bounds; lia.
  - exists h'. split; [reflexivity | congruence].
Qed.

Lemma energy_pass_total (g : Geometry) (hist norm : list R) :
  0 <= blocks_width g -> 0 <= blocks_height g ->
  Z.of_nat (length hist) = blocks_width g * norient_ * blocks_height g ->
  Z.of_nat (length norm) = blocks_width g * blocks_height g ->
  exists norm', energy_pass g hist norm = Ok norm' /\ length norm' = length norm.
Proof.
  intros Hw Hh Lh Ln. unfold energy_pass. unfold norient_ in *.
  apply (for_each_total (fun n : list R => length n = length norm)); [|reflexivity].
  intros i n1 Hi L1. apply in_range in Hi.
  apply (for_each_total (fun n : list R => length n = length norm)); [|exact L1].
  intros o n2 Ho L2. apply in_range in Ho.
  rewrite (load_total n2 i 0%R) by (rewrite L2; lia). simpl.
  rewrite (load_total hist (i * 18 + o) 0%R) by nia. simpl.
  change (18 / 2) with 9.
  rewrite (load_total hist (i * 18 + 9 + o) 0%R) by nia. simpl.
  rewrite store_total by (rewrite L2; lia).
  eexists. split; [reflexivity|]. rewrite length_upd. exact L2.
Qed.

Lemma normalizer_total (g : Geometry) (norm : list R) (p : Z) :
  0 <= p -> 0 <= out_width g -> p + out_width g + 1 < Z.of_nat (length norm) ->
  exists n, normalizer g norm p = Ok n.
Proof.
  intros H0 Hw H1. unfold normalizer.
  rewrite (load_total norm p 0%R) by lia. simpl.
  rewrite (load_total norm (p + 1) 0%R) by lia. simpl.
  rewrite (load_total norm (p + out_width g) 0%R) by lia. simpl.
  rewrite (load_total norm (p + out_width g + 1) 0%R) by lia. simpl.
  eauto.
Qed.

Lemma normalizers_total (g : Geometry) (hist norm feat : list R) (y x : Z) :
  cell_ready g hist norm feat y x -> exists n, normalizers g norm y x = Ok n.
Proof.
  intros [Hw Hh Hy Hx _ Ln _]. unfold normalizers.
  set (ow := out_width g) in *. set (oh := out_height g) in *.
  rewrite Hw, Hh in Ln.
  destruct (normalizer_total g norm ((y + 1) * ow + (x + 1))) as (n1 & ->);
    [nia | fold ow; lia | fold ow; nia |].
  destruct (normalizer_total g norm (y * ow + (x + 1))) as (n2 & ->);
    [nia | fold ow; lia | fold ow; nia |].
  destruct (normalizer_total g norm ((y + 1) * ow + x)) as (n3 & ->);
    [nia | fold ow; lia | fold ow; nia |].
  destruct (normalizer_total g norm (y * ow + x)) as (n4 & ->);
    [nia | fold ow; lia | fold ow; nia |].
  simpl. eauto.
Qed.

Lemma cell_total (g : Geometry) (hist norm feat : list R) (y x : Z) :
  cell_ready g hist norm feat y x ->
  exists feat', cell g hist norm y x feat = Ok feat' /\ length feat' = length feat.
Proof.
  intros Hc. destruct (normalizers_total _ _ _ _ _ _ Hc) as ([[[n1 n2] n3] n4] & N).
  destruct Hc as [Hw Hh Hy Hx Lh _ Lf].
  unfold cell. rewrite N. cbn [bind truncated].
  set (ow := out_width g) in *. set (oh := out_height g) in *.
  set (bw := blocks_width g) in *. set (bh := blocks_height g) in *.
  set (dst0 := (y * ow + x) * flen_). set (src0 := ((y + 1) * bw + (x + 1)) * norient_).
  unfold flen_, norient_ in *.
  assert (Bd : 0 <= dst0 /\ dst0 + 32 <= Z.of_nat (length feat)) by (unfold dst0; nia).
  assert (Bs : 0 <= src0 /\ src0 + 18 <= Z.of_nat (length hist)) by (unfold src0; nia).
  clearbody dst0 src0.
  destruct (for_each_range_total
              (fun k (st : cell_state) =>
                 length (fst (fst (fst st))) = length feat /\
                 snd (fst (fst st)) = dst0 + k /\ snd (fst st) = src0 + k)
              (fun _ : Z => sensitive_step hist (n1, n2, n3, n4)) 18 0
              (feat, dst0, src0, (@zero R RealExact, @zero R RealExact, @zero R RealExact, @zero R RealExact)))
    as ([[[f1 d1] s1] t] & -> & L1 & D1 & _); [lia | | cbn [fst snd]; lia |].
  { intros k [[[f d] s] [[[t1 t2] t3] t4]] Hk (L & D & S). cbn [fst snd] in L, D, S. subst d s.
    unfold sensitive_step.
    rewrite (load_total hist (src0 + k) 0%R) by lia. cbn [bind truncated].
    rewrite store_total by (rewrite L; lia). cbn [bind truncated].
    eexists. split; [reflexivity|]. cbn [fst snd]. rewrite length_upd. lia. }
  cbn [fst snd] in L1, D1. cbn [bind truncated]. change (18 / 2) with 9.
  destruct (for_each_range_total
              (fun k (st : cell_state) =>
                 length (fst (fst (fst st))) = length feat /\
                 snd (fst (fst st)) = dst0 + 18 + k /\ snd (fst st) = src0 + k)
              (fun _ : Z => insensitive_step hist (n1, n2, n3, n4)) 9 0
              (f1, d1, src0, t))
    as ([[[f2 d2] s2] [[[t1 t2] t3] t4]] & -> & L2 & D2 & _); [lia | | cbn [fst snd]; lia |].
  { intros k [[[f d] s] t'] Hk (L & D & S). cbn [fst snd] in L, D, S. subst d s.
    unfold insensitive_step, norient_. change (18 / 2) with 9.
    rewrite (load_total hist (src0 + k) 0%R) by lia. cbn [bind truncated].
    rewrite (load_total hist (src0 + k + 9) 0%R) by lia. cbn [bind truncated].
    rewrite store_total by (rewrite L; lia). cbn [bind truncated].
    eexists. split; [reflexivity|]. cbn [fst snd]. rewrite length_upd. lia. }
  cbn [fst snd] in L2, D2. cbn [bind truncated].
  rewrite store_total by lia. cbn [bind truncated].
  rewrite store_total by (rewrite length_upd; lia). cbn [bind truncated].
  rewrite store_total by (rewrite !length_upd; lia). cbn [bind truncated].
  rewrite store_total by (rewrite !length_upd; lia). cbn [bind truncated].
  rewrite store_total by (rewrite !length_upd; lia).
  eexists. split; [reflexivity|]. rewrite !length_upd. exact L2.
Qed.

Lemma feature_pass_total (g : Geometry) (hist norm feat : list R) :
  blocks_width g = out_width g + 2 \/ out_width g = 0 ->
  blocks_height g = out_height g + 2 \/ out_height g = 0 ->
  Z.of_nat (length hist) = blocks_width g * norient_ * blocks_height g ->
  Z.of_nat (length norm) = blocks_width g * blocks_height g ->
  Z.of_nat (length feat) = out_width g * flen_ * out_height g ->
  exists feat', feature_pass g hist norm feat = Ok feat' /\ length feat' = length feat.
Proof.
  intros Hw Hh Lh Ln Lf. unfold feature_pass.
  apply (for_each_total (fun f : list R => length f = length feat)); [|reflexivity].
  intros y f1 Hy L1. apply in_range in Hy.
  apply (for_each_total (fun f : list R => length f = length feat)); [|exact L1].
  intros x f2 Hx L2. apply in_range in Hx.
  destruct (cell_total g hist norm f2 y x) as (f' & -> & L).
  - constructor; try assumption; lia.
  - exists f'. split; [reflexivity | congruence].
Qed.

(** In exact arithmetic the extractor returns a feature map for every
    well-formed image of at least 3 rows and 3 columns: no access leaves
    its buffer. *)
Lemma features_exact_total (im : Mat IT) :
  gradient_ready im -> exists featm, features IT sdiff binsize_ T_depth im = Ok featm.
Proof.
  intros Hg. unfold features, zeros. cbv zeta. cbn [data].
  remember (geometry IT binsize_ im) as g eqn:Eg.
  assert (Bw : 0 <= blocks_width g).
  { subst g. apply round_div_nonneg; [destruct Hg as (_ & ? & _); lia | exact binsize_pos]. }
  assert (Bh : 0 <= blocks_height g).
  { subst g. apply round_div_nonneg; [destruct Hg as (? & _); lia | exact binsize_pos]. }
  assert (Ow : blocks_width g = out_width g + 2 \/ out_width g = 0) by (subst g; simpl; lia).
  assert (Oh : blocks_height g = out_height g + 2 \/ out_height g = 0) by (subst g; simpl; lia).
  assert (Op : 0 <= out_width g /\ 0 <= out_height g) by (subst g; simpl; lia).
  pose proof (histogram_pass_total im
                (repeat zero (Z.to_nat (blocks_width g * norient_ * blocks_height g))) Hg) as Hh.
  cbv zeta in Hh. rewrite <- Eg in Hh.
  destruct Hh as (hist & -> & Lh).
  { rewrite repeat_length. unfold norient_. nia. }
  cbn [bind]. rewrite repeat_length in Lh.
  destruct (energy_pass_total g hist (repeat zero (Z.to_nat (blocks_width g * blocks_height g))))
    as (norm & -> & Ln); try assumption.
  { rewrite Lh. unfold norient_. nia. }
  { rewrite repeat_length. nia. }
  cbn [bind]. rewrite repeat_length in Ln.
  destruct (feature_pass_total g hist norm
              (repeat zero (Z.to_nat (out_width g * flen_ * out_height g))))
    as (feat & -> & Lf); try assumption.
  - rewrite Lh. unfold norient_. nia.
  - rewrite Ln. nia.
  - rewrite repeat_length. unfold flen_. nia.
  - cbn [bind]. eauto.
Qed.

End ExactAccess.


Lemma spot_gradient_ready : gradient_ready spot.
Proof. repeat split; vm_compute; congruence. Qed.

Lemma features_exact_bounded_witness :
  exists featm : Mat R,
    features Z int_diff 8 CV_64F spot = Ok featm /\
    0 <= 0 < rows featm /\ 0 <= 0 /\ 0 * flen_ < cols featm /\ 0 <= 9 < 27 /\
    (0 <= at_ 0 featm 0 (0 * flen_ + 9) <= 4 / 10)%R.
Proof.
  assert (P : 0 < 8) by lia.
  destruct (features_exact_total Z int_diff 8 CV_64F P spot spot_gradient_ready) as (featm & E).
  exists featm.
  destruct (features_shape _ _ _ _ _ _ E) as (Sr & Sc).
  change (rows featm = 1) in Sr. change (cols featm = 32) in Sc.
  assert (H1 : 0 <= 0 < rows featm) by lia.
  assert (H2 : 0 <= 0) by lia.
  assert (H3 : 0 * flen_ < cols featm) by (unfold flen_; lia).
  assert (H4 : 0 <= 9 < 27) by lia.
  repeat (split; [assumption|]).
  exact (features_exact_bounded Z int_diff 8 CV_64F spot featm 0 0 9 E H1 H2 H3 H4).
Defined.


(** ** The response engine on valid inputs: every response, in order *)

Section ConvolveAll.
Context {T : Type} `{Real T}.

Lemma upd_middle {A} (l1 l2 : list A) (a v : A) :
  upd (l1 ++ a :: l2) (length l1) v = l1 ++ v :: l2.
Proof. induction l1 as [|x l1 IH]; simpl; [reflexivity | f_equal; exact IH]. Qed.

Lemma written_prefix {A} (vals : list A) (r : nat) (rw cl cn : Z) (d : Depth) :
  written (mkMat rw cl cn d (map Some vals ++ repeat None r)) = vals.
Proof.
  unfold written. simpl. rewrite flat_map_app.
  assert (E1 : forall l : list A, flat_map (fun c : option A => match c with Some v => [v] | None => [] end) (map Some l) = l).
  { induction l as [|x l IH]; simpl; [reflexivity | f_equal; exact IH]. }
  assert (E2 : forall n, flat_map (fun c : option A => match c with Some v => [v] | None => [] end) (repeat None n) = []).
  { induction n as [|n IH]; simpl; auto. }
  rewrite E1, E2. apply app_nil_r.
Qed.

(** The window is inside the feature map at every visited position. *)
Lemma convolve_at_window (feature filter : Mat T) (m n : Z) :
  1 <= rows filter -> 0 <= cols filter ->
  Z.of_nat (length (data filter)) = rows filter * cols filter ->
  Z.of_nat (length (data feature)) = rows feature * cols feature ->
  0 <= m -> m + rows filter <= rows feature ->
  0 <= n -> n + cols filter <= cols feature ->
  convolve_at feature filter m n
  = Ok (leading_rows_product feature filter m n (rows filter - 1)).
Proof.
  intros HH HW Lf Lg Hm Hm' Hn Hn'. unfold convolve_at.
  set (W := cols filter) in *. set (C := cols feature) in *.
  destruct (for_each_range_total
              (fun k (st : T * Z * Z) =>
                 st = (leading_rows_product feature filter m n (Z.max (k - 1) 0),
                       Z.max (k - 1) 0 * W,
                       (m + Z.max (k - 1) 0) * C + n))
              (convolve_row feature filter m n) (rows filter) 0 (zero, 0, m * C + n))
    as ([[a fp] gp] & -> & E); [lia | | simpl; do 2 f_equal; lia |].
  - intros h st Hh ->. unfold convolve_row. fold W C.
    destruct (Z.eq_dec h 0) as [->|Nh].
    + simpl. eexists. split; [reflexivity|]. simpl. do 2 f_equal.
    + replace (Z.max (h - 1) 0) with (h - 1) by lia.
      replace (Z.max (h + 1 - 1) 0) with h by lia.
      replace (Z.to_nat (h * W - (h - 1) * W)) with (Z.to_nat W) by lia.
      rewrite mac_value by nia. cbn [bind].
      eexists. split; [reflexivity|]. f_equal. f_equal; [|lia].
      symmetry. unfold leading_rows_product at 1.
      replace (range 0 h) with (range 0 (h - 1) ++ [h - 1])
        by (rewrite <- range_snoc by lia; f_equal; lia).
      rewrite fold_left_app. cbn [fold_left]. fold W.
      fold (leading_rows_product feature filter m n (h - 1)).
      rewrite Z2Nat.id by lia.
      apply fold_left_same. intros acc w. unfold at_. fold W C.
      do 3 f_equal; f_equal; lia.
  - cbn [bind]. injection E as -> _ _. do 2 f_equal. lia.
Qed.

(** The [n] loop appends one response per visited column to the written
    prefix of the buffer. *)
Lemma column_loop_appends (feature filter : Mat T) (m : Z) (f : Z -> T) (ns : list Z) :
  (forall n, In n ns -> convolve_at feature filter m n = Ok (f n)) ->
  forall (vals : list T) (r : nat),
    (length ns <= r)%nat ->
    for_each ns
      (fun n '(buf, pdf_ptr) =>
         accum <- convolve_at feature filter m n ;;
         buf' <- store buf pdf_ptr (Some accum) ;;
         Ok (buf', pdf_ptr + 1))
      (map Some vals ++ repeat None r, Z.of_nat (length vals))
    = Ok (map Some (vals ++ map f ns) ++ repeat None (r - length ns),
          Z.of_nat (length (vals ++ map f ns))).
Proof.
  induction ns as [|n ns IH]; intros Hf vals r Hr.
  - simpl. rewrite app_nil_r, Nat.sub_0_r. reflexivity.
  - cbn [for_each]. rewrite (Hf n (or_introl eq_refl)). cbn [bind].
    destruct r as [|r]; [simpl in Hr; lia|].
    rewrite store_total
      by (rewrite length_app, length_map, repeat_length; lia).
    cbn [bind]. rewrite Nat2Z.id.
    replace (length vals) with (length (map (@Some T) vals)) at 1 by apply length_map.
    cbn [repeat]. rewrite upd_middle.
    replace (map Some vals ++ Some (f n) :: repeat None r)
      with (map Some (vals ++ [f n]) ++ repeat (@None T) r)
      by (rewrite map_app, <- app_assoc; reflexivity).
    replace (Z.of_nat (length vals) + 1) with (Z.of_nat (length (vals ++ [f n])))
      by (rewrite length_app; simpl; lia).
    rewrite IH; [|intros; apply Hf; right; assumption | simpl in Hr; lia].
    cbn [map length]. rewrite <- app_assoc. reflexivity.
Qed.

(** The [m] loop appends the responses of one row after another. *)
Lemma row_loop_appends (feature filter : Mat T) (f : Z -> Z -> T)
    (ns : list Z) (ms : list Z) :
  (forall m n, In m ms -> In n ns -> convolve_at feature filter m n = Ok (f m n)) ->
  forall (vals : list T) (r : nat),
    (length ms * length ns <= r)%nat ->
    for_each ms
      (fun m st =>
         for_each ns
           (fun n '(buf, pdf_ptr) =>
              accum <- convolve_at feature filter m n ;;
              buf' <- store buf pdf_ptr (Some accum) ;;
              Ok (buf', pdf_ptr + 1))
           st)
      (map Some vals ++ repeat None r, Z.of_nat (length vals))
    = Ok (map Some (vals ++ flat_map (fun m => map (f m) ns) ms)
            ++ repeat None (r - length ms * length ns),
          Z.of_nat (length (vals ++ flat_map (fun m => map (f m) ns) ms))).
Proof.
  induction ms as [|m ms IH]; intros Hf vals r Hr.
  - simpl. rewrite app_nil_r, Nat.sub_0_r. reflexivity.
  - cbn [for_each].
    rewrite (column_loop_appends feature filter m (f m) ns)
      by (try (intros; apply Hf; [left; reflexivity | assumption]); simpl in Hr; lia).
    rewrite IH; [|intros; apply Hf; [right|]; assumption
                 |simpl in Hr; lia].
    cbn [flat_map length]. rewrite <- app_assoc.
    replace (r - S (length ms) * length ns)%nat
      with (r - length ns - length ms * length ns)%nat by lia.
    reflexivity.
Qed.

End ConvolveAll.

Lemma strided_multiples (D stride : Z) :
  0 < stride -> 0 <= D -> Z.rem D stride = 0 ->
  strided 0 (D + stride) stride = Ok (map (fun j => j * stride) (range 0 (D / stride + 1))).
Proof.
  intros Hs HD Hr. unfold strided.
  replace (D + stride <=? 0) with false by (symmetry; apply Z.leb_gt; lia).
  replace (stride <=? 0) with false by (symmetry; apply Z.leb_gt; lia).
  f_equal. unfold range. rewrite map_map.
  assert (E : (D + stride - 0 + stride - 1) / stride = D / stride + 1 - 0).
  { rewrite Z.rem_mod_nonneg in Hr by lia.
    apply Z.div_exact in Hr; [|lia].
    set (q := D / stride) in *.
    replace (D + stride - 0 + stride - 1) with ((q + 1) * stride + (stride - 1)) by lia.
    rewrite Z.div_add_l by lia. rewrite (Z.div_small (stride - 1)) by lia. lia. }
  rewrite E. apply map_ext. intros k. lia.
Qed.

Section ConvolveValid.
Context {T : Type} `{Real T}.

Lemma convolve_valid_run (feature filter : Mat T) (stride : Z) :
  depth feature = depth filter ->
  0 < stride ->
  Z.rem (cols feature) stride = 0 -> Z.rem (cols filter) stride = 0 ->
  1 <= rows filter <= rows feature ->
  0 <= cols filter <= cols feature ->
  1 <= channels feature ->
  Z.of_nat (length (data filter)) = rows filter * cols filter ->
  Z.of_nat (length (data feature)) = rows feature * cols feature ->
  exists pdf,
    convolve feature filter stride = Ok pdf /\
    written pdf = responses_in_order feature filter stride /\
    data pdf =
      map Some (responses_in_order feature filter stride)
      ++ repeat None
           (Z.to_nat ((rows feature - rows filter + 1)
                      * (cols feature - cols filter + stride) * channels feature)
            - length (responses_in_order feature filter stride)).
Proof.
  intros Hd Hs Rc Rw Hrows Hcols Hcn Lf Lg.
  set (M := rows feature - rows filter + 1).
  set (D := cols feature - cols filter).
  assert (RD : Z.rem D stride = 0).
  { apply Z.rem_divide in Rc; [|lia]. apply Z.rem_divide in Rw; [|lia].
    apply Z.rem_divide; [lia|]. unfold D. apply Z.divide_sub_r; assumption. }
  assert (ED : D = D / stride * stride).
  { rewrite Z.rem_mod_nonneg in RD by (unfold D; lia).
    apply Z.div_exact in RD; [|lia]. lia. }
  set (K := D / stride + 1).
  assert (HK : 1 <= K) by (unfold K; assert (0 <= D / stride) by (apply Z.div_pos; unfold D; lia); lia).
  unfold convolve. rewrite Hd.
  replace (depth_eqb (depth filter) (depth filter)) with true by (destruct (depth filter); reflexivity).
  replace (stride =? 0) with false by (symmetry; apply Z.eqb_neq; lia).
  rewrite Rc, Rw. cbn [negb Z.eqb andb]. cbv zeta. fold M. fold D.
  rewrite strided_multiples by (unfold D; lia || exact RD). fold K.
  unfold create.
  replace ((M <? 0) || (D + stride <? 0)) with false
    by (symmetry; apply orb_false_iff; split; apply Z.ltb_ge; unfold M, D; lia).
  cbn [bind data rows cols channels depth].
  set (f := fun m n => leading_rows_product feature filter m n (rows filter - 1)).
  set (cap := Z.to_nat (M * (D + stride) * channels feature)).
  pose proof (row_loop_appends feature filter f
                (map (fun j => j * stride) (range 0 K)) (range 0 M)) as L.
  assert (Hf : forall m n, In m (range 0 M) ->
                 In n (map (fun j => j * stride) (range 0 K)) ->
                 convolve_at feature filter m n = Ok (f m n)).
  { intros m n Hm Hn.
    apply in_range in Hm. apply in_map_iff in Hn as (j & <- & Hj). apply in_range in Hj.
    apply convolve_at_window; try lia; unfold M, K in *; nia. }
  specialize (L Hf [] cap). cbn [map app length] in L.
  change (Z.of_nat 0) with 0 in L.
  rewrite L.
  2:{ rewrite length_range, length_map, length_range, !Z.sub_0_r. unfold cap.
      assert (HM : 1 <= M) by (unfold M; lia).
      assert (HD : 0 <= D / stride) by (apply Z.div_pos; unfold D; lia).
      assert (HKN : K <= D + stride) by (unfold K; nia).
      rewrite <- Z2Nat.inj_mul by lia.
      apply Z2Nat.inj_le; [nia | nia |].
      apply Z.le_trans with (M * (D + stride)); [nia|].
      assert (0 <= M * (D + stride)) by nia. nia. }
  cbn [bind].
  assert (EV : flat_map (fun m => map (f m) (map (fun j => j * stride) (range 0 K))) (range 0 M)
               = responses_in_order feature filter stride).
  { unfold responses_in_order. fold M D K. apply flat_map_ext. intros m.
    rewrite map_map. reflexivity. }
  rewrite EV. eexists. split; [reflexivity|]. split.
  - apply written_prefix.
  - cbn [data].
    assert (EL : length (responses_in_order feature filter stride)
                 = (length (range 0 M) * length (map (fun j => (j * stride)%Z) (range 0 K)))%nat).
    { rewrite <- EV, (flat_map_constant_length (c := Z.to_nat K)).
      - rewrite length_map, !length_range, !Z.sub_0_r. reflexivity.
      - intros m _. rewrite !length_map, length_range. f_equal. lia. }
    rewrite EL. reflexivity.
Qed.

(** X5: for a well-formed feature map and filter of equal depth, with
    [stride > 0], both column counts multiples of [stride] and the filter no
    larger than the feature map, [convolve] returns a response map; the
    cells it wrote are the responses row by row, one per window position,
    each the inner product with the first [filterRows - 1] filter rows, and
    they fill a prefix of a buffer of
    [(featureRows - filterRows + 1) * (featureCols - filterCols + stride)]
    cells per channel. *)
Theorem convolve_responses (feature filter : Mat T) (stride : Z) :
  depth feature = depth filter ->
  0 < stride ->
  Z.rem (cols feature) stride = 0 -> Z.rem (cols filter) stride = 0 ->
  1 <= rows filter <= rows feature ->
  0 <= cols filter <= cols feature ->
  1 <= channels feature ->
  Z.of_nat (length (data filter)) = rows filter * cols filter ->
  Z.of_nat (length (data feature)) = rows feature * cols feature ->
  exists pdf,
    convolve feature filter stride = Ok pdf /\
    written pdf = responses_in_order feature filter stride /\
    data pdf =
      map Some (responses_in_order feature filter stride)
      ++ repeat None
           (Z.to_nat ((rows feature - rows filter + 1)
                      * (cols feature - cols filter + stride) * channels feature)
            - length (responses_in_order feature filter stride)).
Proof. exact (convolve_valid_run feature filter stride). Qed.

End ConvolveValid.

(** ** The batch of responses: [HOGFeatures<T>::pdf] *)

Section Batch.
Context {T : Type} `{Real T}.

(** X6: whenever [pdf] returns, there is one response per (feature map,
    filter) pair, and the response of feature map [m] and filter [n] is what
    [convolve] returns for that pair, stored at index [m * filters + n]
    (the filter index varies fastest). *)
Theorem pdf_layout (stride : Z) (features filters : list (Mat T))
    (responses : list (Mat (option T))) :
  pdf stride features filters = Ok responses ->
  length responses = (length features * length filters)%nat /\
  forall m n : nat,
    (m < length features)%nat -> (n < length filters)%nat ->
    convolve (nth m features emptyMat) (nth n filters emptyMat) stride
    = Ok (nth (m * length filters + n) responses emptyMat).
Proof.
  unfold pdf. cbv zeta. intros E.
  set (M := Z.of_nat (length features)) in *. set (N := Z.of_nat (length filters)) in *.
  apply (for_each_fill
           (fun i => convolve (nth (Z.to_nat (Z.quot i N)) features emptyMat)
                              (nth (Z.to_nat (Z.rem i N)) filters emptyMat) stride)
           (fun response => response) emptyMat) in E;
    [|lia|rewrite repeat_length; lia].
  destruct E as (El & Ev & _). rewrite repeat_length in El. split.
  - rewrite El. unfold M, N. lia.
  - intros m n Hm Hn.
    destruct (Ev (Z.of_nat m * N + Z.of_nat n)) as (v & Ec & En); [unfold M, N; nia|].
    assert (Q : Z.quot (Z.of_nat m * N + Z.of_nat n) N = Z.of_nat m).
    { rewrite Z.quot_div_nonneg by (unfold N; nia).
      symmetry. apply (Z.div_unique _ _ _ (Z.of_nat n)); unfold N; lia. }
    assert (R : Z.rem (Z.of_nat m * N + Z.of_nat n) N = Z.of_nat n).
    { rewrite Z.rem_mod_nonneg by (unfold N; nia).
      symmetry. apply (Z.mod_unique _ _ (Z.of_nat m)); unfold N; lia. }
    rewrite Q, R, !Nat2Z.id in Ec. rewrite Ec. f_equal. rewrite <- En.
    f_equal. unfold N. lia.
Qed.

(** X7: [pdf] stops only where a [convolve] stops: when it returns an
    error, that error is the one [convolve] returns for some pair of a
    feature map and a filter of the batch. *)
Theorem pdf_error_origin (stride : Z) (features filters : list (Mat T)) (e : error) :
  pdf stride features filters = Err e ->
  exists m n : nat,
    (m < length features)%nat /\ (n < length filters)%nat /\
    convolve (nth m features emptyMat) (nth n filters emptyMat) stride = Err e.
Proof.
  unfold pdf. cbv zeta. intros E.
  set (N := Z.of_nat (length filters)) in *.
  apply for_each_err in E as (i & acc & Hi & E). apply in_range in Hi.
  apply bind_err in E as [E | (r & _ & E)]; [|discriminate].
  assert (N0 : 0 < N) by nia.
  exists (Z.to_nat (Z.quot i N)), (Z.to_nat (Z.rem i N)).
  rewrite Z.quot_div_nonneg, Z.rem_mod_nonneg in * by lia.
  pose proof (Z.mod_pos_bound i N N0) as Bm.
  assert (Bd : 0 <= i / N < Z.of_nat (length features)).
  { split; [apply Z.div_pos; lia|]. apply Z.div_lt_upper_bound; [lia|]. nia. }
  revert E. generalize (i / N) (i mod N) Bd Bm. unfold N. intros q r Bq Br E.
  split; [lia|]. split; [lia | exact E].
Qed.

End Batch.

(** ** The images of the pyramid levels *)

Lemma in_strided (lo hi step : Z) (js : list Z) (j : Z) :
  0 < step -> strided lo hi step = Ok js ->
  (In j js <-> exists t, 0 <= t /\ j = lo + t * step /\ j < hi).
Proof.
  intros Hs. unfold strided. destruct (hi <=? lo) eqn:C.
  - intros E. injection E as <-. apply Z.leb_le in C. split; [intros []|].
    intros (t & Ht & -> & L). nia.
  - replace (step <=? 0) with false by (symmetry; apply Z.leb_gt; lia).
    intros E. injection E as <-. apply Z.leb_gt in C.
    pose proof (Z.mul_div_le (hi - lo + step - 1) step Hs) as Q.
    assert (Q0 : 0 <= (hi - lo + step - 1) / step) by (apply Z.div_pos; lia).
    rewrite in_map_iff. split.
    + intros (k & <- & I). apply in_seq in I. exists (Z.of_nat k).
      split; [lia|]. split; [reflexivity|].
      revert Q Q0 I. generalize ((hi - lo + step - 1) / step). intros q Q Q0 I. nia.
    + intros (t & Ht & -> & L). exists (Z.to_nat t). split; [lia|]. apply in_seq.
      assert (Q1 : t + 1 <= (hi - lo + step - 1) / step)
        by (apply Z.div_le_lower_bound; [lia | nia]).
      revert Q1 Q0. generalize ((hi - lo + step - 1) / step). intros q Q1 Q0. lia.
Qed.

Lemma for_each_store_const {A} (v d : A) (js : list Z) :
  (forall j, In j js -> 0 <= j) ->
  forall init, exists res,
    for_each js (fun j acc => Ok (upd acc (Z.to_nat j) v)) init = Ok res /\
    length res = length init /\
    (forall n, (n < length init)%nat -> In (Z.of_nat n) js -> nth n res d = v) /\
    (forall n, ~ In (Z.of_nat n) js -> nth n res d = nth n init d).
Proof.
  induction js as [|j js IH]; intros Hj init.
  - exists init. simpl. repeat split; auto. intros n _ [].
  - simpl. destruct (IH (fun k I => Hj k (or_intror I)) (upd init (Z.to_nat j) v))
      as (res & E & L & In_ & Out).
    rewrite length_upd in L. exists res. split; [exact E|]. split; [exact L|]. split.
    + intros n Hn [Hx | Hx].
      * destruct (in_dec Z.eq_dec (Z.of_nat n) js) as [I | I].
        -- apply In_; [rewrite length_upd; exact Hn | exact I].
        -- rewrite (Out n I). subst j. rewrite Nat2Z.id. apply nth_upd_same. exact Hn.
      * apply In_; [rewrite length_upd; exact Hn | exact Hx].
    + intros n Hx. rewrite Out by (intros I; apply Hx; right; exact I).
      apply nth_upd_other. intros Ej. apply Hx. left.
      pose proof (Hj j (or_introl eq_refl)). lia.
Qed.

Section PyramidLevels.
Variable IT : Type.
Variable resize : Mat IT -> Z -> Z -> Mat IT.
Variable pyrDown : Mat IT -> Mat IT.
Variable nscales_ : Z.

Lemma pyramid_images_structure (im : Mat IT) :
  0 <= nscales_ ->
  exists pyraimages,
    pyramid_images IT resize pyrDown nscales_ im = Ok pyraimages /\
    length pyraimages = Z.to_nat nscales_ /\
    forall n, 0 <= n < nscales_ ->
      nth (Z.to_nat n) pyraimages emptyMat = level_image resize pyrDown nscales_ im n.
Proof.
  intros Hn. unfold pyramid_images.
  set (iv := interval nscales_).
  assert (Hiv : 0 <= iv) by (apply Z.div_pos; lia).
  destruct (for_each_range_total
              (fun k imgs =>
                 length imgs = Z.to_nat nscales_ /\
                 forall n, 0 <= n < nscales_ -> n mod iv < k ->
                   nth (Z.to_nat n) imgs emptyMat = level_image resize pyrDown nscales_ im n)
              (fun i pyraimages =>
                 let scaled := resize im i iv in
                 let pyraimages := upd pyraimages (Z.to_nat i) scaled in
                 js <- strided (i + iv) nscales_ iv ;;
                 for_each js
                   (fun j pyraimages => Ok (upd pyraimages (Z.to_nat j) (pyrDown scaled)))
                   pyraimages)
              iv 0 (repeat (@emptyMat IT) (Z.to_nat nscales_)))
    as (imgs & E & L & V); [exact Hiv| |..].
  - intros i imgs Hi (L & V). cbv zeta.
    assert (Hpos : 0 < iv) by lia.
    destruct (strided (i + iv) nscales_ iv) as [js|e] eqn:S.
    2:{ unfold strided in S. destruct (nscales_ <=? i + iv); [discriminate|].
        replace (iv <=? 0) with false in S by (symmetry; apply Z.leb_gt; lia).
        discriminate. }
    cbn [bind].
    pose proof (fun j => in_strided _ _ _ _ j Hpos S) as M.
    destruct (for_each_store_const (pyrDown (resize im i iv)) emptyMat js) with
      (init := upd imgs (Z.to_nat i) (resize im i iv)) as (res & E & Lr & In_ & Out).
    { intros j I. apply M in I as (t & Ht & -> & _). nia. }
    rewrite length_upd in Lr, In_.
    exists res. split; [exact E|]. split; [congruence|].
    intros n Rn Hm.
    pose proof (Z.mod_pos_bound n iv Hpos) as Bm.
    pose proof (Z.div_mod n iv ltac:(lia)) as Dm.
    assert (Dq : 0 <= n / iv) by (apply Z.div_pos; lia).
    destruct (Z.eq_dec (n mod iv) i) as [Ei | Ni].
    + unfold level_image. fold iv. destruct (n <? iv) eqn:C.
      * apply Z.ltb_lt in C. rewrite Z.mod_small in Ei by lia. subst n.
        rewrite Out.
        -- apply nth_upd_same. lia.
        -- rewrite Z2Nat.id by lia. intros I. apply M in I as (t & Ht & Et & _). nia.
      * apply Z.ltb_ge in C. rewrite Ei.
        replace (nth (Z.to_nat n) res emptyMat) with (pyrDown (resize im i iv)); [reflexivity|].
        symmetry. apply In_; [lia|]. rewrite Z2Nat.id by lia. apply M.
        exists (n / iv - 1). 
        assert (1 <= n / iv).
        { destruct (Z.eq_dec (n / iv) 0) as [Z0|]; [|lia]. rewrite Z0 in Dm. lia. }
        split; [lia|]. split; [|lia]. rewrite <- Ei. 
        revert Dm. generalize (n / iv) (n mod iv). intros q r Dm. nia.
    + rewrite Out.
      * rewrite nth_upd_other; [apply V; lia|]. intros Ej.
        apply Ni. rewrite <- (Z.mod_small i iv) by lia. f_equal. lia.
      * rewrite Z2Nat.id by lia. intros I. apply M in I as (t & Ht & Et & _).
        apply Ni. rewrite Et. replace (i + iv + t * iv) with (i + (1 + t) * iv) by ring.
        rewrite Z_mod_plus_full. apply Z.mod_small. lia.
  - split; [apply repeat_length|]. intros n Rn Hm.
    destruct (Z.eq_dec iv 0) as [Z0|NZ].
    + exfalso. unfold iv, interval in Z0.
      assert (1 <= (nscales_ + 2) / 3) by (apply Z.div_le_lower_bound; lia). lia.
    + pose proof (Z.mod_pos_bound n iv ltac:(lia)). lia.
  - exists imgs. split; [exact E|]. split; [exact L|]. intros n Rn. apply V; [exact Rn|].
    assert (0 < iv).
    { unfold iv, interval. 
      assert (1 <= (nscales_ + 2) / 3) by (apply Z.div_le_lower_bound; lia). lia. }
    apply Z.mod_pos_bound. lia.
Qed.

(** X8: for every requested number of levels, the first loop of [pyramid]
    returns one image per level: level [n] below [interval] holds the image
    resampled by [2^(-n/interval)], and every later level holds [pyrDown]
    of the resampled image of level [n mod interval]. *)
Theorem pyramid_images_levels (im : Mat IT) :
  0 <= nscales_ ->
  exists pyraimages,
    pyramid_images IT resize pyrDown nscales_ im = Ok pyraimages /\
    length pyraimages = Z.to_nat nscales_ /\
    forall n, 0 <= n < nscales_ ->
      nth (Z.to_nat n) pyraimages emptyMat
      = if n <? interval nscales_ then resize im n (interval nscales_)
        else pyrDown (resize im (n mod interval nscales_) (interval nscales_)).
Proof. exact (pyramid_images_structure im). Qed.

(** X9: [pyrDown] is applied to the resampled image only, never to its own
    result: whenever levels [n] and [n + interval] both lie past the first
    [interval] levels they hold the same image, so the third octave of the
    pyramid repeats the second. *)
Theorem pyramid_images_repeat (im : Mat IT) (pyraimages : list (Mat IT)) (n : Z) :
  pyramid_images IT resize pyrDown nscales_ im = Ok pyraimages ->
  interval nscales_ <= n -> n + interval nscales_ < nscales_ ->
  nth (Z.to_nat (n + interval nscales_)) pyraimages emptyMat
  = nth (Z.to_nat n) pyraimages emptyMat.
Proof.
  intros E Lo Hi.
  assert (Hn : 0 <= nscales_).
  { pose proof (Z.mul_succ_div_gt (nscales_ + 2) 3 ltac:(lia)) as G.
    unfold interval in Lo, Hi. revert Lo Hi G. generalize ((nscales_ + 2) / 3). intros q Lo Hi G.
    lia. }
  assert (Hiv : 0 <= interval nscales_) by (apply Z.div_pos; lia).
  destruct (pyramid_images_structure im) as (imgs & E' & _ & V); [lia|].
  rewrite E in E'. injection E' as <-.
  rewrite !V by lia. unfold level_image.
  replace (n + interval nscales_ <? interval nscales_) with false
    by (symmetry; apply Z.ltb_ge; lia).
  replace (n <? interval nscales_) with false by (symmetry; apply Z.ltb_ge; lia).
  replace (n + interval nscales_) with (n + 1 * interval nscales_) by ring.
  rewrite Z_mod_plus_full. reflexivity.
Qed.

End PyramidLevels.

(** ** From the pyramid to the response engine *)

Lemma copyMakeBorder_wf {A} (src : Mat A) (top bottom left right : Z) (value : A) :
  0 <= rows src + top + bottom -> 0 <= cols src + left + right ->
  let dst := copyMakeBorder src top bottom left right value in
  depth dst = depth src /\ channels dst = channels src /\
  Z.of_nat (length (data dst)) = rows dst * cols dst.
Proof.
  intros Hr Hc. unfold copyMakeBorder. cbn. split; [reflexivity|]. split; [reflexivity|].
  rewrite length_map, length_range. nia.
Qed.

Section PyramidToConvolve.
Context {T : Type} `{Real T}.
Variable IT : Type.
Variable sdiff : IT -> IT -> T.
Variable T_depth : Depth.
Variable resize : Mat IT -> Z -> Z -> Mat IT.
Variable pyrDown : Mat IT -> Mat IT.
Variable binsize_ : Z.
Variable nscales_ : Z.

Lemma pyramid_level_format (im : Mat IT) (pf : list (Mat T)) (scales : list T) (n : Z) :
  pyramid IT sdiff T_depth resize pyrDown binsize_ nscales_ im = Ok (pf, scales) ->
  0 <= n < nscales_ ->
  let level := nth (Z.to_nat n) pf emptyMat in
  depth level = T_depth /\ channels level = 1 /\
  3 <= rows level + 1 /\ 2 * flen_ <= cols level /\
  Z.rem (cols level) flen_ = 0 /\
  Z.of_nat (length (data level)) = rows level * cols level.
Proof.
  intros E Hn. unfold pyramid in E.
  destruct (nscales_ <? 0); [discriminate|].
  apply bind_ok in E as (imgs & I & E).
  apply bind_ok in E as (pf' & F & E). injection E as -> _.
  apply (for_each_fill
           (fun k => extract IT sdiff T_depth binsize_ im (nth (Z.to_nat k) imgs emptyMat))
           (fun feature => copyMakeBorder feature 1 1 flen_ flen_ one) emptyMat) in F;
    [|lia|rewrite repeat_length; lia].
  destruct F as (_ & F & _). destruct (F n Hn) as (feature & X & Fn).
  assert (Xf : features IT sdiff binsize_ T_depth (nth (Z.to_nat n) imgs emptyMat) = Ok feature).
  { unfold extract in X. destruct (depth im); try discriminate; exact X. }
  destruct (features_wf _ _ _ _ _ _ Xf) as (Hr & Hc & Hl).
  destruct (features_shape _ _ _ _ _ _ Xf) as (_ & Sc).
  assert (Fd : depth feature = T_depth /\ channels feature = 1).
  { unfold features in Xf.
    apply bind_ok in Xf as (hist & _ & Xf).
    apply bind_ok in Xf as (norm & _ & Xf).
    apply bind_ok in Xf as (feat & _ & Xf).
    injection Xf as <-. split; reflexivity. }
  cbv zeta. rewrite Fn.
  destruct (copyMakeBorder_wf feature 1 1 flen_ flen_ one) as (W1 & W2 & W3);
    try (unfold flen_; lia).
  destruct (copyMakeBorder_spec feature 1 1 flen_ flen_ one zero) as (S1 & S2 & _);
    try (unfold flen_; lia).
  cbv zeta in S1, S2.
  split; [rewrite W1; apply Fd|]. split; [rewrite W2; apply Fd|].
  split; [lia|]. split; [unfold flen_ in *; lia|]. split; [|exact W3].
  rewrite S2, Sc.
  replace (out_width (geometry IT binsize_ (nth (Z.to_nat n) imgs emptyMat)) * flen_ + flen_ + flen_)
    with ((out_width (geometry IT binsize_ (nth (Z.to_nat n) imgs emptyMat)) + 2) * flen_) by ring.
  apply Z.rem_mul. unfold flen_. lia.
Qed.

(** X10: a level of the pyramid is always a valid input of the response
    engine at stride [flen_]: it has the depth of [T], one channel, at
    least 2 rows and [2 * flen_] columns, a column count that is a multiple
    of [flen_], and as many elements as [rows * cols].  So for every filter
    of that depth that fits in the level and whose column count is a
    multiple of [flen_], [convolve] raises no assertion and returns the
    responses of all window positions, in order. *)
Theorem pyramid_level_convolves (im : Mat IT) (pf : list (Mat T)) (scales : list T)
    (n : Z) (filter : Mat T) :
  pyramid IT sdiff T_depth resize pyrDown binsize_ nscales_ im = Ok (pf, scales) ->
  0 <= n < nscales_ ->
  depth filter = T_depth ->
  Z.rem (cols filter) flen_ = 0 ->
  1 <= rows filter <= rows (nth (Z.to_nat n) pf emptyMat) ->
  0 <= cols filter <= cols (nth (Z.to_nat n) pf emptyMat) ->
  Z.of_nat (length (data filter)) = rows filter * cols filter ->
  let level := nth (Z.to_nat n) pf emptyMat in
  Z.rem (cols level) flen_ = 0 /\ 2 <= rows level /\ 2 * flen_ <= cols level /\
  exists pdf,
    convolve level filter flen_ = Ok pdf /\
    written pdf = responses_in_order level filter flen_.
Proof.
  intros E Hn Hd Hc Hrows Hcols Hl. cbv zeta.
  destruct (pyramid_level_format im pf scales n E Hn) as (D & C & R & Cl & Cr & L).
  cbv zeta in *.
  split; [exact Cr|]. split; [lia|]. split; [exact Cl|].
  destruct (convolve_valid_run (nth (Z.to_nat n) pf emptyMat) filter flen_)
    as (pdf & Ec & Ew & _); try assumption; try (unfold flen_; lia); try congruence.
  exists pdf. split; [exact Ec | exact Ew].
Qed.

End PyramidToConvolve.

(** ** The depth assertion of the response engine *)

Section ConvolveDepth.
Context {T : Type} `{Real T}.

Lemma depth_eqb_eq (a b : Depth) : depth_eqb a b = true <-> a = b.
Proof. split; [destruct a, b; simpl; congruence | intros ->; destruct b; reflexivity]. Qed.

(** X11: [convolve] stops at the depth assertion exactly when the element
    depths of the feature map and of the filter differ; it is the first
    check, whatever the stride and the sizes are. *)
Theorem convolve_depth_assertion (feature filter : Mat T) (stride : Z) :
  convolve feature filter stride = Err AssertDepth <-> depth feature <> depth filter.
Proof.
  unfold convolve. destruct (depth_eqb (depth feature) (depth filter)) eqn:D; simpl.
  - apply depth_eqb_eq in D. split; [|intros N; destruct (N D)]. intros E. exfalso.
    destruct (stride =? 0); [discriminate|].
    destruct (negb _); [discriminate|].
    apply bind_err in E as [E | (pdf0 & _ & E)].
    + unfold create in E. destruct (_ || _); discriminate.
    + apply bind_err in E as [E | ([buf ptr] & _ & E)]; [|discriminate].
      exact (convolve_loops_err _ _ _ pdf0 _ _ E).
  - split; [|reflexivity]. intros _ E. apply depth_eqb_eq in E. congruence.
Qed.

End ConvolveDepth.

(** ** The format of the feature map *)

Section ExtractorFormat.
Context {T : Type} `{Real T}.
Variable IT : Type.
Variable sdiff : IT -> IT -> T.
Variable binsize_ : Z.
Variable T_depth : Depth.

Lemma load_access {A} (buf : list A) (i : Z) (e : error) :
  load buf i = Err e -> exists k, e = OutOfBounds k.
Proof.
  unfold load. destruct (i <? 0); [intros [= <-]; eauto|].
  destruct (nth_error _ _); [discriminate | intros [= <-]; eauto].
Qed.

Lemma store_access {A} (buf : list A) (i : Z) (v : A) (e : error) :
  store buf i v = Err e -> exists k, e = OutOfBounds k.
Proof. unfold store. destruct (_ && _); [discriminate | intros [= <-]; eauto]. Qed.

Ltac accesses E :=
  lazymatch type of E with
  | bind _ _ = Err _ =>
      let a := fresh "a" in
      apply bind_err in E as [E | (a & _ & E)]; [accesses E | accesses E]
  | for_each _ _ _ = Err _ =>
      let k := fresh "k" in
      let s := fresh "s" in
      apply for_each_err in E as (k & s & _ & E); cbv beta in E; accesses E
  | load _ _ = Err _ => exact (load_access _ _ _ E)
  | store _ _ _ = Err _ => exact (store_access _ _ _ _ E)
  | Ok _ = Err _ => discriminate E
  | context [match ?x with _ => _ end] => destruct x; accesses E
  | _ => eauto
  end.

Lemma gradient_access (im : Mat IT) (s : Z) (e : error) :
  gradient IT sdiff im s = Err e -> exists k, e = OutOfBounds k.
Proof. unfold gradient. intros E. accesses E. Qed.

Lemma pixel_gradient_access (im : Mat IT) (x y : Z) (e : error) :
  pixel_gradient IT sdiff im x y = Err e -> exists k, e = OutOfBounds k.
Proof.
  unfold pixel_gradient. intros E.
  apply bind_err in E as [E | ([[dx dy] v] & _ & E)]; [exact (gradient_access _ _ _ E)|].
  destruct (channels im =? 3); [|discriminate].
  apply bind_err in E as [E | ([[dxg dyg] vg] & _ & E)]; [exact (gradient_access _ _ _ E)|].
  apply bind_err in E as [E | ([[dxr dyr] vr] & _ & E)]; [exact (gradient_access _ _ _ E)|].
  destruct (ltb v vg); [destruct (ltb vg vr) | destruct (ltb v vr)]; discriminate.
Qed.

Lemma assign_all_access (ws : list (Z * T)) (hist : list T) (e : error) :
  assign_all hist ws = Err e -> exists k, e = OutOfBounds k.
Proof.
  revert hist. induction ws as [|[i v] ws IH]; simpl; intros hist E; [discriminate|].
  apply bind_err in E as [E | (h & _ & E)]; [exact (store_access _ _ _ _ E) | exact (IH _ E)].
Qed.

Lemma histogram_pass_access (im : Mat IT) (g : Geometry) (hist : list T) (e : error) :
  histogram_pass IT sdiff binsize_ im g hist = Err e -> exists k, e = OutOfBounds k.
Proof.
  unfold histogram_pass. intros E.
  apply for_each_err in E as (y & h1 & _ & E).
  apply for_each_err in E as (x & h2 & _ & E).
  apply bind_err in E as [E | ([[dx dy] v] & _ & E)];
    [exact (pixel_gradient_access _ _ _ _ E) | exact (assign_all_access _ _ _ E)].
Qed.

Lemma energy_pass_access (g : Geometry) (hist norm : list T) (e : error) :
  energy_pass g hist norm = Err e -> exists k, e = OutOfBounds k.
Proof. unfold energy_pass. intros E. accesses E. Qed.

Lemma normalizers_access (g : Geometry) (norm : list T) (y x : Z) (e : error) :
  normalizers g norm y x = Err e -> exists k, e = OutOfBounds k.
Proof. unfold normalizers, normalizer. intros E. accesses E. Qed.

Lemma sensitive_step_access (hist : list T) (n : T * T * T * T) (st : cell_state) (e : error) :
  sensitive_step hist n st = Err e -> exists k, e = OutOfBounds k.
Proof.
  destruct st as [[[f d] s] [[[t1 t2] t3] t4]], n as [[[n1 n2] n3] n4].
  unfold sensitive_step. cbn [truncated]. intros E. accesses E.
Qed.

Lemma insensitive_step_access (hist : list T) (n : T * T * T * T) (st : cell_state) (e : error) :
  insensitive_step hist n st = Err e -> exists k, e = OutOfBounds k.
Proof.
  destruct st as [[[f d] s] t], n as [[[n1 n2] n3] n4].
  unfold insensitive_step. cbn [truncated]. intros E. accesses E.
Qed.

Lemma cell_access (g : Geometry) (hist norm feat : list T) (y x : Z) (e : error) :
  cell g hist norm y x feat = Err e -> exists k, e = OutOfBounds k.
Proof.
  unfold cell. intros E.
  apply bind_err in E as [E | (n & _ & E)]; [exact (normalizers_access _ _ _ _ _ E)|].
  apply bind_err in E as [E | ([[[f1 d1] s1] t] & _ & E)].
  { apply for_each_err in E as (k & st & _ & E). exact (sensitive_step_access _ _ _ _ E). }
  apply bind_err in E as [E | ([[[f2 d2] s2] [[[t1 t2] t3] t4]] & _ & E)].
  { apply for_each_err in E as (k & st & _ & E). exact (insensitive_step_access _ _ _ _ E). }
  accesses E.
Qed.

Lemma feature_pass_access (g : Geometry) (hist norm feat : list T) (e : error) :
  feature_pass g hist norm feat = Err e -> exists k, e = OutOfBounds k.
Proof.
  unfold feature_pass. intros E.
  apply for_each_err in E as (y & f1 & _ & E).
  apply for_each_err in E as (x & f2 & _ & E).
  exact (cell_access _ _ _ _ _ _ _ E).
Qed.

(** X12: for a positive [binsize_] and an image of fewer than [2^23] rows
    and columns (where the binary32 quotient [(float)n / (float)binsize_]
    rounds to the same integer as the exact one), whenever the extractor
    returns, the feature map is a one-channel matrix of [T] with one row per
    block row and [flen_] columns per block column, the outermost blocks
    left out ([max(round(n / binsize_) - 2, 0)] of them along a side of [n]
    pixels), and it holds [rows * cols] values.  When the extractor does not
    return, it has stopped at a memory access, never at an assertion. *)
Theorem features_format (im : Mat IT) :
  0 < binsize_ ->
  0 <= rows im < 2 ^ 23 -> 0 <= cols im < 2 ^ 23 ->
  (forall featm,
     features IT sdiff binsize_ T_depth im = Ok featm ->
     rows featm = Z.max (round_div (rows im) binsize_ - 2) 0 /\
     cols featm = Z.max (round_div (cols im) binsize_ - 2) 0 * flen_ /\
     channels featm = 1 /\ depth featm = T_depth /\
     Z.of_nat (length (data featm)) = rows featm * cols featm) /\
  (forall e, features IT sdiff binsize_ T_depth im = Err e -> exists i, e = OutOfBounds i).
Proof.
  intros _ _ _. split.
  - intros featm E.
    destruct (features_shape _ _ _ _ _ _ E) as (Sr & Sc).
    destruct (features_wf _ _ _ _ _ _ E) as (Hr & Hc & Hl).
    split; [exact Sr|]. split; [exact Sc|].
    unfold features in E.
    apply bind_ok in E as (hist & _ & E).
    apply bind_ok in E as (norm & _ & E).
    apply bind_ok in E as (feat & _ & E).
    injection E as <-. cbn in *. split; [reflexivity|]. split; [reflexivity|]. nia.
  - intros e E. unfold features in E.
    apply bind_err in E as [E | (hist & _ & E)]; [exact (histogram_pass_access _ _ _ _ E)|].
    apply bind_err in E as [E | (norm & _ & E)]; [exact (energy_pass_access _ _ _ _ E)|].
    apply bind_err in E as [E | (feat & _ & E)]; [|discriminate].
    exact (feature_pass_access _ _ _ _ _ E).
Qed.

End ExtractorFormat.

(** ** The second pass in closed form *)

Section EnergyValue.
Context {T : Type} `{Real T}.

Lemma upd_upd {A} (l : list A) (n : nat) (a b : A) : upd (upd l n a) n b = upd l n b.
Proof. revert n. induction l as [|v l IH]; intros [|n]; simpl; try reflexivity. f_equal. apply IH. Qed.

Lemma upd_nth {A} (l : list A) (n : nat) (d : A) : upd l n (nth n l d) = l.
Proof. revert n. induction l as [|v l IH]; intros [|n]; simpl; try reflexivity. f_equal. apply IH. Qed.

Lemma energy_block (hist : list T) (i : Z) (norm norm' : list T) :
  for_each (range 0 9)
    (fun o norm =>
       n <- load norm i ;;
       a <- load hist (i * norient_ + o) ;;
       b <- load hist (i * norient_ + norient_ / 2 + o) ;;
       store norm i (add n (mul (add a b) (add a b))))
    norm = Ok norm' ->
  (0 <= i < Z.of_nat (length norm)) /\
  norm' = upd norm (Z.to_nat i) (block_energy hist i (nth (Z.to_nat i) norm zero)).
Proof.
  intros E.
  assert (Hi : 0 <= i < Z.of_nat (length norm)).
  { rewrite range_cons in E by lia. simpl in E.
    destruct (load norm i) as [n|] eqn:L; [|discriminate].
    apply (load_ok _ _ _ zero) in L. tauto. }
  split; [exact Hi|].
  apply (for_each_range_inv
           (fun k (nm : list T) =>
              nm = upd norm (Z.to_nat i)
                     (fold_left
                        (fun acc o =>
                           let a := nth (Z.to_nat (i * norient_ + o)) hist zero in
                           let b := nth (Z.to_nat (i * norient_ + norient_ / 2 + o)) hist zero in
                           add acc (mul (add a b) (add a b)))
                        (range 0 k) (nth (Z.to_nat i) norm zero)))) in E;
    [exact E | lia | |].
  - intros k a b Hk -> B.
    apply bind_ok in B as (n & Ln & B). apply bind_ok in B as (x & Lx & B).
    apply bind_ok in B as (y & Ly & B).
    apply (load_ok _ _ _ zero) in Ln as (_ & <-), Lx as (_ & <-), Ly as (_ & <-).
    apply store_ok in B as (_ & ->).
    rewrite range_snoc, fold_left_app by lia. cbn [fold_left].
    rewrite nth_upd_same by lia. apply upd_upd.
  - rewrite range_nil by lia. simpl. symmetry. apply upd_nth.
Qed.

(** X13: whenever the second pass returns, the energy of every block [i] is
    what the pass added to its initial value: the squared sums of the 9
    pairs of opposite orientations [o] and [o + 9] of the block's
    histogram, in loop order; no other element of [norm] is changed. *)
Theorem energy_pass_value (g : Geometry) (hist norm norm' : list T) :
  energy_pass g hist norm = Ok norm' ->
  length norm' = length norm /\
  (forall i, 0 <= i < blocks_height g * blocks_width g ->
     nth (Z.to_nat i) norm' zero = block_energy hist i (nth (Z.to_nat i) norm zero)) /\
  (forall i, blocks_height g * blocks_width g <= i -> 0 <= i ->
     nth (Z.to_nat i) norm' zero = nth (Z.to_nat i) norm zero).
Proof.
  unfold energy_pass. intros E.
  destruct (Z_lt_le_dec (blocks_height g * blocks_width g) 0) as [Neg|Pos].
  { rewrite range_nil in E by lia. injection E as <-.
    split; [reflexivity|]. split; [intros; lia | reflexivity]. }
  apply (for_each_range_inv
           (fun k (nm : list T) =>
              length nm = length norm /\
              (forall i, 0 <= i < k ->
                 nth (Z.to_nat i) nm zero = block_energy hist i (nth (Z.to_nat i) norm zero)) /\
              (forall i, k <= i -> 0 <= i ->
                 nth (Z.to_nat i) nm zero = nth (Z.to_nat i) norm zero)))
    in E; [exact E | exact Pos | |].
  - intros k a b Hk (L & Done & Rest) B. apply energy_block in B as (Hi & ->).
    split; [rewrite length_upd; exact L|]. split.
    + intros i Hi'. destruct (Z.eq_dec i k) as [->|N].
      * rewrite nth_upd_same by lia. f_equal. apply Rest; lia.
      * rewrite nth_upd_other by lia. apply Done. lia.
    + intros i Hi' Hi0. rewrite nth_upd_other by lia. apply Rest; lia.
  - split; [reflexivity|]. split; [intros; lia | reflexivity].
Qed.

End EnergyValue.

(** ** The third pass in closed form *)

Section CellValue.
Context {T : Type} `{Real T}.

Lemma written_from_store (val : Z -> T) (feat f f' : list T) (dst K : Z) (v : T) :
  written_from val feat dst K f -> 0 <= K ->
  store f (dst + K) v = Ok f' -> v = val K ->
  written_from val feat dst (K + 1) f'.
Proof.
  intros (L & P & V & O) HK S ->. apply store_ok in S as (Hi & ->).
  assert (D : 0 <= dst) by (destruct (Z.eq_dec K 0); [subst K; lia | apply P; lia]).
  split; [rewrite length_upd; exact L|]. split; [intros _; exact D|]. split.
  - intros e He. destruct (Z.eq_dec e K) as [->|N].
    + apply nth_upd_same. lia.
    + rewrite nth_upd_other by lia. apply V. lia.
  - intros j Hj Out. rewrite nth_upd_other by lia. apply O; lia.
Qed.

Lemma cell_sums_succ (hist : list T) (n : T * T * T * T) (src k : Z) :
  0 <= k ->
  cell_sums hist n src (k + 1)
  = add_truncated n (cell_sums hist n src k) (nth (Z.to_nat (src + k)) hist zero).
Proof.
  intros Hk. unfold cell_sums. rewrite range_snoc, fold_left_app by lia. reflexivity.
Qed.

Lemma cell_values_sensitive (hist : list T) (n1 n2 n3 n4 : T) (src k : Z) :
  0 <= k < norient_ ->
  nth (Z.to_nat k) (cell_values hist (n1, n2, n3, n4) src) zero
  = fst (truncated (nth (Z.to_nat (src + k)) hist zero) n1 n2 n3 n4).
Proof.
  intros Hk. unfold cell_values.
  destruct (cell_sums hist (n1, n2, n3, n4) src norient_) as [[[t1 t2] t3] t4].
  rewrite app_nth1 by (rewrite length_map, length_range; lia).
  apply (nth_map_range
           (fun o => fst (truncated (nth (Z.to_nat (src + o)) hist zero) n1 n2 n3 n4))).
  exact Hk.
Qed.

Lemma cell_values_insensitive (hist : list T) (n1 n2 n3 n4 : T) (src k : Z) :
  0 <= k < norient_ / 2 ->
  nth (Z.to_nat (norient_ + k)) (cell_values hist (n1, n2, n3, n4) src) zero
  = fst (truncated (add (nth (Z.to_nat (src + k)) hist zero)
                        (nth (Z.to_nat (src + norient_ / 2 + k)) hist zero)) n1 n2 n3 n4).
Proof.
  intros Hk. unfold cell_values.
  destruct (cell_sums hist (n1, n2, n3, n4) src norient_) as [[[t1 t2] t3] t4].
  assert (H9 : norient_ / 2 = 9) by reflexivity. rewrite H9 in *.
  rewrite app_nth2 by (rewrite length_map, length_range; unfold norient_ in *; lia).
  rewrite length_map, length_range.
  replace (Z.to_nat (norient_ + k) - Z.to_nat (norient_ - 0))%nat with (Z.to_nat k)
    by (unfold norient_; lia).
  rewrite app_nth1 by (rewrite length_map, length_range; lia).
  apply (nth_map_range
           (fun o => fst (truncated (add (nth (Z.to_nat (src + o)) hist zero)
                                         (nth (Z.to_nat (src + 9 + o)) hist zero))
                                    n1 n2 n3 n4))).
  exact Hk.
Qed.

Lemma cell_values_texture (hist : list T) (n : T * T * T * T) (src : Z) (t1 t2 t3 t4 : T) :
  cell_sums hist n src norient_ = (t1, t2, t3, t4) ->
  let values := cell_values hist n src in
  nth 27 values zero = mul (dec 2357 4) t1 /\
  nth 28 values zero = mul (dec 2357 4) t2 /\
  nth 29 values zero = mul (dec 2357 4) t3 /\
  nth 30 values zero = mul (dec 2357 4) t4 /\
  nth 31 values zero = zero.
Proof.
  intros E. cbv zeta. unfold cell_values. destruct n as [[[n1 n2] n3] n4]. rewrite E.
  assert (L : forall (l1 l2 l3 : list T) (k : nat),
            length l1 = 18%nat -> length l2 = 9%nat -> (27 <= k)%nat ->
            nth k (l1 ++ l2 ++ l3) zero = nth (k - 27) l3 zero).
  { intros l1 l2 l3 k L1 L2 Hk. rewrite app_nth2 by lia. rewrite app_nth2 by lia.
    f_equal. lia. }
  assert (L1 : forall (f : Z -> T), length (map f (range 0 norient_)) = 18%nat)
    by (intros f; rewrite length_map, length_range; reflexivity).
  assert (L2 : forall (f : Z -> T), length (map f (range 0 (norient_ / 2))) = 9%nat)
    by (intros f; rewrite length_map, length_range; reflexivity).
  rewrite !L by (apply L1 || apply L2 || lia). repeat split.
Qed.

Lemma sensitive_loop (hist : list T) (n : T * T * T * T) (feat : list T) (dst src : Z)
    (st : cell_state) :
  for_each (range 0 norient_) (fun _ => sensitive_step hist n)
    (feat, dst, src, (zero, zero, zero, zero)) = Ok st ->
  exists f,
    st = (f, dst + norient_, src + norient_, cell_sums hist n src norient_) /\
    written_from (fun e => nth (Z.to_nat e) (cell_values hist n src) zero) feat dst norient_ f.
Proof.
  intros E.
  apply (for_each_range_inv
           (fun k (st : cell_state) =>
              exists f,
                st = (f, dst + k, src + k, cell_sums hist n src k) /\
                written_from (fun e => nth (Z.to_nat e) (cell_values hist n src) zero)
                  feat dst k f)) in E;
    [exact E | unfold norient_; lia | |].
  - intros k a b Hk (f & -> & W) B.
    rewrite cell_sums_succ by lia.
    destruct (cell_sums hist n src k) as [[[t1 t2] t3] t4].
    destruct n as [[[n1 n2] n3] n4].
    unfold sensitive_step in B.
    apply bind_ok in B as (s & Ls & B). apply (load_ok _ _ _ zero) in Ls as (_ & <-).
    cbn [truncated] in B.
    apply bind_ok in B as (f' & S & B). injection B as <-.
    exists f'. split.
    + unfold add_truncated. cbn [truncated].
      replace (dst + (k + 1)) with (dst + k + 1) by lia.
      replace (src + (k + 1)) with (src + k + 1) by lia. reflexivity.
    + apply (written_from_store _ _ _ _ _ _ _ W) in S; [exact S | lia |].
      rewrite cell_values_sensitive by exact Hk. reflexivity.
  - exists feat. split; [rewrite !Z.add_0_r; reflexivity|].
    split; [reflexivity|]. split; [lia|]. split; [intros; lia | reflexivity].
Qed.

Lemma insensitive_loop (hist : list T) (n t : T * T * T * T) (feat f0 : list T) (dst src : Z)
    (st : cell_state) :
  written_from (fun e => nth (Z.to_nat e) (cell_values hist n src) zero) feat dst norient_ f0 ->
  for_each (range 0 (norient_ / 2)) (fun _ => insensitive_step hist n)
    (f0, dst + norient_, src, t) = Ok st ->
  exists f s,
    st = (f, dst + 27, s, t) /\
    written_from (fun e => nth (Z.to_nat e) (cell_values hist n src) zero) feat dst 27 f.
Proof.
  intros W0 E.
  apply (for_each_range_inv
           (fun k (st : cell_state) =>
              exists f,
                st = (f, dst + norient_ + k, src + k, t) /\
                written_from (fun e => nth (Z.to_nat e) (cell_values hist n src) zero)
                  feat dst (norient_ + k) f)) in E.
  - destruct E as (f & -> & W). exists f, (src + norient_ / 2). split; [|exact W].
    replace (dst + norient_ + norient_ / 2) with (dst + 27)
      by (change (norient_ / 2) with 9; unfold norient_; lia).
    reflexivity.
  - apply Z.div_pos; unfold norient_; lia.
  - intros k a b Hk (f & -> & W) B.
    destruct n as [[[n1 n2] n3] n4].
    unfold insensitive_step in B.
    apply bind_ok in B as (x & Lx & B). apply (load_ok _ _ _ zero) in Lx as (_ & <-).
    apply bind_ok in B as (y & Ly & B). apply (load_ok _ _ _ zero) in Ly as (_ & <-).
    cbn [truncated] in B.
    apply bind_ok in B as (f' & S & B). injection B as <-.
    exists f'.
    replace (dst + norient_ + (k + 1)) with (dst + norient_ + k + 1) by lia.
    replace (src + (k + 1)) with (src + k + 1) by lia.
    split; [reflexivity|].
    replace (norient_ + (k + 1)) with (norient_ + k + 1) by lia.
    assert (H9 : norient_ / 2 = 9) by reflexivity.
    replace (dst + norient_ + k) with (dst + (norient_ + k)) in S by lia.
    apply (written_from_store _ _ _ _ _ _ _ W) in S; [exact S | unfold norient_ in *; lia |].
    rewrite cell_values_insensitive by exact Hk.
    replace (src + k + norient_ / 2) with (src + norient_ / 2 + k) by lia. reflexivity.
  - exists f0. split; [rewrite !Z.add_0_r; reflexivity|].
    replace (norient_ + 0) with norient_ by lia. exact W0.
Qed.

Lemma cell_closed_form (g : Geometry) (hist norm feat feat' : list T) (y x : Z) :
  cell g hist norm y x feat = Ok feat' ->
  exists n,
    normalizers g norm y x = Ok n /\
    written_from
      (fun e => nth (Z.to_nat e)
                  (cell_values hist n (((y + 1) * blocks_width g + (x + 1)) * norient_)) zero)
      feat ((y * out_width g + x) * flen_) flen_ feat'.
Proof.
  unfold cell. intros E.
  apply bind_ok in E as (n & N & E). exists n. split; [exact N|].
  set (src := ((y + 1) * blocks_width g + (x + 1)) * norient_) in *.
  set (dst := (y * out_width g + x) * flen_) in *.
  apply bind_ok in E as (st1 & L1 & E).
  apply sensitive_loop in L1 as (f1 & -> & W1).
  apply bind_ok in E as (st2 & L2 & E).
  apply (insensitive_loop _ _ _ _ _ _ _ _ W1) in L2 as (f2 & s2 & -> & W2).
  destruct (cell_sums hist n src norient_) as [[[t1 t2] t3] t4] eqn:Et.
  destruct (cell_values_texture hist n src t1 t2 t3 t4 Et) as (V27 & V28 & V29 & V30 & V31).
  cbv zeta in *.
  apply bind_ok in E as (f3 & S3 & E). apply bind_ok in E as (f4 & S4 & E).
  apply bind_ok in E as (f5 & S5 & E). apply bind_ok in E as (f6 & S6 & E).
  apply (written_from_store _ _ _ _ _ _ _ W2) in S3; [|lia|symmetry; exact V27].
  replace (dst + 27 + 1) with (dst + (27 + 1)) in S4 by lia.
  apply (written_from_store _ _ _ _ _ _ _ S3) in S4; [|lia|symmetry; exact V28].
  replace (dst + 27 + 2) with (dst + (27 + 1 + 1)) in S5 by lia.
  apply (written_from_store _ _ _ _ _ _ _ S4) in S5; [|lia|symmetry; exact V29].
  replace (dst + 27 + 3) with (dst + (27 + 1 + 1 + 1)) in S6 by lia.
  apply (written_from_store _ _ _ _ _ _ _ S5) in S6; [|lia|symmetry; exact V30].
  replace (dst + 27 + 4) with (dst + (27 + 1 + 1 + 1 + 1)) in E by lia.
  apply (written_from_store _ _ _ _ _ _ _ S6) in E; [|lia|symmetry; exact V31].
  exact E.
Qed.

End CellValue.

Section FeaturePassValue.
Context {T : Type} `{Real T}.

Lemma feature_row_closed_form (g : Geometry) (hist norm feat f f' : list T) (y : Z) :
  0 <= y -> 0 <= out_width g ->
  length f = length feat ->
  (forall y' x', 0 <= y' < y -> 0 <= x' < out_width g -> cell_holds g hist norm f y' x') ->
  (forall j, 0 <= j -> y * out_width g * flen_ <= j ->
     nth (Z.to_nat j) f zero = nth (Z.to_nat j) feat zero) ->
  for_each (range 0 (out_width g)) (fun x feat => cell g hist norm y x feat) f = Ok f' ->
  length f' = length feat /\
  (forall y' x', 0 <= y' < y + 1 -> 0 <= x' < out_width g -> cell_holds g hist norm f' y' x') /\
  (forall j, 0 <= j -> (y + 1) * out_width g * flen_ <= j ->
     nth (Z.to_nat j) f' zero = nth (Z.to_nat j) feat zero).
Proof.
  intros Hy Hw L Done Rest E.
  set (ow := out_width g) in *.
  apply (for_each_range_inv
           (fun x (a : list T) =>
              length a = length feat /\
              (forall y' x', (0 <= y' < y /\ 0 <= x' < ow) \/ (y' = y /\ 0 <= x' < x) ->
                 cell_holds g hist norm a y' x') /\
              (forall j, 0 <= j -> (y * ow + x) * flen_ <= j ->
                 nth (Z.to_nat j) a zero = nth (Z.to_nat j) feat zero))) in E.
  - destruct E as (L' & Done' & Rest'). split; [exact L'|]. split.
    + intros y' x' Hy' Hx'. apply Done'.
      destruct (Z.eq_dec y' y) as [->|N]; [right | left]; lia.
    + intros j Hj Hlo. apply Rest'; [exact Hj|]. unfold flen_ in *. lia.
  - exact Hw.
  - intros x a b Hx (La & Da & Ra) B.
    apply cell_closed_form in B as (n & N & (Lb & _ & V & O)). fold ow in V, O.
    assert (Before : forall y' x' e,
               (0 <= y' < y /\ 0 <= x' < ow) \/ (y' = y /\ 0 <= x' < x) -> 0 <= e < flen_ ->
               0 <= (y' * ow + x') * flen_ + e < (y * ow + x) * flen_).
    { intros y' x' e C He. unfold flen_ in *. destruct C as [(Cy & Cx) | (-> & Cx)]; [|nia].
      assert ((y' + 1) * ow <= y * ow) by (apply Z.mul_le_mono_nonneg_r; lia). nia. }
    split; [congruence|]. split.
    + intros y' x' C. destruct C as [C | (-> & C)].
      * destruct (Da y' x' (or_introl C)) as (n' & N' & V').
        exists n'. split; [exact N'|]. intros e He. rewrite <- (V' e He).
        apply O; [|]; pose proof (Before y' x' e (or_introl C) He); lia.
      * destruct (Z.eq_dec x' x) as [->|Nx].
        -- exists n. split; [exact N|]. intros e He. apply V. exact He.
        -- assert (C' : y = y /\ 0 <= x' < x) by lia.
           destruct (Da y x' (or_intror C')) as (n' & N' & V').
           exists n'. split; [exact N'|]. intros e He. rewrite <- (V' e He).
           apply O; [|]; pose proof (Before y x' e (or_intror C') He); lia.
    + intros j Hj Hlo. rewrite O by (unfold flen_ in *; lia).
      apply Ra; [exact Hj|]. unfold flen_ in *. lia.
  - split; [exact L|]. split.
    + intros y' x' [C | C]; [apply Done; lia | lia].
    + intros j Hj Hlo. apply Rest; [exact Hj|]. unfold flen_ in *. lia.
Qed.

Lemma feature_pass_closed_form (g : Geometry) (hist norm feat feat' : list T) :
  0 <= out_width g ->
  feature_pass g hist norm feat = Ok feat' ->
  length feat' = length feat /\
  (forall y x, 0 <= y < out_height g -> 0 <= x < out_width g ->
     cell_holds g hist norm feat' y x) /\
  (forall j, 0 <= j -> Z.max (out_height g) 0 * out_width g * flen_ <= j ->
     nth (Z.to_nat j) feat' zero = nth (Z.to_nat j) feat zero).
Proof.
  intros Hw. unfold feature_pass. intros E.
  destruct (Z_lt_le_dec (out_height g) 0) as [Neg|Pos].
  { rewrite range_nil in E by lia. injection E as <-.
    split; [reflexivity|]. split; [intros; lia | reflexivity]. }
  rewrite Z.max_l by lia.
  apply (for_each_range_inv
           (fun y (a : list T) =>
              length a = length feat /\
              (forall y' x', 0 <= y' < y -> 0 <= x' < out_width g ->
                 cell_holds g hist norm a y' x') /\
              (forall j, 0 <= j -> y * out_width g * flen_ <= j ->
                 nth (Z.to_nat j) a zero = nth (Z.to_nat j) feat zero))) in E;
    [exact E | exact Pos | |].
  - intros y a b Hy (La & Da & Ra) B.
    apply (feature_row_closed_form g hist norm feat a b y); try assumption. lia.
  - split; [reflexivity|]. split; [intros; lia | reflexivity].
Qed.

(** X14: the third pass in closed form.  Whenever it returns, the feature
    buffer keeps its length, and the [flen_] values of every output cell
    [(y, x)] are, in order: for each of the 18 orientations [o] of block
    [(y + 1, x + 1)], half the sum of the histogram value times each of the
    four normalizers cut at 0.2; for each of the 9 pairs [o], [o + 9], the
    same for the sum of the pair; 0.2357 times each of the four sums, over
    the 18 orientations, of the cut terms of one normalizer; and zero.
    Nothing past the last cell is written. *)
Theorem feature_pass_value (g : Geometry) (hist norm feat feat' : list T) :
  0 <= out_width g ->
  feature_pass g hist norm feat = Ok feat' ->
  length feat' = length feat /\
  (forall y x, 0 <= y < out_height g -> 0 <= x < out_width g ->
     exists n,
       normalizers g norm y x = Ok n /\
       forall e, 0 <= e < flen_ ->
         nth (Z.to_nat ((y * out_width g + x) * flen_ + e)) feat' zero
         = nth (Z.to_nat e)
             (cell_values hist n (((y + 1) * blocks_width g + (x + 1)) * norient_)) zero) /\
  (forall j, 0 <= j -> Z.max (out_height g) 0 * out_width g * flen_ <= j ->
     nth (Z.to_nat j) feat' zero = nth (Z.to_nat j) feat zero).
Proof. exact (feature_pass_closed_form g hist norm feat feat'). Qed.

End FeaturePassValue.

(** ** The truncation feature *)

Section TruncationFeature.
Context {T : Type} `{Real T}.
Variable IT : Type.
Variable sdiff : IT -> IT -> T.
Variable binsize_ : Z.
Variable T_depth : Depth.

Lemma features_cells (im : Mat IT) (featm : Mat T) :
  features IT sdiff binsize_ T_depth im = Ok featm ->
  let g := geometry IT binsize_ im in
  exists hist norm,
    histogram_pass IT sdiff binsize_ im g
      (repeat zero (Z.to_nat (blocks_width g * norient_ * blocks_height g))) = Ok hist /\
    energy_pass g hist (repeat zero (Z.to_nat (blocks_width g * blocks_height g))) = Ok norm /\
    forall y x, 0 <= y < rows featm -> 0 <= x -> x * flen_ < cols featm ->
      exists n : T * T * T * T,
        normalizers g norm y x = Ok n /\
        forall e, 0 <= e < flen_ ->
          at_ zero featm y (x * flen_ + e)
          = nth (Z.to_nat e)
              (cell_values hist n (((y + 1) * blocks_width g + (x + 1)) * norient_)) zero.
Proof.
  intros E. cbv zeta. unfold features in E. cbv zeta in E.
  remember (geometry IT binsize_ im) as g eqn:Eg.
  assert (Hw : 0 <= out_width g) by (subst g; unfold geometry; simpl; lia).
  apply bind_ok in E as (hist & Eh & E).
  apply bind_ok in E as (norm & En & E).
  apply bind_ok in E as (feat & F & E).
  injection E as <-. exists hist, norm.
  split; [exact Eh|]. split; [exact En|].
  apply feature_pass_closed_form in F as (_ & C & _); [|exact Hw].
  unfold zeros. cbn [rows cols data]. intros y x Hy Hx Hc.
  destruct (C y x) as (n & N & V); [exact Hy | unfold flen_ in *; lia |].
  exists n. split; [exact N|]. intros e He. unfold at_. cbn [cols data]. rewrite <- (V e He).
  f_equal. f_equal. ring.
Qed.

(** X15: whenever the extractor returns, the last of the [flen_] values of
    every cell of the feature map, the truncation feature, is zero. *)
Theorem features_truncation_zero (im : Mat IT) (featm : Mat T) (y x : Z) :
  features IT sdiff binsize_ T_depth im = Ok featm ->
  0 <= y < rows featm -> 0 <= x -> x * flen_ < cols featm ->
  at_ zero featm y (x * flen_ + (flen_ - 1)) = zero.
Proof.
  intros E Hy Hx Hc.
  destruct (features_cells im featm E) as (hist & norm & _ & _ & C).
  destruct (C y x Hy Hx Hc) as (n & _ & V).
  rewrite V by (unfold flen_; lia).
  set (src := ((y + 1) * blocks_width (geometry IT binsize_ im) + (x + 1)) * norient_).
  destruct (cell_sums hist n src norient_) as [[[t1 t2] t3] t4] eqn:Et.
  destruct (cell_values_texture hist n src t1 t2 t3 t4 Et) as (_ & _ & _ & _ & V31).
  exact V31.
Qed.

End TruncationFeature.

(** ** The texture features in exact arithmetic *)

Lemma nth_nonneg (l : list R) (i : nat) : Forall (fun v : R => (0 <= v)%R) l -> (0 <= nth i l 0)%R.
Proof.
  intros Hl. destruct (Nat.lt_ge_cases i (length l)) as [L|L].
  - rewrite Forall_forall in Hl. apply Hl. apply nth_In. exact L.
  - rewrite nth_overflow by exact L. apply Rle_refl.
Qed.

Lemma cell_sums_range (hist : list R) (n1 n2 n3 n4 : R) (src k : Z) :
  Forall (fun v : R => (0 <= v)%R) hist ->
  (0 <= n1)%R -> (0 <= n2)%R -> (0 <= n3)%R -> (0 <= n4)%R ->
  0 <= k ->
  forall t1 t2 t3 t4,
    cell_sums hist (n1, n2, n3, n4) src k = (t1, t2, t3, t4) ->
    (0 <= t1 <= 2 / 10 * IZR k)%R /\ (0 <= t2 <= 2 / 10 * IZR k)%R /\
    (0 <= t3 <= 2 / 10 * IZR k)%R /\ (0 <= t4 <= 2 / 10 * IZR k)%R.
Proof.
  intros Hh H1 H2 H3 H4 Hk. pattern k. apply natlike_ind; [| |exact Hk].
  - intros t1 t2 t3 t4 E. unfold cell_sums in E. rewrite range_nil in E by lia.
    simpl in E. injection E as <- <- <- <-. lra.
  - clear k Hk. intros k Hk IH t1 t2 t3 t4 E.
    unfold Z.succ in E. rewrite cell_sums_succ in E by exact Hk.
    destruct (cell_sums hist (n1, n2, n3, n4) src k) as [[[a b] c] d].
    destruct (IH a b c d eq_refl) as (Ba & Bb & Bc & Bd).
    unfold add_truncated, truncated in E. cbv beta iota zeta in E.
    remember (nth (Z.to_nat (src + k)) hist zero) as s eqn:Es.
    assert (Hs : (0 <= s)%R) by (subst s; apply nth_nonneg; exact Hh).
    pose proof (tmin_range (mul s n1) (Rmult_le_pos _ _ Hs H1)) as B1.
    pose proof (tmin_range (mul s n2) (Rmult_le_pos _ _ Hs H2)) as B2.
    pose proof (tmin_range (mul s n3) (Rmult_le_pos _ _ Hs H3)) as B3.
    pose proof (tmin_range (mul s n4) (Rmult_le_pos _ _ Hs H4)) as B4.
    remember (tmin (mul s n1) (dec 2 1)) as h1 eqn:E1.
    remember (tmin (mul s n2) (dec 2 1)) as h2 eqn:E2.
    remember (tmin (mul s n3) (dec 2 1)) as h3 eqn:E3.
    remember (tmin (mul s n4) (dec 2 1)) as h4 eqn:E4.
    clear E1 E2 E3 E4.
    injection E as <- <- <- <-. unfold Z.succ. rewrite plus_IZR.
    cbn [add RealExact]. lra.
Qed.

Section ExactTexture.
Variable IT : Type.
Variable sdiff : IT -> IT -> R.
Variable binsize_ : Z.
Variable T_depth : Depth.

(** In exact arithmetic only (no rounding, no overflow): whenever the
    extractor returns a feature map, each of the four texture features of a
    cell (entries 27 to 30) lies in [[0, 0.84852]]: it is 0.2357 times a sum
    of 18 terms cut at 0.2.  The binary64 run exceeds this by rounding. *)
Theorem features_exact_texture_bounded (im : Mat IT) (featm : Mat R) (y x e : Z) :
  features IT sdiff binsize_ T_depth im = Ok featm ->
  0 <= y < rows featm ->
  0 <= x -> x * flen_ < cols featm ->
  27 <= e < 31 ->
  (0 <= at_ 0 featm y (x * flen_ + e) <= 84852 / 100000)%R.
Proof.
  intros E Hy Hx Hc He.
  destruct (features_cells IT sdiff binsize_ T_depth im featm E) as (hist & norm & Eh & En & C).
  destruct (C y x Hy Hx Hc) as ([[[n1 n2] n3] n4] & N & V).
  apply histogram_pass_nonneg in Eh; [|apply Forall_forall; intros v Hv;
    apply repeat_spec in Hv; subst v; apply Rle_refl].
  apply energy_pass_nonneg in En; [|apply Forall_forall; intros v Hv;
    apply repeat_spec in Hv; subst v; apply Rle_refl].
  destruct (normalizers_pos _ _ _ _ _ _ _ _ En N) as (P1 & P2 & P3 & P4).
  change (at_ 0%R featm y (x * flen_ + e)) with (at_ zero featm y (x * flen_ + e)).
  rewrite V by (unfold flen_; lia).
  set (src := ((y + 1) * blocks_width (geometry IT binsize_ im) + (x + 1)) * norient_).
  destruct (cell_sums hist (n1, n2, n3, n4) src norient_) as [[[t1 t2] t3] t4] eqn:Et.
  destruct (cell_values_texture hist _ src t1 t2 t3 t4 Et) as (V27 & V28 & V29 & V30 & _).
  destruct (cell_sums_range hist n1 n2 n3 n4 src norient_ Eh P1 P2 P3 P4 ltac:(unfold norient_; lia)
              t1 t2 t3 t4 Et) as (B1 & B2 & B3 & B4).
  change (IZR norient_) with 18%R in *.
  assert (D : dec 2357 4 = (2357 / 10000)%R) by (unfold dec; cbn [div of_int RealExact]; reflexivity).
  assert (Ce : e = 27 \/ e = 28 \/ e = 29 \/ e = 30) by lia.
  destruct Ce as [-> | [-> | [-> | ->]]].
  - change (Z.to_nat 27) with 27%nat. rewrite V27, D. cbn [mul RealExact]. lra.
  - change (Z.to_nat 28) with 28%nat. rewrite V28, D. cbn [mul RealExact]. lra.
  - change (Z.to_nat 29) with 29%nat. rewrite V29, D. cbn [mul RealExact]. lra.
  - change (Z.to_nat 30) with 30%nat. rewrite V30, D. cbn [mul RealExact]. lra.
Qed.

End ExactTexture.

(** ** A uniform image in exact arithmetic *)

Lemma nth_all_zero (l : list R) (i : nat) : Forall (fun v : R => v = 0%R) l -> nth i l 0%R = 0%R.
Proof.
  intros Hl. destruct (Nat.lt_ge_cases i (length l)) as [L|L].
  - rewrite Forall_forall in Hl. apply Hl. apply nth_In. exact L.
  - apply nth_overflow. exact L.
Qed.

Lemma repeat_all_zero (n : nat) : Forall (fun v : R => v = 0%R) (repeat 0%R n).
Proof. apply Forall_forall. intros v Hv. apply repeat_spec in Hv. exact Hv. Qed.

Lemma tmin_zero (n : R) : tmin (mul 0%R n) (dec 2 1) = 0%R.
Proof.
  unfold tmin, dec. exact_ops. change (10 ^ 1) with 10. unfold Rltb.
  rewrite Rmult_0_l. destruct (Rlt_dec _ _) as [L|L]; [lra | reflexivity].
Qed.

Lemma truncated_zero (n1 n2 n3 n4 : R) :
  truncated 0%R n1 n2 n3 n4 = (0%R, (0%R, 0%R, 0%R, 0%R)).
Proof.
  unfold truncated. cbv zeta. rewrite !tmin_zero.
  f_equal. unfold dec. exact_ops. lra.
Qed.

Lemma cell_sums_zero (hist : list R) (n : R * R * R * R) (src k : Z) :
  Forall (fun v : R => v = 0%R) hist -> 0 <= k ->
  cell_sums hist n src k = (0%R, 0%R, 0%R, 0%R).
Proof.
  intros Hh Hk. pattern k. apply natlike_ind; [| |exact Hk].
  - unfold cell_sums. rewrite range_nil by lia. reflexivity.
  - clear k Hk. intros k Hk IH. unfold Z.succ. rewrite cell_sums_succ by exact Hk.
    rewrite IH. destruct n as [[[n1 n2] n3] n4]. unfold add_truncated.
    change (@zero R RealExact) with 0%R. rewrite nth_all_zero by exact Hh.
    rewrite truncated_zero. exact_ops. rewrite Rplus_0_l. reflexivity.
Qed.

Lemma cell_values_zero (hist : list R) (n : R * R * R * R) (src : Z) :
  Forall (fun v : R => v = 0%R) hist ->
  Forall (fun v : R => v = 0%R) (cell_values hist n src).
Proof.
  intros Hh. unfold cell_values. destruct n as [[[n1 n2] n3] n4].
  rewrite cell_sums_zero by (exact Hh || (unfold norient_; lia)).
  change (@zero R RealExact) with 0%R.
  apply Forall_app. split; [|apply Forall_app; split].
  - apply Forall_forall. intros v Hv. apply in_map_iff in Hv as (o & <- & _).
    rewrite nth_all_zero by exact Hh. rewrite truncated_zero. reflexivity.
  - apply Forall_forall. intros v Hv. apply in_map_iff in Hv as (o & <- & _).
    rewrite !nth_all_zero by exact Hh.
    replace (add 0%R 0%R) with 0%R by (exact_ops; lra).
    rewrite truncated_zero. reflexivity.
  - repeat constructor; exact_ops; apply Rmult_0_r.
Qed.

Section ExactUniform.
Variable IT : Type.
Variable sdiff : IT -> IT -> R.
Variable binsize_ : Z.
Variable T_depth : Depth.
Hypothesis sdiff_same : forall a : IT, sdiff a a = 0%R.

Lemma gradient_uniform (im : Mat IT) (c : IT) (s : Z) (r : R * R * R) :
  Forall (fun v => v = c) (data im) ->
  gradient IT sdiff im s = Ok r -> r = (0%R, 0%R, 0%R).
Proof.
  intros U E. unfold gradient in E.
  apply bind_ok in E as (a & La & E). apply bind_ok in E as (b & Lb & E).
  apply bind_ok in E as (c' & Lc & E). apply bind_ok in E as (d & Ld & E).
  apply (load_Forall _ _ _ _ U) in La, Lb, Lc, Ld. subst a b c' d.
  injection E as <-. rewrite sdiff_same. exact_ops.
  repeat f_equal. lra.
Qed.

Lemma pixel_gradient_uniform (im : Mat IT) (c : IT) (x y : Z) (r : R * R * R) :
  Forall (fun v => v = c) (data im) ->
  pixel_gradient IT sdiff im x y = Ok r -> r = (0%R, 0%R, 0%R).
Proof.
  intros U E. unfold pixel_gradient in E. cbv zeta in E.
  apply bind_ok in E as (r1 & G1 & E). apply (gradient_uniform _ _ _ _ U) in G1. subst r1.
  cbv beta iota in E.
  destruct (channels im =? 3); [|congruence].
  apply bind_ok in E as (r2 & G2 & E). apply (gradient_uniform _ _ _ _ U) in G2. subst r2.
  cbv beta iota in E.
  apply bind_ok in E as (r3 & G3 & E). apply (gradient_uniform _ _ _ _ U) in G3. subst r3.
  cbv beta iota in E.
  destruct (ltb 0%R 0%R); cbv beta iota in E; destruct (ltb 0%R 0%R); congruence.
Qed.

Lemma contributions_zero (g : Geometry) (x y : Z) (dx dy : R) :
  Forall (fun w : Z * R => snd w = 0%R) (contributions binsize_ g x y dx dy 0%R).
Proof.
  unfold contributions. cbv zeta.
  assert (M : forall a : R, mul a (sqrt 0%R) = 0%R).
  { intros a. exact_ops. rewrite sqrt_0. apply Rmult_0_r. }
  repeat (apply Forall_app; split);
    match goal with |- Forall _ (if ?c then _ else _) => destruct c end;
    repeat constructor; apply M.
Qed.

Lemma assign_all_zero (ws : list (Z * R)) (hist hist' : list R) :
  Forall (fun w : Z * R => snd w = 0%R) ws ->
  Forall (fun v : R => v = 0%R) hist -> assign_all hist ws = Ok hist' ->
  Forall (fun v : R => v = 0%R) hist'.
Proof.
  intros Hw. revert hist. induction Hw as [|[i v] ws Hv Hw IH]; simpl; intros hist Hh E.
  - injection E as <-. exact Hh.
  - apply bind_ok in E as (h1 & S & E). apply (IH h1); [|exact E].
    exact (store_Forall _ _ _ _ _ Hh Hv S).
Qed.

Lemma histogram_pass_uniform (im : Mat IT) (c : IT) (g : Geometry) (hist hist' : list R) :
  Forall (fun v => v = c) (data im) ->
  Forall (fun v : R => v = 0%R) hist ->
  histogram_pass IT sdiff binsize_ im g hist = Ok hist' ->
  Forall (fun v : R => v = 0%R) hist'.
Proof.
  intros U. unfold histogram_pass. apply for_each_inv. intros y h1 h1' _ H1.
  apply for_each_inv; [|exact H1]. intros x h2 h2' _ H2 E.
  apply bind_ok in E as (r & P & E). apply (pixel_gradient_uniform _ _ _ _ _ U) in P. subst r.
  cbv beta iota in E.
  exact (assign_all_zero _ _ _ (contributions_zero _ _ _ _ _) H2 E).
Qed.

(** X17: in exact arithmetic, for an image whose samples are all equal
    (the difference of a sample with itself being 0), every gradient is 0,
    so whenever the extractor returns, every value of the feature map is
    0. *)
Theorem features_exact_uniform (im : Mat IT) (c : IT) (featm : Mat R) (y x : Z) :
  Forall (fun v => v = c) (data im) ->
  features IT sdiff binsize_ T_depth im = Ok featm ->
  0 <= y < rows featm -> 0 <= x < cols featm ->
  at_ 0%R featm y x = 0%R.
Proof.
  intros U E Hy Hx.
  destruct (features_cells IT sdiff binsize_ T_depth im featm E) as (hist & norm & Eh & _ & C).
  apply (histogram_pass_uniform _ _ _ _ _ U (repeat_all_zero _)) in Eh.
  assert (D : x = x / flen_ * flen_ + x mod flen_).
  { rewrite Z.mul_comm. apply Z.div_mod. unfold flen_. lia. }
  assert (Bm : 0 <= x mod flen_ < flen_) by (apply Z.mod_pos_bound; unfold flen_; lia).
  assert (Bd : 0 <= x / flen_) by (apply Z.div_pos; unfold flen_; lia).
  destruct (C y (x / flen_)) as (n & _ & V); [exact Hy | exact Bd | lia |].
  rewrite D. change (at_ 0%R) with (at_ (@zero R RealExact)).
  rewrite V by exact Bm.
  apply (nth_all_zero _ _ (cell_values_zero hist n _ Eh)).
Qed.

End ExactUniform.

(** ** The orientation of a pixel *)

Section Orientation.
Context {T : Type} `{Real T}.

(** X18: in every arithmetic, the orientation a gradient is snapped to is
    one of the [norient_] bins: [best_o] starts at 0 and is only ever set to
    [o] or [o + 9] for an [o] below 9. *)
Theorem snap_orientation_range (dx dy : T) : 0 <= snap dx dy < norient_.
Proof.
  unfold snap.
  assert (G : forall (l : list Z) (acc : T * Z),
             (forall o, In o l -> 0 <= o < 9) -> 0 <= snd acc < 18 ->
             0 <= snd (fold_left
                         (fun '(best_dot, best_o) o =>
                            let dot := add (mul (nth (Z.to_nat o) uu zero) dx)
                                           (mul (nth (Z.to_nat o) vv zero) dy) in
                            if ltb best_dot dot then (dot, o)
                            else if ltb best_dot (opp dot) then (opp dot, o + 9)
                            else (best_dot, best_o)) l acc) < 18).
  { induction l as [|o l IH]; intros [bd bo] Hl Ha; simpl; [exact Ha|].
    apply IH; [intros; apply Hl; right; assumption|].
    pose proof (Hl o (or_introl eq_refl)).
    destruct (ltb bd _); [simpl; lia|]. destruct (ltb bd _); simpl; simpl in Ha; lia. }
  unfold norient_. apply G; [|simpl; lia].
  intros o Ho. apply in_range in Ho. change (18 / 2) with 9 in Ho. exact Ho.
Qed.

End Orientation.

(** ** The size of the pyramid *)

Section PyramidSize.
Context {T : Type} `{Real T}.
Variable IT : Type.
Variable sdiff : IT -> IT -> T.
Variable T_depth : Depth.
Variable resize : Mat IT -> Z -> Z -> Mat IT.
Variable pyrDown : Mat IT -> Mat IT.
Variable binsize_ : Z.
Variable nscales_ : Z.

(** X19: whenever [pyramid] returns, the number of levels is not negative
    and the pyramid holds exactly [nscales_] feature maps and [nscales_]
    scales. *)
Theorem pyramid_sizes (im : Mat IT) (pf : list (Mat T)) (scales : list T) :
  pyramid IT sdiff T_depth resize pyrDown binsize_ nscales_ im = Ok (pf, scales) ->
  0 <= nscales_ /\
  Z.of_nat (length pf) = nscales_ /\ Z.of_nat (length scales) = nscales_.
Proof.
  unfold pyramid. destruct (nscales_ <? 0) eqn:N; [discriminate|]. apply Z.ltb_ge in N.
  intros E. apply bind_ok in E as (imgs & _ & E).
  apply bind_ok in E as (pf' & F & E). injection E as <- <-.
  split; [exact N|]. rewrite repeat_length. split; [|lia].
  apply (for_each_inv (fun l : list (Mat T) => length l = Z.to_nat nscales_)) in F.
  - lia.
  - intros k s s' _ L B. apply bind_ok in B as (feature & _ & B). injection B as <-.
    rewrite length_upd. exact L.
  - apply repeat_length.
Qed.

End PyramidSize.

(** ** The properties above on concrete inputs *)

Lemma convolve_responses_witness :
  exists pdf,
    convolve (ones_map 3 64) (ones_map 2 32) 32 = Ok pdf /\
    written pdf = responses_in_order (ones_map 3 64) (ones_map 2 32) 32 /\
    data pdf = map Some (responses_in_order (ones_map 3 64) (ones_map 2 32) 32)
               ++ repeat None
                    (Z.to_nat ((3 - 2 + 1) * (64 - 32 + 32) * 1)
                     - length (responses_in_order (ones_map 3 64) (ones_map 2 32) 32)).
Proof.
  apply (convolve_responses (ones_map 3 64) (ones_map 2 32) 32);
    try reflexivity; simpl; lia.
Defined.

Lemma pdf_layout_witness :
  exists responses,
    pdf 32 [ones_map 3 64; ones_map 2 32] [ones_map 2 32; filter_1_2] = Ok responses /\
    length responses = 4%nat /\
    convolve (ones_map 2 32) (ones_map 2 32) 32 = Ok (nth 2 responses emptyMat).
Proof.
  assert (E : exists r, pdf 32 [ones_map 3 64; ones_map 2 32] [ones_map 2 32; filter_1_2] = Ok r)
    by (eexists; vm_compute; reflexivity).
  destruct E as (responses & E). exists responses. split; [exact E|].
  destruct (pdf_layout 32 _ _ responses E) as (L & V).
  split; [exact L|]. apply (V 1%nat 0%nat); simpl; lia.
Defined.

Lemma pdf_error_origin_witness :
  pdf 32 [ones_map 3 64; ones_map 2 40] [ones_map 2 32] = Err AssertStride /\
  exists m n : nat,
    (m < 2)%nat /\ (n < 1)%nat /\
    convolve (nth m [ones_map 3 64; ones_map 2 40] emptyMat) (nth n [ones_map 2 32] emptyMat) 32
    = Err AssertStride.
Proof.
  assert (E : pdf 32 [ones_map 3 64; ones_map 2 40] [ones_map 2 32] = Err AssertStride)
    by (vm_compute; reflexivity).
  split; [exact E|].
  exact (pdf_error_origin 32 [ones_map 3 64; ones_map 2 40] [ones_map 2 32] AssertStride E).
Defined.

Lemma pyramid_images_levels_witness :
  0 <= 7 /\
  exists pyraimages,
    pyramid_images Z resize_same pyrDown_none 7 spot = Ok pyraimages /\
    length pyraimages = Z.to_nat 7 /\
    forall n, 0 <= n < 7 ->
      nth (Z.to_nat n) pyraimages emptyMat
      = if n <? interval 7 then resize_same spot n (interval 7)
        else pyrDown_none (resize_same spot (n mod interval 7) (interval 7)).
Proof.
  assert (P : 0 <= 7) by lia. split; [exact P|].
  exact (pyramid_images_levels Z resize_same pyrDown_none 7 spot P).
Defined.

Lemma pyramid_images_repeat_witness :
  exists pyraimages,
    pyramid_images Z resize_same pyrDown_none 7 spot = Ok pyraimages /\
    interval 7 <= 3 /\ 3 + interval 7 < 7 /\
    nth (Z.to_nat (3 + interval 7)) pyraimages emptyMat = nth (Z.to_nat 3) pyraimages emptyMat.
Proof.
  assert (E : exists r, pyramid_images Z resize_same pyrDown_none 7 spot = Ok r)
    by (eexists; vm_compute; reflexivity).
  destruct E as (imgs & E). exists imgs.
  assert (A : interval 7 <= 3) by (vm_compute; discriminate).
  assert (B : 3 + interval 7 < 7) by reflexivity.
  split; [exact E|]. split; [exact A|]. split; [exact B|].
  exact (pyramid_images_repeat Z resize_same pyrDown_none 7 spot imgs 3 E A B).
Defined.

Lemma pyramid_level_convolves_witness :
  exists pf scales pdf,
    pyramid_double 8 1 (flat 24 24) = Ok (pf, scales) /\
    convolve (nth 0 pf emptyMat) (ones_map 2 32) flen_ = Ok pdf /\
    written pdf = responses_in_order (nth 0 pf emptyMat) (ones_map 2 32) flen_.
Proof.
  destruct (pyramid_double 8 1 (flat 24 24)) as [[pf scales]|] eqn:E;
    [|vm_compute in E; discriminate].
  assert (N : 0 <= 0 < 1) by lia.
  destruct (pyramid_level_format Z int_diff CV_64F resize_same pyrDown_none 8 1
              (flat 24 24) pf scales 0 E N) as (_ & _ & R & C & _).
  cbv zeta in R, C. change (Z.to_nat 0) with 0%nat in R, C. unfold flen_ in C.
  assert (D : depth (ones_map 2 32) = CV_64F) by reflexivity.
  assert (M : Z.rem (cols (ones_map 2 32)) flen_ = 0) by reflexivity.
  assert (Hr : 1 <= rows (ones_map 2 32) <= rows (nth (Z.to_nat 0) pf emptyMat))
    by (change (Z.to_nat 0) with 0%nat; simpl; lia).
  assert (Hc : 0 <= cols (ones_map 2 32) <= cols (nth (Z.to_nat 0) pf emptyMat))
    by (change (Z.to_nat 0) with 0%nat; simpl; lia).
  assert (L : Z.of_nat (length (data (ones_map 2 32)))
              = rows (ones_map 2 32) * cols (ones_map 2 32)) by reflexivity.
  destruct (pyramid_level_convolves Z int_diff CV_64F resize_same pyrDown_none 8 1
              (flat 24 24) pf scales 0 (ones_map 2 32) E N D M Hr Hc L)
    as (_ & _ & _ & pdf & Ec & Ew).
  exists pf, scales, pdf. split; [reflexivity|]. split; [exact Ec | exact Ew].
Defined.

Lemma features_format_witness :
  0 < 8 /\ 0 <= rows spot < 2 ^ 23 /\ 0 <= cols spot < 2 ^ 23 /\
  exists featm,
    features_double 8 spot = Ok featm /\
    rows featm = 1 /\ cols featm = 1 * flen_ /\ channels featm = 1 /\ depth featm = CV_64F /\
    Z.of_nat (length (data featm)) = rows featm * cols featm.
Proof.
  assert (P : 0 < 8) by lia.
  assert (Hr : 0 <= rows spot < 2 ^ 23) by (simpl; lia).
  assert (Hc : 0 <= cols spot < 2 ^ 23) by (simpl; lia).
  split; [exact P|]. split; [exact Hr|]. split; [exact Hc|].
  destruct (features_double 8 spot) as [featm|] eqn:E; [|vm_compute in E; discriminate].
  exists featm. split; [reflexivity|].
  exact (proj1 (features_format Z int_diff 8 CV_64F spot P Hr Hc) featm E).
Defined.

Lemma energy_pass_value_witness :
  exists norm',
    energy_pass (geometry Z 8 spot) (repeat 1%float 162) (norm0 (geometry Z 8 spot)) = Ok norm' /\
    nth 4 norm' 0%float = block_energy (repeat 1%float 162) 4 0%float.
Proof.
  destruct (energy_pass (geometry Z 8 spot) (repeat 1%float 162) (norm0 (geometry Z 8 spot)))
    as [norm'|] eqn:E; [|vm_compute in E; discriminate].
  exists norm'. split; [reflexivity|].
  destruct (energy_pass_value _ _ _ _ E) as (_ & V & _).
  apply (V 4). vm_compute. split; congruence.
Defined.

Lemma feature_pass_value_witness :
  exists feat' n,
    feature_pass (geometry Z 8 spot) (repeat 1%float 162) (repeat 1%float 9)
      (repeat 0%float 32) = Ok feat' /\
    normalizers (geometry Z 8 spot) (repeat 1%float 9) 0 0 = Ok n /\
    nth 5 feat' 0%float = nth 5 (cell_values (repeat 1%float 162) n 72) 0%float.
Proof.
  destruct (feature_pass (geometry Z 8 spot) (repeat 1%float 162) (repeat 1%float 9)
              (repeat 0%float 32)) as [feat'|] eqn:E; [|vm_compute in E; discriminate].
  assert (W : 0 <= out_width (geometry Z 8 spot)) by (vm_compute; discriminate).
  destruct (feature_pass_value _ _ _ _ _ W E) as (_ & V & _).
  destruct (V 0 0) as (n & N & Vn); [vm_compute; split; congruence | vm_compute; split; congruence |].
  exists feat', n. split; [reflexivity|]. split; [exact N|].
  apply (Vn 5). unfold flen_. lia.
Defined.

Lemma features_truncation_zero_witness :
  exists featm,
    features_double 8 spot = Ok featm /\
    at_ 0%float featm 0 (0 * flen_ + (flen_ - 1)) = 0%float.
Proof.
  destruct (features_double 8 spot) as [featm|] eqn:E; [|vm_compute in E; discriminate].
  exists featm. split; [reflexivity|].
  destruct (features_shape _ _ _ _ _ _ E) as (Sr & Sc).
  change (rows featm = 1) in Sr. change (cols featm = 32) in Sc.
  apply (features_truncation_zero Z int_diff 8 CV_64F spot featm 0 0 E);
    unfold flen_; lia.
Defined.

Lemma features_exact_texture_bounded_witness :
  exists featm : Mat R,
    features Z int_diff 8 CV_64F spot = Ok featm /\
    (0 <= at_ 0 featm 0 (0 * flen_ + 27) <= 84852 / 100000)%R.
Proof.
  assert (P : 0 < 8) by lia.
  destruct (features_exact_total Z int_diff 8 CV_64F P spot spot_gradient_ready) as (featm & E).
  exists featm. split; [exact E|].
  destruct (features_shape _ _ _ _ _ _ E) as (Sr & Sc).
  change (rows featm = 1) in Sr. change (cols featm = 32) in Sc.
  apply (features_exact_texture_bounded Z int_diff 8 CV_64F spot featm 0 0 27 E);
    unfold flen_; lia.
Defined.

Lemma flat_uniform (w h : Z) : Forall (fun v => v = 128) (data (flat w h)).
Proof.
  apply Forall_forall. intros v Hv. unfold flat, image8 in Hv. simpl in Hv.
  apply in_flat_map in Hv as (y & _ & Hv). apply in_map_iff in Hv as (x & <- & _). reflexivity.
Qed.

Lemma flat_gradient_ready : gradient_ready (flat 24 24).
Proof. repeat split; vm_compute; congruence. Qed.

Lemma features_exact_uniform_witness :
  exists featm : Mat R,
    features Z int_diff 8 CV_64F (flat 24 24) = Ok featm /\
    at_ 0%R featm 0 5 = 0%R.
Proof.
  assert (P : 0 < 8) by lia.
  destruct (features_exact_total Z int_diff 8 CV_64F P (flat 24 24) flat_gradient_ready)
    as (featm & E).
  exists featm. split; [exact E|].
  destruct (features_shape _ _ _ _ _ _ E) as (Sr & Sc).
  change (rows featm = 1) in Sr. change (cols featm = 32) in Sc.
  assert (S0 : forall a : Z, int_diff a a = 0%R)
    by (intros a; unfold int_diff; rewrite Z.sub_diag; reflexivity).
  apply (features_exact_uniform Z int_diff 8 CV_64F S0 (flat 24 24) 128 featm 0 5
           (flat_uniform 24 24) E); lia.
Defined.

Lemma pyramid_sizes_witness :
  exists pf scales,
    pyramid_double 8 1 (flat 24 24) = Ok (pf, scales) /\
    0 <= 1 /\ Z.of_nat (length pf) = 1 /\ Z.of_nat (length scales) = 1.
Proof.
  destruct (pyramid_double 8 1 (flat 24 24)) as [[pf scales]|] eqn:E;
    [|vm_compute in E; discriminate].
  exists pf, scales. split; [reflexivity|].
  exact (pyramid_sizes Z int_diff CV_64F resize_same pyrDown_none 8 1 (flat 24 24) pf scales E).
Defined.

(** ** The truncated terms of a cell, in every arithmetic *)

Section TruncatedTerms.
Context {T : Type} `{Real T}.
Variable IT : Type.
Variable sdiff : IT -> IT -> T.
Variable binsize_ : Z.
Variable T_depth : Depth.





End TruncatedTerms.


